(** * Plinko: ledger, board layout, landing resolver and round controller

    A shallow embedding of [js/chip-manager.js] and [games/plinko/plinko.js].

    Numbers.  A JavaScript number is modelled by the rational it stands
    for: integers by [Z], possibly fractional amounts and coordinates by [Q].
    The arithmetic of the ledger, of the payout and of the drop position is
    binary64 arithmetic: the exact result rounded to the nearest binary64
    number, ties to the even significand ([JS.add], [JS.sub], [JS.mul],
    [JS.div]); comparisons, [Math.floor], [Math.max] and [Math.min] are
    exact.  A balance kept in [localStorage] goes through [toString] and
    [parseInt] ([JS.parseIntOfToString]).  The layout of the board is
    computed in exact arithmetic: on the shipped configuration every
    intermediate value is a multiple of 1/2 below 1024, so the program's
    arithmetic is exact there as well (checked in [Binary64Facts]).  [NaN]
    and results of magnitude [2^1024] and more (the infinities) are outside
    this model.

    State.  The module-level variables of both files become fields of
    explicit state records; every function that reads or writes them takes
    the state and returns the new one.  Time is abstracted: a call of
    [setTimeout] adds a pending timer, and any pending timer may fire next. *)

From Stdlib Require Import ZArith QArith Qround Qpower Lqa Lia List Bool Floats.
From Stdlib Require String.
From stdpp Require Import base list.
Import ListNotations.

Set Default Proof Using "Type".

(** ** Number helpers *)

Module JS.

Local Open Scope Q_scope.

(** [a < b] and [a >= b] on numbers. *)
Definition ltb (a b : Q) : bool := negb (Qle_bool b a).
Definition geb (a b : Q) : bool := Qle_bool b a.

(** An integer used where a number is expected. *)
Definition num (n : nat) : Q := inject_Z (Z.of_nat n).

(** *** Binary64 rounding

    [fl x] is the binary64 number nearest to [x], the one with the even
    significand when two are equally near.  A positive [x] in the binade
    [[2^e, 2^(e+1))] is rounded to a multiple of [2^(e-52)], and to a
    multiple of [2^-1074] in the subnormal range. *)

Definition pow2 (e : Z) : Q := 2 ^ e.

(** The binade of a positive number: the [e] with [2^e <= x < 2^(e+1)]. *)
Definition ilog2 (x : Q) : Z :=
  let e0 := (Z.log2 (Qnum x) - Z.log2 (Z.pos (Qden x)))%Z in
  if Qle_bool (pow2 e0) x then e0 else (e0 - 1)%Z.

(** The nearest integer, the even one of two equally near. *)
Definition rne (q : Q) : Z :=
  let f := Qfloor q in
  match Qcompare (q - inject_Z f) (1 # 2) with
  | Lt => f
  | Gt => (f + 1)%Z
  | Eq => if Z.even f then f else (f + 1)%Z
  end.

(** The exponent of the unit in the last place of a positive number. *)
Definition quantum (x : Q) : Z := Z.max (ilog2 x - 52) (-1074).

Definition roundTo (u : Z) (x : Q) : Q :=
  inject_Z (rne (x / pow2 u)) * pow2 u.

Definition roundPos (x : Q) : Q := roundTo (quantum x) x.

Definition fl (x : Q) : Q :=
  match Qcompare x 0 with
  | Eq => 0
  | Gt => Qred (roundPos x)
  | Lt => Qred (- roundPos (- x))
  end.

(** [a + b], [a - b], [a * b] and [a / b] on numbers. *)
Definition add (a b : Q) : Q := fl (a + b).
Definition sub (a b : Q) : Q := fl (a - b).
Definition mul (a b : Q) : Q := fl (a * b).
Definition div (a b : Q) : Q := fl (a / b).

(** *** [parseInt(v.toString(), 10)] for an integer-valued number [v]

    Below [10^21] in magnitude [toString] writes the digits of [v] and
    [parseInt] reads [v] back.  From [10^21] on [toString] writes the
    shortest decimal that rounds to [v], in exponent notation
    (["1e+21"], ["1.1805916207174113e+21"]), and [parseInt] stops at the
    ["."] or the ["e"]: it reads the leading digit. *)

Local Open Scope Z_scope.

Fixpoint countDigits (fuel : nat) (v : Z) : Z :=
  match fuel with
  | O => 1
  | S n => if v <? 10 then 1 else 1 + countDigits n (v / 10)
  end.

(** The number of decimal digits of [v > 0]. *)
Definition digits (v : Z) : Z := countDigits (Z.to_nat (Z.log2 v)) v.

(** [s * 10^e] is a decimal for [v]: it rounds to [v]. *)
Definition roundTrips (s e v : Z) : bool :=
  Qfloor (fl (inject_Z (s * 10 ^ e))) =? v.

(** The first digit of [s], a number of [k] digits, or [10^k]. *)
Definition leadOf (s k : Z) : Z :=
  if s =? 10 ^ k then 1 else s / 10 ^ (k - 1).

(** The leading digit of the decimal of [k] digits for [v], a number of
    [n] digits, if there is one: the nearer of the two candidates around
    [v], the even one when both are equally near. *)
Definition candidate (v n k : Z) : option Z :=
  let e := n - k in
  let lo := v / 10 ^ e in
  let hi := lo + 1 in
  match roundTrips lo e v, roundTrips hi e v with
  | true, true =>
      let below := v - lo * 10 ^ e in
      let above := hi * 10 ^ e - v in
      if below <? above then Some (leadOf lo k)
      else if above <? below then Some (leadOf hi k)
      else Some (leadOf (if Z.even lo then lo else hi) k)
  | true, false => Some (leadOf lo k)
  | false, true => Some (leadOf hi k)
  | false, false => None
  end.

(** The shortest decimal is looked for from one digit up; seventeen
    digits always round-trip for a binary64 number. *)
Fixpoint searchLead (fuel : nat) (v n k : Z) : Z :=
  match fuel with
  | O => v / 10 ^ (n - 1)
  | S f => match candidate v n k with
           | Some d => d
           | None => searchLead f v n (k + 1)
           end
  end.

Definition leadingDigit (v : Z) : Z := searchLead 17 v (digits v) 1.

Definition parseIntOfToString (v : Z) : Z :=
  if Z.abs v <? 10 ^ 21 then v else Z.sgn v * leadingDigit (Z.abs v).

End JS.

Arguments JS.fl : simpl never.
Arguments JS.parseIntOfToString : simpl never.

(** ** chip-manager.js *)

Module ChipManager.

Definition INITIAL_BALANCE : Z := 10000.

(** How the browser's [localStorage] answers.  [Available]: every call
    succeeds.  [QuotaExceeded]: [getItem] succeeds, [setItem] throws.
    [Blocked]: every access throws (the sandboxed iframe the file's
    header mentions). *)
Inductive StorageMode := Available | QuotaExceeded | Blocked.

Definition getItemThrows (m : StorageMode) : bool :=
  match m with Blocked => true | _ => false end.

Definition setItemThrows (m : StorageMode) : bool :=
  match m with Available => false | _ => true end.

(** The closure variables of the module, the storage it talks to, and the
    [chipBalanceChange] events it has dispatched (most recent first, each
    with its [detail.balance]).

    [storedItem] is the number whose [toString()] text is held under
    [STORAGE_KEY], [None] when the key is absent: only [setBalance] writes
    the key, with [value.toString()], and [getBalance] reads it back with
    [parseInt(stored, 10)]. *)
Record State := mkState {
  useMemoryFallback : bool;
  memoryBalance : option Z;
  storedItem : option Z;
  storage : StorageMode;
  dispatched : list Z
}.

(** Code that threads the module state. *)
Definition M (A : Type) : Type := State -> A * State.

Definition ret {A} (a : A) : M A := fun s => (a, s).

Definition bind {A B} (m : M A) (k : A -> M B) : M B :=
  fun s => let (a, s') := m s in k a s'.

Declare Scope ledger_scope.
Delimit Scope ledger_scope with ledger.
Notation "'let*' x := m 'in' k" := (bind m (fun x => k))
  (at level 10, x name, m at level 100, k at level 200) : ledger_scope.
Notation "m >> k" := (bind m (fun _ => k))
  (at level 100, k at level 200, right associativity) : ledger_scope.
Local Open Scope ledger_scope.

(** [isLocalStorageAvailable]: a [setItem] and a [removeItem] of a test
    key, [false] when either throws. *)
Definition isLocalStorageAvailable (m : StorageMode) : bool :=
  negb (setItemThrows m).

(** The state after the module body has run, for a browser whose storage
    answers as [m] and holds [item]. *)
Definition init (m : StorageMode) (item : option Z) : State :=
  if isLocalStorageAvailable m
  then mkState false None item m []
  else mkState true (Some INITIAL_BALANCE) item m [].

Definition dispatchBalanceChange (newBalance : Z) : M unit :=
  fun s => (tt, mkState (useMemoryFallback s) (memoryBalance s)
                        (storedItem s) (storage s)
                        (newBalance :: dispatched s)).

Definition setMemory (b : bool) (v : Z) : M unit :=
  fun s => (tt, mkState b (Some v) (storedItem s) (storage s) (dispatched s)).

Definition setItem (v : Z) : M unit :=
  fun s => (tt, mkState (useMemoryFallback s) (memoryBalance s)
                        (Some v) (storage s) (dispatched s)).

Definition setBalance (amount : Q) : M Z :=
  fun s =>
    let value := Z.max 0 (Qfloor amount) in
    ((if useMemoryFallback s then setMemory true value
      else if setItemThrows (storage s) then setMemory true value
      else setItem value) >>
     dispatchBalanceChange value >>
     ret value) s.

(** The two places that read [memoryBalance], filling it in when [null]. *)
Definition readMemory (s : State) : Z * State :=
  match memoryBalance s with
  | None => (INITIAL_BALANCE,
             mkState true (Some INITIAL_BALANCE) (storedItem s) (storage s)
                     (dispatched s))
  | Some b => (b, mkState true (Some b) (storedItem s) (storage s)
                          (dispatched s))
  end.

Definition getBalance : M Z :=
  fun s =>
    if useMemoryFallback s then readMemory s
    else if getItemThrows (storage s) then readMemory s
    else match storedItem s with
         | None => (setBalance (inject_Z INITIAL_BALANCE) >>
                    ret INITIAL_BALANCE) s
         | Some stored => (JS.parseIntOfToString stored, s)
         end.

Definition deduct (amount : Q) : M bool :=
  let* current := getBalance in
  if JS.ltb (inject_Z current) amount then ret false
  else setBalance (JS.sub (inject_Z current) amount) >> ret true.

Definition award (amount : Q) : M Z :=
  let* current := getBalance in
  setBalance (JS.add (inject_Z current) amount).

Definition reset : M Z := setBalance (inject_Z INITIAL_BALANCE).

Definition canAfford (amount : Q) : M bool :=
  let* current := getBalance in
  ret (JS.geb (inject_Z current) amount).

Definition isUsingMemoryFallback : M bool :=
  fun s => (useMemoryFallback s, s).

(** The browser's storage starts answering as [m]. *)
Definition storageBecomes (m : StorageMode) (s : State) : State :=
  mkState (useMemoryFallback s) (memoryBalance s) (storedItem s) m
          (dispatched s).

(** The balance an observer reads now. *)
Definition balance (s : State) : Z := fst (getBalance s).

(** What the program itself maintains: whatever holds the balance holds a
    non-negative integer. *)
Definition wf (s : State) : Prop :=
  (forall b, memoryBalance s = Some b -> (0 <= b)%Z) /\
  (forall b, storedItem s = Some b -> (0 <= b)%Z).

(** A ledger whose storage works and holds 500 chips. *)
Definition ledger500 : State := init Available (Some 500%Z).

End ChipManager.

(** ** plinko.js: configuration, board layout and landing resolver *)

Module Plinko.

Local Open Scope Q_scope.

(** The multipliers as the source writes them.  [1.2] and [0.3] are no
    binary64 numbers: the table holds the binary64 numbers nearest to
    them. *)
Definition multiplierLiterals : list Q :=
  [10; 3; 1.5; 1.2; 1; 0.5; 0.3; 0.5; 1; 1.2; 1.5; 3; 10].

Record Config := mkConfig {
  rows : nat;
  pegRadius : Q;
  ballRadius : Q;
  pegGap : Q;
  rowGap : Q;
  canvasWidth : Q;
  canvasHeight : Q;
  ballDropVariance : Q;
  multipliers : list Q
}.

Definition CONFIG : Config := {|
  rows := 12;
  pegRadius := 4;
  ballRadius := 8;
  pegGap := 35;
  rowGap := 30;
  canvasWidth := 500;
  canvasHeight := 450;
  ballDropVariance := 15;
  multipliers := map JS.fl multiplierLiterals
|}.

(** An entry of [bucketPositions]. *)
Record Bucket := mkBucket { left : Q; right : Q; center : Q }.

Section Layout.

Variable cfg : Config.

Definition startY : Q := 50.
Definition centerX : Q := canvasWidth cfg / 2.

(** The first loop of [createPegs]: row [row] has [row + 3] pegs. *)
Definition pegsInRow (row : nat) : nat := (row + 3)%nat.

Definition pegRow (row : nat) : list (Q * Q) :=
  let rowWidth := (JS.num (pegsInRow row) - 1) * pegGap cfg in
  let startX := centerX - rowWidth / 2 in
  map (fun col => (startX + JS.num col * pegGap cfg,
                   startY + JS.num row * rowGap cfg))
      (seq 0 (pegsInRow row)).

Definition pegs : list (list (Q * Q)) := map pegRow (seq 0 (rows cfg)).

(** The second half of [createPegs]. *)
Definition finalRowPegs : nat := (rows cfg + 3)%nat.
Definition finalRowWidth : Q := (JS.num finalRowPegs - 1) * pegGap cfg.
Definition finalStartX : Q := centerX - finalRowWidth / 2.

Definition leftBound (i : nat) : Q :=
  if (i =? 0)%nat then 0
  else finalStartX + (JS.num i - 1) * pegGap cfg + pegGap cfg / 2.

Definition rightBound (i : nat) : Q :=
  if (i =? finalRowPegs)%nat then canvasWidth cfg
  else finalStartX + JS.num i * pegGap cfg - pegGap cfg / 2.

Definition bucketAt (i : nat) : Bucket :=
  {| left := leftBound i;
     right := rightBound i;
     center := (leftBound i + rightBound i) / 2 |}.

(** [for (let i = 0; i <= finalRowPegs; i++) bucketPositions.push(...)] *)
Definition createBuckets : list Bucket :=
  map bucketAt (seq 0 (finalRowPegs + 1)).

End Layout.

(** The test of the scan in [handleBallLanding]:
    [x >= bucket.left && x < bucket.right]. *)
Definition inBucket (x : Q) (b : Bucket) : bool :=
  JS.geb x (left b) && JS.ltb x (right b).

(** The scan itself, from index [i] on; [bucketIndex] is the value the
    variable holds when the loop runs to its end without a [break]. *)
Fixpoint scanBuckets (x : Q) (bs : list Bucket) (i bucketIndex : nat) : nat :=
  match bs with
  | [] => bucketIndex
  | b :: rest => if inBucket x b then i
                 else scanBuckets x rest (S i) bucketIndex
  end.

(** [let bucketIndex = 0; for (...) { if (...) { bucketIndex = i; break; } }] *)
Definition findBucketIndex (x : Q) (bs : list Bucket) : nat :=
  scanBuckets x bs 0 0.

(** [Math.min(bucketIndex, CONFIG.multipliers.length - 1)] *)
Definition multiplierIndexOf (bucketIndex : nat) : Z :=
  Z.min (Z.of_nat bucketIndex) (Z.of_nat (length (multipliers CONFIG)) - 1).

(** [CONFIG.multipliers[multiplierIndex]]; the index is always inside the
    table (lemma [multiplierIndexOf_range]), so the default is never read. *)
Definition multiplierAt (multiplierIndex : Z) : Q :=
  nth (Z.to_nat multiplierIndex) (multipliers CONFIG) 0.

(** [Math.floor(betAmount * multiplier)] *)
Definition winAmountOf (betAmount : Z) (multiplier : Q) : Z :=
  Qfloor (JS.mul (inject_Z betAmount) multiplier).

(** *** Round controller *)

(** A rigid body of the physics world, as far as the program tells them
    apart: by [label], and balls by identity. *)
Inductive Body :=
| PegBody (x y : Q)
| WallBody (x : Q)
| BottomSensor
| BallBody (ball : nat).

Inductive Label := LabelPeg | LabelBall | LabelBottomSensor | LabelDefault.

Definition label (b : Body) : Label :=
  match b with
  | PegBody _ _ => LabelPeg
  | WallBody _ => LabelDefault
  | BottomSensor => LabelBottomSensor
  | BallBody _ => LabelBall
  end.

Definition isLabel (l : Label) (b : Body) : bool :=
  match l, label b with
  | LabelPeg, LabelPeg | LabelBall, LabelBall
  | LabelBottomSensor, LabelBottomSensor | LabelDefault, LabelDefault => true
  | _, _ => false
  end.

(** The fields of a ball object the program reads or writes.  Ball objects
    live in [heap]; a ball is referred to by its index there, so the
    [balls] array, the world and a pending timer can share one object. *)
Record Ball := mkBall {
  betAmount : Z;
  landed : bool;
  positionX : Q
}.

(** Pending [setTimeout] callbacks: the one of [dropBall] and the one of
    [handleBallLanding]. *)
Inductive Timer := ReenableDrop | RemoveBall (ball : nat).

Inductive AlertMsg := MinimumBet | NotEnoughChips.

(** What the player gets to see: an [alert], or a landing handled for
    [ball] with the values passed on to [updateResult] and
    [highlightBucket]. *)
Inductive LogEntry :=
| Alerted (msg : AlertMsg)
| Settled (ball : nat) (multiplierIndex : Z) (multiplier : Q)
          (winAmount betAmount : Z).

Record State := mkGame {
  chips : ChipManager.State;
  heap : list Ball;
  balls : list nat;
  isDropping : bool;
  bucketPositions : list Bucket;
  world : list Body;
  timers : list Timer;
  betInput : option Z;
  dropBtnDisabled : bool;
  log : list LogEntry
}.

(** [betInput] is what [parseInt(betInput.value, 10)] yields for the text
    in the field, [None] for [NaN]. *)
Definition parsedOr100 (v : option Z) : Z :=
  match v with
  | None => 100
  | Some v => if (v =? 0)%Z then 100 else v
  end.

Definition withChips (c : ChipManager.State) (st : State) : State :=
  mkGame c (heap st) (balls st) (isDropping st) (bucketPositions st)
         (world st) (timers st) (betInput st) (dropBtnDisabled st) (log st).

Definition withBetInput (v : option Z) (st : State) : State :=
  mkGame (chips st) (heap st) (balls st) (isDropping st) (bucketPositions st)
         (world st) (timers st) v (dropBtnDisabled st) (log st).

Definition withDropBtnDisabled (b : bool) (st : State) : State :=
  mkGame (chips st) (heap st) (balls st) (isDropping st) (bucketPositions st)
         (world st) (timers st) (betInput st) b (log st).

Definition alert (msg : AlertMsg) (st : State) : State :=
  mkGame (chips st) (heap st) (balls st) (isDropping st) (bucketPositions st)
         (world st) (timers st) (betInput st) (dropBtnDisabled st)
         (Alerted msg :: log st).

(** [isDropping = false; dropBtn.disabled = false] *)
Definition enableDrop (st : State) : State :=
  mkGame (chips st) (heap st) (balls st) false (bucketPositions st)
         (world st) (timers st) (betInput st) false (log st).

Definition pegBodies (cfg : Config) : list Body :=
  concat (map (map (fun p => PegBody (fst p) (snd p))) (pegs cfg)).

(** [createWalls]: left wall, right wall, bottom sensor. *)
Definition wallBodies (cfg : Config) : list Body :=
  [WallBody (- (20 / 2)); WallBody (canvasWidth cfg + 20 / 2); BottomSensor].

(** The state once [initGame] has run, in a browser whose storage answers
    as [m] and holds [item], with [bet] in the bet field. *)
Definition initGame (m : ChipManager.StorageMode) (item : option Z)
           (bet : option Z) : State :=
  {| chips := ChipManager.init m item;
     heap := [];
     balls := [];
     isDropping := false;
     bucketPositions := createBuckets CONFIG;
     world := pegBodies CONFIG ++ wallBodies CONFIG;
     timers := [];
     betInput := bet;
     dropBtnDisabled := false;
     log := [] |}.

(** The second half of [dropBall], once the bet has been deducted: the
    button is disabled, the ball created, pushed on [balls], added to the
    world, and the re-enabling timeout set. *)
Definition spawnBall (bet : Z) (random : Q) (st : State) : State :=
  let centerX := JS.div (canvasWidth CONFIG) 2 in
  let dropX :=
    JS.add centerX
           (JS.mul (JS.mul (JS.sub random 0.5) (ballDropVariance CONFIG)) 2) in
  let ball := length (heap st) in
  {| chips := chips st;
     heap := heap st ++ [mkBall bet false dropX];
     balls := balls st ++ [ball];
     isDropping := true;
     bucketPositions := bucketPositions st;
     world := world st ++ [BallBody ball];
     timers := timers st ++ [ReenableDrop];
     betInput := betInput st;
     dropBtnDisabled := true;
     log := log st |}.

(** [window.dropBall]; [random] is the value of [Math.random()]. *)
Definition dropBall (random : Q) (st : State) : State :=
  if isDropping st then st
  else
    let bet := parsedOr100 (betInput st) in
    if (bet <? 10)%Z then alert MinimumBet st
    else
      let (affordable, chips1) :=
        ChipManager.canAfford (inject_Z bet) (chips st) in
      if negb affordable then alert NotEnoughChips (withChips chips1 st)
      else
        let chips2 := snd (ChipManager.deduct (inject_Z bet) chips1) in
        spawnBall bet random (withChips chips2 st).

(** [window.adjustBet] and [window.setBet].  The rounded sum of two integers
    is an integer (lemma [fl_Z_integral]); [Qfloor] reads it as one. *)
Definition adjustBet (delta : Z) (st : State) : State :=
  let value := parsedOr100 (betInput st) in
  let sum := Qfloor (JS.add (inject_Z value) (inject_Z delta)) in
  withBetInput (Some (Z.max 10 (Z.min 10000 sum))) st.

(** [setBet] writes the number into the field; what [dropBall] and
    [adjustBet] find there is [parseInt] of its text. *)
Definition setBet (amount : Z) (st : State) : State :=
  withBetInput (Some (JS.parseIntOfToString amount)) st.

(** [handleBallLanding(ball)], for a ball object [b] stored at [ball]. *)
Definition handleBallLanding (ball : nat) (b : Ball) (st : State) : State :=
  let x := positionX b in
  let bucketIndex := findBucketIndex x (bucketPositions st) in
  let multiplierIndex := multiplierIndexOf bucketIndex in
  let multiplier := multiplierAt multiplierIndex in
  let winAmount := winAmountOf (betAmount b) multiplier in
  let chips1 := snd (ChipManager.award (inject_Z winAmount) (chips st)) in
  {| chips := chips1;
     heap := heap st;
     balls := balls st;
     isDropping := isDropping st;
     bucketPositions := bucketPositions st;
     world := world st;
     timers := timers st ++ [RemoveBall ball];
     betInput := betInput st;
     dropBtnDisabled := dropBtnDisabled st;
     log := Settled ball multiplierIndex multiplier winAmount (betAmount b)
            :: log st |}.

Definition setLanded (ball : nat) (b : Ball) (st : State) : State :=
  mkGame (chips st)
         (<[ball := mkBall (betAmount b) true (positionX b)]> (heap st))
         (balls st) (isDropping st) (bucketPositions st) (world st)
         (timers st) (betInput st) (dropBtnDisabled st) (log st).

(** The ball of a collision pair:
    [bodyA.label === 'ball' ? bodyA : bodyB.label === 'ball' ? bodyB : null] *)
Definition ballOfPair (bodyA bodyB : Body) : option nat :=
  match bodyA, bodyB with
  | BallBody a, _ => Some a
  | _, BallBody b => Some b
  | _, _ => None
  end.

(** The body of the [forEach] in [setupCollisionDetection]. *)
Definition onPair (st : State) (pair : Body * Body) : State :=
  let (bodyA, bodyB) := pair in
  if isLabel LabelBottomSensor bodyA || isLabel LabelBottomSensor bodyB then
    match ballOfPair bodyA bodyB with
    | Some ball =>
        match heap st !! ball with
        | Some b => if landed b then st
                    else handleBallLanding ball b (setLanded ball b st)
        | None => st
        end
    | None => st
    end
  else st.

Definition onCollisionStart (pairs : list (Body * Body)) (st : State) : State :=
  fold_left onPair pairs st.

Definition removeTimer (k : nat) (st : State) : State :=
  mkGame (chips st) (heap st) (balls st) (isDropping st) (bucketPositions st)
         (world st) (delete k (timers st)) (betInput st)
         (dropBtnDisabled st) (log st).

Definition bodyIsNot (ball : nat) (b : Body) : bool :=
  match b with
  | BallBody a => negb (a =? ball)%nat
  | _ => true
  end.

(** The callback [handleBallLanding] schedules. *)
Definition removeBall (ball : nat) (st : State) : State :=
  let remaining := List.filter (fun b => negb (b =? ball)%nat) (balls st) in
  let st1 :=
    mkGame (chips st) (heap st) remaining (isDropping st)
           (bucketPositions st) (List.filter (bodyIsNot ball) (world st))
           (timers st) (betInput st) (dropBtnDisabled st) (log st) in
  if (length remaining =? 0)%nat then enableDrop st1 else st1.

(** The callback [dropBall] schedules. *)
Definition reenableDrop (st : State) : State :=
  if (length (balls st) <? 5)%nat then enableDrop st else st.

(** The [k]-th pending timer fires. *)
Definition fireTimer (k : nat) (st : State) : State :=
  match timers st !! k with
  | Some ReenableDrop => reenableDrop (removeTimer k st)
  | Some (RemoveBall ball) => removeBall ball (removeTimer k st)
  | None => st
  end.

(** The integrator moves a ball. *)
Definition moveBall (ball : nat) (x : Q) (st : State) : State :=
  match heap st !! ball with
  | Some b =>
      mkGame (chips st)
             (<[ball := mkBall (betAmount b) (landed b) x]> (heap st))
             (balls st) (isDropping st) (bucketPositions st) (world st)
             (timers st) (betInput st) (dropBtnDisabled st) (log st)
  | None => st
  end.

(** Everything that can happen to the page. *)
Inductive Event :=
| DropBall (random : Q)
| AdjustBet (delta : Z)
| SetBet (amount : Z)
| EditBet (parsed : option Z)
| SetDropBtnDisabled (b : bool)
| Moved (ball : nat) (x : Q)
| CollisionStart (pairs : list (Body * Body))
| TimerFired (k : nat)
| StorageBecomes (m : ChipManager.StorageMode).

Definition step (st : State) (ev : Event) : State :=
  match ev with
  | DropBall random => dropBall random st
  | AdjustBet delta => adjustBet delta st
  | SetBet amount => setBet amount st
  | EditBet parsed => withBetInput parsed st
  | SetDropBtnDisabled b => withDropBtnDisabled b st
  | Moved ball x => moveBall ball x st
  | CollisionStart pairs => onCollisionStart pairs st
  | TimerFired k => fireTimer k st
  | StorageBecomes m => withChips (ChipManager.storageBecomes m (chips st)) st
  end.

Definition run (evs : list Event) (st : State) : State :=
  fold_left step evs st.

(** States the page can be in. *)
Inductive reachable : State -> Prop :=
| reachable_init m item bet :
    (forall v, item = Some v -> (0 <= v)%Z) ->
    reachable (initGame m item bet)
| reachable_step st ev :
    reachable st -> reachable (step st ev).

(** How many landings the log records for [ball]. *)
Definition isSettled (ball : nat) (e : LogEntry) : bool :=
  match e with
  | Settled b _ _ _ _ => (b =? ball)%nat
  | Alerted _ => false
  end.

Definition settledCount (ball : nat) (l : list LogEntry) : nat :=
  length (List.filter (isSettled ball) l).

(** The terminal sensor reports [ball], in either order of the pair. *)
Definition sensorHit (ball : nat) : Event :=
  CollisionStart [(BottomSensor, BallBody ball)].


(** A page opened with 10000 chips in storage and 100 in the bet field, and
    five balls dropped one after the other, each re-enabling timeout firing
    before the next drop. *)
Definition freshPage : State :=
  initGame ChipManager.Available (Some 10000%Z) (Some 100%Z).

Definition dropAndWait : list Event := [DropBall 0.5; TimerFired 0].

Definition fiveDrops : list Event :=
  dropAndWait ++ dropAndWait ++ dropAndWait ++ dropAndWait ++ dropAndWait.

(** *** Invariants of the reachable states *)

Local Close Scope Q_scope.

(** At most five balls are in flight, and fewer while drops are allowed. *)
Definition capInv (st : State) : Prop :=
  length (balls st) <= 5 /\ (isDropping st = false -> length (balls st) < 5).

(** Once the flag is up and no re-enabling timeout is pending, only the
    emptying of [balls] takes the flag down again. *)
Definition stuck (st : State) : Prop :=
  isDropping st = true /\ ReenableDrop ∉ timers st.

(** Every ball carries a bet of at least 10. *)
Definition betsInv (st : State) : Prop :=
  Forall (fun b => (10 <= betAmount b)%Z) (heap st).

(** The log has one landing for a ball whose flag is set and none for any
    other. *)
Definition settledInv (st : State) : Prop :=
  forall ball,
    settledCount ball (log st)
    = match heap st !! ball with
      | Some b => if landed b then 1 else 0
      | None => 0
      end.

(** The flag of [ball] is set. *)
Definition landedAt (ball : nat) (st : State) : Prop :=
  exists b, heap st !! ball = Some b /\ landed b = true.

(** A board that does partition [[0, 20)], for comparison. *)
Definition twoBuckets : list Bucket :=
  [mkBucket 0 10 5; mkBucket 10 20 15].

(** A board of thirteen buckets of width 10 that partitions [[0, 130)],
    one bucket for each multiplier, and a page showing it on which a ball
    carrying [bet] is in flight at [x], with [balance] chips in the
    ledger. *)
Definition thirteenBuckets : list Bucket :=
  map (fun i => mkBucket (JS.num i * 10) (JS.num i * 10 + 10)
                         (JS.num i * 10 + 5))
      (seq 0 13).

Definition pageWithBall (balance bet : Z) (x : Q) : State :=
  {| chips := ChipManager.init ChipManager.Available (Some balance);
     heap := [mkBall bet false x];
     balls := [0%nat];
     isDropping := false;
     bucketPositions := thirteenBuckets;
     world := pegBodies CONFIG ++ wallBodies CONFIG ++ [BallBody 0];
     timers := [];
     betInput := Some bet;
     dropBtnDisabled := false;
     log := [] |}.

End Plinko.

(** ** The machine's binary64

    The bucket bounds of [createPegs] once more, on the shipped constants
    and in hardware binary64, to check the exact layout against it; and the
    hardware operations next to [JS.add], [JS.sub], [JS.mul] and [JS.div]. *)

Module Binary64.

Local Open Scope float_scope.

Definition num64 (n : nat) : float :=
  PrimFloat.of_uint63 (Uint63.of_Z (Z.of_nat n)).

Definition pegGap64 : float := 35.
Definition canvasWidth64 : float := 500.
Definition finalRowPegs64 : nat := (12 + 3)%nat.
Definition finalRowWidth64 : float := (num64 finalRowPegs64 - 1) * pegGap64.
Definition finalStartX64 : float := canvasWidth64 / 2 - finalRowWidth64 / 2.

Definition leftBound64 (i : nat) : float :=
  if (i =? 0)%nat then 0
  else finalStartX64 + (num64 i - 1) * pegGap64 + pegGap64 / 2.

Definition rightBound64 (i : nat) : float :=
  if (i =? finalRowPegs64)%nat then canvasWidth64
  else finalStartX64 + num64 i * pegGap64 - pegGap64 / 2.

(** A fraction with small numerator and denominator, as a float. *)
Definition ofQ (q : Q) : float :=
  PrimFloat.of_uint63 (Uint63.of_Z (Z.abs (Qnum q)))
  / PrimFloat.of_uint63 (Uint63.of_Z (Z.pos (Qden q)))
  * (if (Qnum q <? 0)%Z then -1 else 1).

(** Both bounds of bucket [i] agree with the exact ones. *)
Definition agreesAt (i : nat) : bool :=
  (leftBound64 i =? ofQ (Plinko.left (Plinko.bucketAt Plinko.CONFIG i)))
  && (rightBound64 i =? ofQ (Plinko.right (Plinko.bucketAt Plinko.CONFIG i))).

(** [0.3], the float the literal denotes. *)
Definition threeTenths : float := 0x1.3333333333333p-2.

(** The rational a finite binary64 number stands for. *)
Definition toQ (f : float) : Q :=
  match Prim2SF f with
  | S754_finite s m e =>
      Qred ((if s then - inject_Z (Z.pos m) else inject_Z (Z.pos m))
            * JS.pow2 e)
  | _ => 0%Q
  end.

(** The four operations on [x] and [y], by the machine and by [JS]. *)
Definition sameArithmetic (xy : float * float) : bool :=
  let (x, y) := xy in
  Qeq_bool (toQ (x + y)) (JS.add (toQ x) (toQ y))
  && Qeq_bool (toQ (x - y)) (JS.sub (toQ x) (toQ y))
  && Qeq_bool (toQ (x * y)) (JS.mul (toQ x) (toQ y))
  && Qeq_bool (toQ (x / y)) (JS.div (toQ x) (toQ y)).

(** Balances, amounts, wagers and multipliers around the places where
    binary64 rounds: just below an integer, at [2^53], at [10^21], in the
    subnormal range and next to the largest number. *)
Definition samples : list (float * float) :=
  [ (500, 0x1.fffffffffffffp-1); (500, 0x1p-70); (9007199254740992, 1);
    (9007199254740991, 3); (1801439850948199, 10);
    (100, 0x1.3333333333333p-2); (15, 0x1.3333333333333p-2);
    (5, 0x1.3333333333333p+0);
    (0x1.999999999999ap-4, 0x1.999999999999ap-3);
    (0x1.b1ae4d6e2ef5p+69, 1); (0x1p-1074, 0x1.8p+0);
    (0x1.8p-1073, 0x1p-1); (0x1.fffffffffffffp+1022, 0x1.8p+0);
    (-500, 0x1.fffffffffffffp-1); (-0x1.fffffffffffffp-1, 500);
    (0x1.fffffffffffffp-1, 0x1p-1); (250, 30); (7, 3);
    (1, 0x1.fffffffffffffp+52) ].

(** The literals [0.3], [1.2], [1.5], [0.9999999999999999] and [0.1]: the
    float the machine reads and the rounding of the decimal. *)
Definition literalsAgree : bool :=
  Qeq_bool (toQ threeTenths) (JS.fl (3 # 10))
  && Qeq_bool (toQ 0x1.3333333333333p+0) (JS.fl (12 # 10))
  && Qeq_bool (toQ 0x1.8p+0) (JS.fl (15 # 10))
  && Qeq_bool (toQ 0x1.fffffffffffffp-1)
              (JS.fl (9999999999999999 # 10000000000000000))
  && Qeq_bool (toQ 0x1.999999999999ap-4) (JS.fl (1 # 10)).

End Binary64.

(** ** chip-manager.js, the variant without the memory fallback

    The second version of the module in the file: the same six operations
    straight on [localStorage], with no [try]/[catch], so a storage call
    that throws ends the operation. *)

Module ChipManagerPlain.

Import ChipManager.

Record PlainState := mkPlain {
  plainItem : option Z;
  plainStorage : StorageMode;
  plainDispatched : list Z
}.

(** An operation returns a value and the new state, or throws in the state
    it has reached. *)
Inductive Outcome (A : Type) :=
| Returns (a : A) (s : PlainState)
| Throws (s : PlainState).

Arguments Returns {A} a s.
Arguments Throws {A} s.

Definition P (A : Type) : Type := PlainState -> Outcome A.

Definition pret {A} (a : A) : P A := fun s => Returns a s.

Definition pbind {A B} (m : P A) (k : A -> P B) : P B :=
  fun s => match m s with
           | Returns a s' => k a s'
           | Throws s' => Throws s'
           end.

Declare Scope plain_scope.
Delimit Scope plain_scope with plain.
Notation "'let*' x := m 'in' k" := (pbind m (fun x => k))
  (at level 10, x name, m at level 100, k at level 200) : plain_scope.
Notation "m >> k" := (pbind m (fun _ => k))
  (at level 100, k at level 200, right associativity) : plain_scope.
Local Open Scope plain_scope.

Definition plainGetItem : P (option Z) :=
  fun s => if getItemThrows (plainStorage s) then Throws s
           else Returns (plainItem s) s.

Definition plainSetItem (v : Z) : P unit :=
  fun s => if setItemThrows (plainStorage s) then Throws s
           else Returns tt (mkPlain (Some v) (plainStorage s)
                                    (plainDispatched s)).

Definition plainDispatch (newBalance : Z) : P unit :=
  fun s => Returns tt (mkPlain (plainItem s) (plainStorage s)
                               (newBalance :: plainDispatched s)).

Definition plainSetBalance (amount : Q) : P Z :=
  let value := Z.max 0 (Qfloor amount) in
  plainSetItem value >> plainDispatch value >> pret value.

Definition plainGetBalance : P Z :=
  let* stored := plainGetItem in
  match stored with
  | None => plainSetBalance (inject_Z INITIAL_BALANCE) >> pret INITIAL_BALANCE
  | Some v => pret (JS.parseIntOfToString v)
  end.

Definition plainDeduct (amount : Q) : P bool :=
  let* current := plainGetBalance in
  if JS.ltb (inject_Z current) amount then pret false
  else plainSetBalance (JS.sub (inject_Z current) amount) >> pret true.

Definition plainAward (amount : Q) : P Z :=
  let* current := plainGetBalance in
  plainSetBalance (JS.add (inject_Z current) amount).

Definition plainReset : P Z := plainSetBalance (inject_Z INITIAL_BALANCE).

Definition plainCanAfford (amount : Q) : P bool :=
  let* current := plainGetBalance in
  pret (JS.geb (inject_Z current) amount).

(** What the variant sees of a state of the fallback version. *)
Definition plainOf (s : State) : PlainState :=
  mkPlain (storedItem s) (storage s) (dispatched s).

(** The fallback version's answer, as the variant would give it. *)
Definition asOutcome {A} (r : A * State) : Outcome A :=
  Returns (fst r) (plainOf (snd r)).

End ChipManagerPlain.

(** ** plinko.js: what the player is shown *)

Module PlinkoUI.

Import Plinko.

(** The class [updateResult] gives the amount: ['result-amount win'],
    ['result-amount lose'] or plain ['result-amount']. *)
Inductive ResultClass := ResultWin | ResultLose | ResultNeutral.

(** What [updateResult] writes: the profit it formats, whether it puts a
    ["+"] in front, the class, and whether the celebration is started. *)
Record ResultView := mkResultView {
  shownProfit : Z;
  plusSign : bool;
  resultClass : ResultClass;
  celebrate : bool
}.

(** [profit] is [winAmount - betAmount], an integer also after rounding
    (lemma [fl_Z_integral]); [Qfloor] reads it as one. *)
Definition updateResult (multiplier : Q) (winAmount betAmount : Z)
  : ResultView :=
  let profit := Qfloor (JS.sub (inject_Z winAmount) (inject_Z betAmount)) in
  let celebrates := JS.geb multiplier 3 in
  if (0 <? profit)%Z then mkResultView profit true ResultWin celebrates
  else if (profit <? 0)%Z then mkResultView profit false ResultLose celebrates
  else mkResultView 0 false ResultNeutral celebrates.

(** [highlightBucket(index)] over the displayed buckets: which of them get
    the classes ['active'] and ['highlight']. *)
Definition highlightBucket {A} (index : Z) (buckets : list A) : list bool :=
  imap (fun i _ => (Z.of_nat i =? index)%Z) buckets.

(** [createMultiplierDisplay]: one displayed bucket for each multiplier,
    with its [dataset.index]. *)
Definition createMultiplierDisplay : list (Q * nat) :=
  imap (fun index mult => (mult, index)) (multipliers CONFIG).

End PlinkoUI.

(** ** plinko.js: bookkeeping of a run *)

Module PlinkoBooks.

Import Plinko.

(** All bets placed so far: the wagers of the balls ever created. *)
Definition wagered (st : State) : Z :=
  fold_right (fun b acc => (betAmount b + acc)%Z) 0%Z (heap st).

Definition paidBy (e : LogEntry) : Z :=
  match e with
  | Settled _ _ _ winAmount _ => winAmount
  | Alerted _ => 0%Z
  end.

(** All winnings awarded so far. *)
Definition paid (st : State) : Z :=
  fold_right (fun e acc => (paidBy e + acc)%Z) 0%Z (log st).

(** What the player holds once every bet is counted back and every win
    taken out. *)
Definition netWorth (st : State) : Z :=
  (ChipManager.balance (chips st) + wagered st - paid st)%Z.

Definition isStorageChange (ev : Event) : bool :=
  match ev with
  | StorageBecomes _ => true
  | _ => false
  end.

Definition isButtonChange (ev : Event) : bool :=
  match ev with
  | SetDropBtnDisabled _ => true
  | _ => false
  end.


(** The bodies [initGame] puts into the world. *)
Definition staticBodies : list Body :=
  pegBodies CONFIG ++ wallBodies CONFIG.

(** The in-flight list and the world tell the same story, and every ball in
    flight is a ball object. *)
Definition booksInv (st : State) : Prop :=
  NoDup (balls st) /\
  world st = staticBodies ++ map BallBody (balls st) /\
  Forall (fun ball => ball < length (heap st)) (balls st).

Definition isRemoval (ball : nat) (t : Timer) : bool :=
  match t with
  | RemoveBall b => (b =? ball)%nat
  | ReenableDrop => false
  end.

(** How many removals of [ball] are pending. *)
Definition pendingRemovals (ball : nat) (ts : list Timer) : nat :=
  length (List.filter (isRemoval ball) ts).

(** A ball in flight that has landed has its removal pending, and a ball
    has no more removals pending than landings logged. *)
Definition removalInv (st : State) : Prop :=
  (forall ball b, ball ∈ balls st -> heap st !! ball = Some b ->
                  landed b = true -> RemoveBall ball ∈ timers st) /\
  (forall ball, pendingRemovals ball (timers st)
                <= settledCount ball (log st)).






End PlinkoBooks.

(** ** The Discord SDK wrapper

    The module with [init], [getSDK], [ready], [inDiscord], [subscribe] and
    [log].  The page's location, the [DiscordSDK] class the CDN script may
    or may not have defined, and what its constructor and its [ready()]
    promise do are the environment. *)

Module DiscordSDKWrapper.

Import String.
Local Open Scope string_scope.

(** [window.location]: the names of the query parameters and the host
    name. *)
Record Location := mkLocation {
  searchParams : list string;
  hostname : string
}.

(** [hay.includes(needle)] *)
Definition includes (needle hay : string) : bool :=
  match index 0 needle hay with
  | Some _ => true
  | None => false
  end.

Definition has (name : string) (params : list string) : bool :=
  existsb (String.eqb name) params.

Definition detectDiscordEnvironment (loc : Location) : bool :=
  has "frame_id" (searchParams loc)
  || has "instance_id" (searchParams loc)
  || includes "discordsays.com" (hostname loc).

(** How the promise of [sdk.ready()] ends. *)
Inductive ReadyOutcome := Resolves | Rejects | NeverSettles.

(** The global [DiscordSDK] class. *)
Record SdkClass := mkSdkClass {
  constructorThrows : bool;
  readyOutcome : ReadyOutcome;
  channelId : string;
  guildId : string;
  instanceId : string
}.

(** [DiscordSDK] is [None] when [typeof DiscordSDK === 'undefined']. *)
Record Env := mkEnv {
  location : Location;
  DiscordSDK : option SdkClass
}.

(** An instance, [new DiscordSDK(clientId)]. *)
Record Sdk := mkSdk {
  sdkClientId : string;
  sdkClass : SdkClass
}.

(** The closure variables [sdk], [isReady], [isInDiscord]. *)
Record State := mkWrapper {
  sdk : option Sdk;
  isReady : bool;
  isInDiscord : bool
}.

Definition initial : State := mkWrapper None false false.

(** What [init] resolves to: [{ inDiscord: false, user: null }], with an
    [error] field when it comes from the [catch], or
    [{ inDiscord: true, channelId, guildId, instanceId }]. *)
Inductive InitResult :=
| BrowserMode (error : bool)
| DiscordMode (channel guild instance : string).

(** [init(clientId)]: the state it leaves and the value its promise
    resolves to, [None] while the promise of [sdk.ready()] does not
    settle. *)
Definition init (env : Env) (clientId : string) (st : State)
  : State * option InitResult :=
  let detected := detectDiscordEnvironment (location env) in
  if negb detected
  then (mkWrapper (sdk st) true detected, Some (BrowserMode false))
  else
    match DiscordSDK env with
    | None => (mkWrapper (sdk st) true detected, Some (BrowserMode false))
    | Some cls =>
        if constructorThrows cls
        then (mkWrapper (sdk st) true detected, Some (BrowserMode true))
        else
          let instance := Some (mkSdk clientId cls) in
          match readyOutcome cls with
          | Resolves =>
              (mkWrapper instance true detected,
               Some (DiscordMode (channelId cls) (guildId cls)
                                 (instanceId cls)))
          | Rejects =>
              (mkWrapper instance true detected, Some (BrowserMode true))
          | NeverSettles =>
              (mkWrapper instance (isReady st) detected, None)
          end
    end.

Definition getSDK (st : State) : option Sdk := sdk st.
Definition ready (st : State) : bool := isReady st.
Definition inDiscord (st : State) : bool := isInDiscord st.

(** [subscribe]: a warning and nothing else without an instance, the call
    handed on to the instance otherwise. *)
Inductive Subscription := NotInDiscordWarning | HandedTo (instance : Sdk).

Definition subscribe (st : State) : Subscription :=
  match sdk st with
  | None => NotInDiscordWarning
  | Some instance => HandedTo instance
  end.

(** The line [log(message)] prints. *)
Definition log (message : string) (st : State) : string :=
  (if isInDiscord st then "[Discord]" else "[Browser]") ++ " " ++ message.

Definition isDiscordMode (r : InitResult) : bool :=
  match r with
  | DiscordMode _ _ _ => true
  | BrowserMode _ => false
  end.

End DiscordSDKWrapper.

(** * Properties *)

(** ** Numbers *)

Module JSFacts.

Local Open Scope Q_scope.

Lemma ltb_lt a b : JS.ltb a b = true <-> a < b.
Proof.
  unfold JS.ltb. rewrite negb_true_iff, <- not_true_iff_false, Qle_bool_iff.
  split; [apply Qnot_le_lt | apply Qlt_not_le].
Qed.

Lemma ltb_ge a b : JS.ltb a b = false <-> b <= a.
Proof.
  unfold JS.ltb. rewrite negb_false_iff. apply Qle_bool_iff.
Qed.

Lemma geb_ge a b : JS.geb a b = true <-> b <= a.
Proof. apply Qle_bool_iff. Qed.

Lemma geb_lt a b : JS.geb a b = false <-> a < b.
Proof.
  unfold JS.geb. rewrite <- not_true_iff_false, Qle_bool_iff.
  split; [apply Qnot_le_lt | apply Qlt_not_le].
Qed.

Lemma geb_negb_ltb a b : JS.geb a b = negb (JS.ltb a b).
Proof. unfold JS.geb, JS.ltb. now rewrite negb_involutive. Qed.

(** The floor is the only integer within one below. *)
Lemma Qfloor_unique (x : Q) (z : Z) :
  inject_Z z <= x -> x < inject_Z (z + 1) -> Qfloor x = z.
Proof.
  intros Hlo Hhi.
  pose proof (Qfloor_le x) as Hfl. pose proof (Qlt_floor x) as Hfu.
  assert (inject_Z z < inject_Z (Qfloor x + 1)) as H1
    by (eapply Qle_lt_trans; eassumption).
  assert (inject_Z (Qfloor x) < inject_Z (z + 1)) as H2
    by (eapply Qle_lt_trans; eassumption).
  rewrite <- Zlt_Qlt in H1, H2. lia.
Qed.

Lemma Qfloor_add_Z (c : Z) (q : Q) :
  Qfloor (inject_Z c + q) = (c + Qfloor q)%Z.
Proof.
  apply Qfloor_unique.
  - rewrite inject_Z_plus. pose proof (Qfloor_le q). lra.
  - replace (c + Qfloor q + 1)%Z with (c + (Qfloor q + 1))%Z by lia.
    rewrite inject_Z_plus. pose proof (Qlt_floor q). lra.
Qed.

Lemma Qfloor_sub_Z (a b : Z) :
  Qfloor (inject_Z a - inject_Z b) = (a - b)%Z.
Proof.
  rewrite <- (Qfloor_Z (a - b)). apply Qfloor_comp.
  unfold Zminus. rewrite inject_Z_plus, inject_Z_opp. reflexivity.
Qed.

Lemma Qfloor_nonneg (q : Q) : 0 <= q -> (0 <= Qfloor q)%Z.
Proof.
  intros H. change 0%Z with (Qfloor 0). now apply Qfloor_resp_le.
Qed.

Import JS.

(** *** Powers of two *)

Lemma two_neq_0 : ~ 2 == 0.
Proof. intros H. discriminate H. Qed.

Lemma pow2_pos (e : Z) : 0 < pow2 e.
Proof. apply Qpower_0_lt. reflexivity. Qed.

Lemma pow2_add (a b : Z) : pow2 (a + b) == pow2 a * pow2 b.
Proof. apply Qpower_plus, two_neq_0. Qed.

Lemma pow2_le (a b : Z) : (a <= b)%Z -> pow2 a <= pow2 b.
Proof. intros H. apply Qpower_le_compat_l; [exact H | discriminate]. Qed.

Lemma pow2_lt (a b : Z) : (a < b)%Z -> pow2 a < pow2 b.
Proof. intros H. apply Qpower_lt_compat_l; [exact H | reflexivity]. Qed.

Lemma pow2_lt_inv (a b : Z) : pow2 a < pow2 b -> (a < b)%Z.
Proof. intros H. eapply Qpower_lt_compat_l_inv; [exact H | reflexivity]. Qed.

Lemma pow2_Z (e : Z) : (0 <= e)%Z -> pow2 e == inject_Z (2 ^ e).
Proof. intros H. symmetry. now apply Zpower_Qpower. Qed.

Lemma pow2_sub (a b : Z) : pow2 (a - b) == pow2 a / pow2 b.
Proof.
  unfold Z.sub. rewrite pow2_add. unfold pow2 at 2. rewrite Qpower_opp.
  reflexivity.
Qed.

(** *** The binade of a positive number *)

Lemma ilog2_spec (x : Q) :
  0 < x -> pow2 (ilog2 x) <= x /\ x < pow2 (ilog2 x + 1).
Proof.
  intros Hx. destruct x as [n d]. unfold ilog2. cbn [Qnum Qden].
  assert (0 < n)%Z as Hn by (unfold Qlt in Hx; simpl in Hx; lia).
  set (a := Z.log2 n). set (b := Z.log2 (Z.pos d)).
  destruct (Z.log2_spec n Hn) as [Hna Hnb]. fold a in Hna, Hnb.
  destruct (Z.log2_spec (Z.pos d) eq_refl) as [Hda Hdb]. fold b in Hda, Hdb.
  assert (0 <= a)%Z as Ha by apply Z.log2_nonneg.
  assert (0 <= b)%Z as Hb by apply Z.log2_nonneg.
  assert (n # d == inject_Z n / inject_Z (Z.pos d)) as Hx' 
    by apply Qmake_Qdiv.
  assert (0 < inject_Z (Z.pos d)) as Hd by reflexivity.
  assert (pow2 a <= inject_Z n) as Hna'
    by (rewrite pow2_Z by exact Ha; now rewrite <- Zle_Qle).
  assert (inject_Z n < pow2 (a + 1)) as Hnb'
    by (rewrite pow2_Z by lia; now rewrite <- Zlt_Qlt).
  assert (pow2 b <= inject_Z (Z.pos d)) as Hda'
    by (rewrite pow2_Z by exact Hb; now rewrite <- Zle_Qle).
  assert (inject_Z (Z.pos d) < pow2 (b + 1)) as Hdb'
    by (rewrite pow2_Z by lia; now rewrite <- Zlt_Qlt).
  destruct (Qle_bool (pow2 (a - b)) (n # d)) eqn:Hcmp.
  - apply Qle_bool_iff in Hcmp. split; [exact Hcmp |].
    rewrite Hx'. apply Qlt_shift_div_r; [exact Hd |].
    replace (a - b + 1)%Z with ((a + 1) - b)%Z by lia.
    apply Qlt_le_trans with (pow2 (a + 1)); [exact Hnb' |].
    rewrite pow2_sub.
    assert (pow2 (a + 1) == pow2 (a + 1) / pow2 b * pow2 b) as ->
      by (field; apply Qnot_eq_sym, Qlt_not_eq, pow2_pos).
    assert (pow2 (a + 1) / pow2 b * pow2 b / pow2 b * inject_Z (Z.pos d)
            == pow2 (a + 1) / pow2 b * inject_Z (Z.pos d)) as ->
      by (field; apply Qnot_eq_sym, Qlt_not_eq, pow2_pos).
    apply Qmult_le_l; [| exact Hda'].
    apply Qlt_shift_div_l; [apply pow2_pos |].
    rewrite Qmult_0_l. apply pow2_pos.
  - assert (n # d < pow2 (a - b)) as Hlt.
    { apply Qnot_le_lt. intros H. apply Qle_bool_iff in H. congruence. }
    split.
    + rewrite Hx'. apply Qle_shift_div_l; [exact Hd |].
      apply Qle_trans with (pow2 a); [| exact Hna'].
      replace (a - b - 1)%Z with (a - (b + 1))%Z by lia.
      rewrite pow2_sub.
      assert (pow2 a == pow2 a / pow2 (b + 1) * pow2 (b + 1)) as Heq
        by (field; apply Qnot_eq_sym, Qlt_not_eq, pow2_pos).
      rewrite Heq at 2.
      apply Qmult_le_l; [| apply Qlt_le_weak, Hdb'].
      apply Qlt_shift_div_l; [apply pow2_pos |].
      rewrite Qmult_0_l. apply pow2_pos.
    + replace (a - b - 1 + 1)%Z with (a - b)%Z by lia. exact Hlt.
Qed.

Lemma ilog2_unique (x : Q) (e : Z) :
  pow2 e <= x -> x < pow2 (e + 1) -> ilog2 x = e.
Proof.
  intros Hlo Hhi.
  assert (0 < x) as Hx by (eapply Qlt_le_trans; [apply pow2_pos | exact Hlo]).
  destruct (ilog2_spec x Hx) as [Hlo' Hhi'].
  assert (ilog2 x < e + 1)%Z
    by (apply pow2_lt_inv; eapply Qle_lt_trans; eassumption).
  assert (e < ilog2 x + 1)%Z
    by (apply pow2_lt_inv; eapply Qle_lt_trans; eassumption).
  lia.
Qed.

Lemma ilog2_comp (x y : Q) : 0 < x -> x == y -> ilog2 x = ilog2 y.
Proof.
  intros Hx Heq. symmetry. destruct (ilog2_spec x Hx) as [Hlo Hhi].
  apply ilog2_unique; rewrite <- Heq; assumption.
Qed.

Lemma ilog2_mono (x y : Q) : 0 < x -> x <= y -> (ilog2 x <= ilog2 y)%Z.
Proof.
  intros Hx Hle.
  assert (0 < y) as Hy by (eapply Qlt_le_trans; eassumption).
  destruct (ilog2_spec x Hx) as [Hlo _].
  destruct (ilog2_spec y Hy) as [_ Hhi].
  assert (ilog2 x < ilog2 y + 1)%Z; [| lia].
  apply pow2_lt_inv. eapply Qle_lt_trans; [exact Hlo |].
  eapply Qle_lt_trans; eassumption.
Qed.

(** *** Rounding to the nearest integer, ties to even *)

Lemma rne_comp (q q' : Q) : q == q' -> rne q = rne q'.
Proof.
  intros H. unfold rne. rewrite (Qfloor_comp _ _ H).
  assert (q - inject_Z (Qfloor q') == q' - inject_Z (Qfloor q')) as ->
    by (rewrite H; reflexivity).
  reflexivity.
Qed.

Lemma rne_cases (q : Q) :
  (q - inject_Z (Qfloor q) < 1 # 2 /\ rne q = Qfloor q) \/
  (1 # 2 < q - inject_Z (Qfloor q) /\ rne q = (Qfloor q + 1)%Z) \/
  (q - inject_Z (Qfloor q) == 1 # 2 /\
   (rne q = Qfloor q \/ rne q = (Qfloor q + 1)%Z)).
Proof.
  unfold rne.
  destruct (Qcompare_spec (q - inject_Z (Qfloor q)) (1 # 2)) as [H | H | H].
  - right. right. split; [exact H |].
    destruct (Z.even (Qfloor q)); auto.
  - left. auto.
  - right. left. auto.
Qed.

Lemma rne_Z (z : Z) : rne (inject_Z z) = z.
Proof.
  destruct (rne_cases (inject_Z z)) as [[_ H] | [[H _] | [H _]]];
    rewrite Qfloor_Z in *.
  - exact H.
  - exfalso. assert (inject_Z z - inject_Z z == 0) as E by ring.
    rewrite E in H. discriminate H.
  - exfalso. assert (inject_Z z - inject_Z z == 0) as E by ring.
    rewrite E in H. discriminate H.
Qed.

Lemma rne_mono (q q' : Q) : q <= q' -> (rne q <= rne q')%Z.
Proof.
  intros Hle. pose proof (Qfloor_resp_le q q' Hle) as Hf.
  pose proof (Qfloor_le q) as H1. pose proof (Qlt_floor q) as H2.
  pose proof (Qfloor_le q') as H3. pose proof (Qlt_floor q') as H4.
  rewrite inject_Z_plus in H2, H4. change (inject_Z 1) with 1 in H2, H4.
  destruct (Z.eq_dec (Qfloor q) (Qfloor q')) as [Heq | Hne].
  - unfold rne. rewrite <- Heq.
    destruct (Qcompare_spec (q - inject_Z (Qfloor q)) (1 # 2)) as [H | H | H];
      destruct (Qcompare_spec (q' - inject_Z (Qfloor q)) (1 # 2))
        as [H' | H' | H'];
      try lia; try (destruct (Z.even (Qfloor q)); lia); exfalso; lra.
  - assert (Qfloor q + 1 <= Qfloor q')%Z by lia.
    destruct (rne_cases q) as [[_ ->] | [[_ ->] | [_ [-> | ->]]]];
      destruct (rne_cases q') as [[_ ->] | [[_ ->] | [_ [-> | ->]]]]; lia.
Qed.

Lemma rne_near (q : Q) :
  q - (1 # 2) <= inject_Z (rne q) /\ inject_Z (rne q) <= q + (1 # 2).
Proof.
  pose proof (Qfloor_le q) as H1. pose proof (Qlt_floor q) as H2.
  rewrite inject_Z_plus in H2. change (inject_Z 1) with 1 in H2.
  destruct (rne_cases q) as [[H ->] | [[H ->] | [H [-> | ->]]]];
    rewrite ?inject_Z_plus; change (inject_Z 1) with 1; lra.
Qed.

Lemma inject_Z_pred (k : Z) : inject_Z (k - 1) == inject_Z k - 1.
Proof.
  unfold Z.sub. rewrite inject_Z_plus, inject_Z_opp. reflexivity.
Qed.

Lemma inject_Z_succ (k : Z) : inject_Z (k + 1) == inject_Z k + 1.
Proof. rewrite inject_Z_plus. reflexivity. Qed.

(** A number less than a half below an integer rounds to that integer. *)
Lemma rne_below (k : Z) (d : Q) :
  0 <= d -> d < 1 # 2 -> rne (inject_Z k - d) = k.
Proof.
  intros Hlo Hhi.
  destruct (Qeq_dec d 0) as [Hz | Hnz].
  - rewrite <- (rne_Z k) at 2. apply rne_comp. rewrite Hz. ring.
  - assert (0 < d) as Hpos
      by (destruct (Qle_lt_or_eq _ _ Hlo) as [H | H];
          [exact H | exfalso; apply Hnz; now symmetry]).
    assert (Qfloor (inject_Z k - d) = (k - 1)%Z) as Hfl.
    { apply Qfloor_unique.
      - rewrite inject_Z_pred. lra.
      - replace (k - 1 + 1)%Z with k by lia. lra. }
    pose proof (inject_Z_pred k) as Hk.
    destruct (rne_cases (inject_Z k - d)) as [[H _] | [[_ ->] | [H _]]];
      rewrite Hfl in *; try lia; exfalso; lra.
Qed.

(** *** Rounding to a multiple of a power of two *)

Lemma roundTo_mono (u : Z) (x y : Q) :
  x <= y -> roundTo u x <= roundTo u y.
Proof.
  intros H. unfold roundTo. pose proof (pow2_pos u) as Hp.
  apply Qmult_le_compat_r; [| lra].
  rewrite <- Zle_Qle. apply rne_mono.
  apply Qmult_le_compat_r; [exact H |].
  apply Qlt_le_weak, Qinv_lt_0_compat, Hp.
Qed.

Lemma roundTo_grid (u k : Z) (x : Q) :
  x == inject_Z k * pow2 u -> roundTo u x == x.
Proof.
  intros H. unfold roundTo. pose proof (pow2_pos u) as Hp.
  assert (x / pow2 u == inject_Z k) as Hk
    by (rewrite H; field; lra).
  rewrite (rne_comp _ _ Hk), rne_Z. now symmetry.
Qed.

Lemma roundTo_comp (u : Z) (x y : Q) : x == y -> roundTo u x == roundTo u y.
Proof.
  intros H. unfold roundTo.
  assert (rne (x / pow2 u) = rne (y / pow2 u)) as ->
    by (apply rne_comp; now rewrite H).
  reflexivity.
Qed.

Lemma roundTo_nonneg (u : Z) (x : Q) : 0 <= x -> 0 <= roundTo u x.
Proof.
  intros H. rewrite <- (roundTo_grid u 0 0) by ring.
  now apply roundTo_mono.
Qed.

(** *** Rounding a positive number to binary64 *)

Lemma quantum_comp (x y : Q) : 0 < x -> x == y -> quantum x = quantum y.
Proof. intros Hx H. unfold quantum. now rewrite (ilog2_comp x y Hx H). Qed.

Lemma roundPos_comp (x y : Q) : 0 < x -> x == y -> roundPos x == roundPos y.
Proof.
  intros Hx H. unfold roundPos. rewrite (quantum_comp x y Hx H).
  now apply roundTo_comp.
Qed.

(** A multiple [m * 2^e] with [m] below [2^53] and [e] no less than the
    exponent of the smallest subnormal is a binary64 number. *)
Lemma roundPos_exact (x : Q) (m e : Z) :
  x == inject_Z m * pow2 e ->
  (0 < m < 2 ^ 53)%Z -> (-1074 <= e)%Z -> roundPos x == x.
Proof.
  intros Hx [Hm0 Hm] He. pose proof (pow2_pos e) as Hp.
  assert (0 < inject_Z m) as Hmq
    by (change 0 with (inject_Z 0); now rewrite <- Zlt_Qlt).
  assert (0 < x) as Hpos
    by (rewrite Hx; apply Qmult_lt_0_compat; assumption).
  assert (quantum x <= e)%Z as Hu.
  { unfold quantum. destruct (ilog2_spec x Hpos) as [Hlo _].
    assert (ilog2 x < e + 53)%Z; [| lia].
    apply pow2_lt_inv. eapply Qle_lt_trans; [exact Hlo |].
    rewrite Hx, pow2_add, Qmult_comm.
    apply Qmult_lt_l; [exact Hp |].
    rewrite pow2_Z by lia. now rewrite <- Zlt_Qlt. }
  unfold roundPos. apply (roundTo_grid _ (m * 2 ^ (e - quantum x))).
  eapply Qeq_trans; [exact Hx |].
  rewrite inject_Z_mult, <- pow2_Z by lia.
  rewrite <- Qmult_assoc, <- pow2_add.
  now replace (e - quantum x + quantum x)%Z with e by lia.
Qed.

Lemma roundPos_nonneg (x : Q) : 0 < x -> 0 <= roundPos x.
Proof. intros H. apply roundTo_nonneg. now apply Qlt_le_weak. Qed.

Lemma roundPos_mono (x y : Q) :
  0 < x -> x <= y -> roundPos x <= roundPos y.
Proof.
  intros Hx Hle.
  assert (0 < y) as Hy by (eapply Qlt_le_trans; eassumption).
  pose proof (ilog2_mono x y Hx Hle) as He.
  unfold roundPos.
  destruct (Z.eq_dec (quantum x) (quantum y)) as [Heq | Hne].
  - rewrite Heq. now apply roundTo_mono.
  - assert (quantum x < quantum y)%Z as Hlt by (unfold quantum in *; lia).
    assert (quantum y = ilog2 y - 52)%Z as Hqy by (unfold quantum in *; lia).
    assert (ilog2 x + 1 <= ilog2 y)%Z as Hbin by (unfold quantum in *; lia).
    destruct (ilog2_spec x Hx) as [_ Hxhi].
    destruct (ilog2_spec y Hy) as [Hylo _].
    set (B := pow2 (ilog2 y)).
    assert (x <= B) as HxB.
    { apply Qlt_le_weak. eapply Qlt_le_trans; [exact Hxhi |].
      now apply pow2_le. }
    apply Qle_trans with B.
    + rewrite <- (roundTo_grid (quantum x) (2 ^ (ilog2 y - quantum x)) B).
      * now apply roundTo_mono.
      * unfold B. rewrite <- pow2_Z by lia. rewrite <- pow2_add.
        now replace (ilog2 y - quantum x + quantum x)%Z with (ilog2 y) by lia.
    + rewrite <- (roundTo_grid (quantum y) (2 ^ 52) B).
      * now apply roundTo_mono.
      * unfold B. rewrite <- pow2_Z by lia. rewrite <- pow2_add.
        now replace (52 + quantum y)%Z with (ilog2 y) by lia.
Qed.

(** *** [fl]: rounding to binary64 *)

Lemma fl_pos (x : Q) : 0 < x -> fl x == roundPos x.
Proof.
  intros H. unfold fl.
  destruct (Qcompare_spec x 0) as [E | L | G];
    [exfalso; lra | exfalso; lra | apply Qred_correct].
Qed.

Lemma fl_neg (x : Q) : x < 0 -> fl x == - roundPos (- x).
Proof.
  intros H. unfold fl.
  destruct (Qcompare_spec x 0) as [E | L | G];
    [exfalso; lra | apply Qred_correct | exfalso; lra].
Qed.

Lemma fl_zero (x : Q) : x == 0 -> fl x = 0.
Proof.
  intros H. unfold fl.
  destruct (Qcompare_spec x 0) as [E | L | G];
    [reflexivity | exfalso; lra | exfalso; lra].
Qed.

Ltac by_sign x :=
  let H := fresh "Hsign" in
  destruct (Q_dec x 0) as [[H | H] | H].

Lemma fl_comp (x y : Q) : x == y -> fl x = fl y.
Proof.
  intros H. unfold fl.
  destruct (Qcompare_spec x 0) as [Hz | Hn | Hp];
    destruct (Qcompare_spec y 0) as [Hz' | Hn' | Hp'];
    try reflexivity; try (exfalso; lra).
  - apply Qred_complete.
    assert (0 < - x) as Hx by lra.
    rewrite (roundPos_comp (- x) (- y) Hx); [reflexivity | now rewrite H].
  - apply Qred_complete. now apply roundPos_comp.
Qed.

Lemma fl_opp (x : Q) : fl (- x) == - fl x.
Proof.
  by_sign x.
  - rewrite (fl_neg x Hsign), fl_pos by lra. ring.
  - rewrite (fl_pos x Hsign), fl_neg by lra.
    rewrite (roundPos_comp (- - x) x); [reflexivity | lra | ring].
  - rewrite (fl_zero x Hsign), fl_zero by (rewrite Hsign; reflexivity).
    reflexivity.
Qed.

Lemma fl_nonneg (x : Q) : 0 <= x -> 0 <= fl x.
Proof.
  intros H. by_sign x.
  - lra.
  - rewrite fl_pos by exact Hsign. now apply roundPos_nonneg.
  - rewrite fl_zero by exact Hsign. lra.
Qed.

Lemma fl_nonpos (x : Q) : x <= 0 -> fl x <= 0.
Proof.
  intros H. assert (0 <= fl (- x)) as H' by (apply fl_nonneg; lra).
  rewrite fl_opp in H'. lra.
Qed.

(** Rounding is monotone. *)
Lemma fl_mono (x y : Q) : x <= y -> fl x <= fl y.
Proof.
  intros Hle. by_sign x.
  - by_sign y.
    + rewrite (fl_neg x), (fl_neg y) by assumption.
      assert (roundPos (- y) <= roundPos (- x))
        by (apply roundPos_mono; lra).
      lra.
    + apply Qle_trans with 0; [apply fl_nonpos | apply fl_nonneg]; lra.
    + apply Qle_trans with 0; [apply fl_nonpos | apply fl_nonneg]; lra.
  - assert (0 < y) as Hy by lra.
    rewrite (fl_pos x), (fl_pos y) by assumption.
    now apply roundPos_mono.
  - rewrite (fl_zero x) by exact Hsign. apply fl_nonneg. lra.
Qed.

(** Binary64 numbers are left as they are. *)
Lemma fl_exact (x : Q) (m e : Z) :
  x == inject_Z m * pow2 e ->
  (Z.abs m < 2 ^ 53)%Z -> (-1074 <= e)%Z -> fl x == x.
Proof.
  intros Hx Hm He. pose proof (pow2_pos e) as Hp.
  destruct (Z.lt_trichotomy m 0) as [Hneg | [-> | Hpos]].
  - assert (0 < inject_Z (- m)) as Hmq
      by (change 0 with (inject_Z 0); rewrite <- Zlt_Qlt; lia).
    assert (- x == inject_Z (- m) * pow2 e) as Hx'
      by (rewrite Hx, inject_Z_opp; ring).
    assert (0 < - x) as Hxpos
      by (rewrite Hx'; apply Qmult_lt_0_compat; assumption).
    rewrite fl_neg by lra.
    rewrite (roundPos_exact (- x) (- m) e Hx'); [ring | lia | exact He].
  - rewrite fl_zero; rewrite Hx; ring.
  - assert (0 < inject_Z m) as Hmq
      by (change 0 with (inject_Z 0); now rewrite <- Zlt_Qlt).
    assert (0 < x) as Hxpos
      by (rewrite Hx; apply Qmult_lt_0_compat; assumption).
    rewrite fl_pos by exact Hxpos.
    apply (roundPos_exact x m e Hx); [lia | exact He].
Qed.

(** In particular the integers up to [2^53]. *)
Lemma fl_Z (z : Z) :
  (Z.abs z <= 2 ^ 53)%Z -> fl (inject_Z z) == inject_Z z.
Proof.
  intros Hz. destruct (Z.eq_dec (Z.abs z) (2 ^ 53)%Z) as [Heq | Hne].
  - apply (fl_exact _ (z / 2) 1); [| | lia].
    + assert (z = 2 ^ 53 \/ z = - 2 ^ 53)%Z as [-> | ->] by lia; reflexivity.
    + assert (z = 2 ^ 53 \/ z = - 2 ^ 53)%Z as [-> | ->] by lia;
        vm_compute; reflexivity.
  - apply (fl_exact _ z 0); [| lia | lia].
    change (pow2 0) with 1. ring.
Qed.

Lemma Qfloor_fl_Z (z : Z) :
  (Z.abs z <= 2 ^ 53)%Z -> Qfloor (fl (inject_Z z)) = z.
Proof.
  intros Hz. rewrite (Qfloor_comp _ _ (fl_Z z Hz)). apply Qfloor_Z.
Qed.

(** The rounding of an integer is an integer: from [2^53] on, every
    binary64 number is one. *)
Lemma roundPos_integral (x : Q) :
  pow2 53 <= x -> exists k, roundPos x == inject_Z k.
Proof.
  intros Hx.
  assert (0 < x) as Hpos
    by (eapply Qlt_le_trans; [apply (pow2_pos 53) | exact Hx]).
  assert (53 <= ilog2 x)%Z as Hlog.
  { rewrite <- (ilog2_unique (pow2 53) 53);
      [apply ilog2_mono; [apply pow2_pos | exact Hx]
      | apply Qle_refl | apply pow2_lt; lia]. }
  unfold roundPos, roundTo, quantum.
  set (u := Z.max (ilog2 x - 52) (-1074)).
  assert (0 <= u)%Z as Hu by lia.
  exists (rne (x / pow2 u) * 2 ^ u)%Z.
  apply Qeq_trans with (inject_Z (rne (x / pow2 u)) * inject_Z (2 ^ u)).
  - apply Qmult_comp; [reflexivity | now apply pow2_Z].
  - rewrite inject_Z_mult. apply Qeq_refl.
Qed.

Lemma fl_Z_integral (z : Z) : exists k, fl (inject_Z z) == inject_Z k.
Proof.
  destruct (Z_le_gt_dec (Z.abs z) (2 ^ 53)) as [Hsmall | Hbig].
  - exists z. now apply fl_Z.
  - assert (forall p, (2 ^ 53 < p)%Z -> pow2 53 <= inject_Z p) as Hle.
    { intros p Hp. rewrite (pow2_Z 53) by lia. rewrite <- Zle_Qle. lia. }
    destruct (Z_lt_le_dec z 0) as [Hneg | Hnonneg].
    + assert (inject_Z z < 0) as Hz
        by (change 0 with (inject_Z 0); rewrite <- Zlt_Qlt; lia).
      destruct (roundPos_integral (- inject_Z z)) as [k Hk].
      { rewrite <- inject_Z_opp. apply Hle. lia. }
      exists (- k)%Z.
      apply Qeq_trans with (- roundPos (- inject_Z z)); [now apply fl_neg |].
      rewrite inject_Z_opp. now apply Qopp_comp.
    + assert (0 < inject_Z z) as Hz
        by (change 0 with (inject_Z 0); rewrite <- Zlt_Qlt; lia).
      destruct (roundPos_integral (inject_Z z)) as [k Hk];
        [apply Hle; lia |].
      exists k.
      apply Qeq_trans with (roundPos (inject_Z z)); [now apply fl_pos | exact Hk].
Qed.

(** *** Numbers just below a binary64 integer *)

Lemma fl_near_below (k E : Z) (y : Q) :
  (-1 <= E <= 52)%Z ->
  pow2 E <= y -> y < pow2 (E + 1) -> y <= inject_Z k ->
  (inject_Z k - y) * 2 < pow2 (E - 52) ->
  fl y == inject_Z k.
Proof.
  intros HE Hlo Hhi Hle Hd.
  assert (0 < y) as Hy by (eapply Qlt_le_trans; [apply pow2_pos | exact Hlo]).
  assert (quantum y = E - 52)%Z as Hq
    by (unfold quantum; rewrite (ilog2_unique y E Hlo Hhi); lia).
  rewrite fl_pos by exact Hy. unfold roundPos. rewrite Hq. unfold roundTo.
  pose proof (pow2_pos (E - 52)) as Hp.
  assert (pow2 (E - 52) * pow2 (52 - E) == 1) as Hinv.
  { rewrite <- pow2_add. now replace (E - 52 + (52 - E))%Z with 0%Z by lia. }
  assert (pow2 (52 - E) == inject_Z (2 ^ (52 - E))) as HpZ
    by (apply pow2_Z; lia).
  assert (y / pow2 (E - 52)
          == inject_Z (k * 2 ^ (52 - E))
             - (inject_Z k - y) / pow2 (E - 52)) as Hdiv.
  { assert (/ pow2 (E - 52) == pow2 (52 - E)) as Hip.
    { replace (52 - E)%Z with (- (E - 52))%Z by lia.
      symmetry. apply Qpower_opp. }
    unfold Qdiv. rewrite Hip, inject_Z_mult, <- HpZ. ring. }
  rewrite (rne_comp _ _ Hdiv), rne_below.
  - rewrite inject_Z_mult, <- HpZ, <- Qmult_assoc.
    rewrite (Qmult_comm (pow2 (52 - E))), Hinv. ring.
  - apply Qle_shift_div_l; [exact Hp | lra].
  - apply Qlt_shift_div_r; [exact Hp | lra].
Qed.

(** A number below an integer [k < 2^53] by less than [k / 2^54] (a quarter
    of the relative spacing of binary64) rounds to [k]. *)
Lemma fl_below_integer (k : Z) (y : Q) :
  (0 < k < 2 ^ 53)%Z ->
  y <= inject_Z k ->
  (inject_Z k - y) * inject_Z (2 ^ 54) < inject_Z k ->
  fl y == inject_Z k.
Proof.
  intros [Hk0 Hk] Hle Hd.
  change (inject_Z (2 ^ 54)) with 18014398509481984 in Hd.
  set (E := Z.log2 k).
  destruct (Z.log2_spec k Hk0) as [HlogL HlogU]. fold E in HlogL, HlogU.
  assert (0 <= E)%Z as HE0 by apply Z.log2_nonneg.
  assert (E < 53)%Z as HE by (apply Z.log2_lt_pow2; assumption).
  assert (inject_Z k < 9007199254740992) as HkQ
    by (change 9007199254740992 with (inject_Z (2 ^ 53));
        now rewrite <- Zlt_Qlt).
  assert (pow2 E == inject_Z (2 ^ E)) as HpE by (apply pow2_Z; lia).
  assert (inject_Z (2 ^ E) <= inject_Z k) as HL by now rewrite <- Zle_Qle.
  assert (inject_Z k < 2 * inject_Z (2 ^ E)) as HU.
  { change 2 with (inject_Z 2). rewrite <- inject_Z_mult, <- Zlt_Qlt.
    replace (Z.succ E) with (E + 1)%Z in HlogU by lia.
    rewrite Z.pow_add_r in HlogU by lia. lia. }
  destruct (Qlt_le_dec y (inject_Z k)) as [Hlt | Hge].
  - destruct (Z.eq_dec k (2 ^ E)%Z) as [Heq | Hne].
    + rewrite <- Heq in *.
      apply (fl_near_below k (E - 1)); [lia | | | exact Hle |].
      * rewrite pow2_sub, HpE. change (pow2 1) with 2.
        apply Qle_shift_div_r; [reflexivity | lra].
      * replace (E - 1 + 1)%Z with E by lia. now rewrite HpE.
      * replace (E - 1 - 52)%Z with (E - 53)%Z by lia.
        rewrite pow2_sub, HpE. change (pow2 53) with 9007199254740992.
        apply Qlt_shift_div_l; [reflexivity | lra].
    + assert (2 ^ E + 1 <= k)%Z as Hk1 by lia.
      assert (inject_Z (2 ^ E) + 1 <= inject_Z k) as Hk1Q
        by (rewrite <- inject_Z_succ, <- Zle_Qle; exact Hk1).
      apply (fl_near_below k E); [lia | | | exact Hle |].
      * rewrite HpE. lra.
      * rewrite pow2_add, HpE. change (pow2 1) with 2. lra.
      * rewrite pow2_sub, HpE.
        change (pow2 52) with 4503599627370496.
        apply Qlt_shift_div_l; [reflexivity | lra].
  - assert (y == inject_Z k) as Heq by lra.
    rewrite (fl_comp _ _ Heq). apply fl_Z. lia.
Qed.

(** *** Sums and differences of integers *)

Ltac literals :=
  change (2 ^ 53)%Z with 9007199254740992%Z in *;
  change (2 ^ 52)%Z with 4503599627370496%Z in *;
  change (2 ^ 48)%Z with 281474976710656%Z in *;
  change (10 ^ 21)%Z with 1000000000000000000000%Z in *.

Lemma Qfloor_add_ZZ (a b : Z) :
  (Z.abs (a + b) <= 2 ^ 53)%Z ->
  Qfloor (add (inject_Z a) (inject_Z b)) = (a + b)%Z.
Proof.
  intros H. unfold add.
  rewrite (fl_comp _ (inject_Z (a + b))) by (now rewrite inject_Z_plus).
  now apply Qfloor_fl_Z.
Qed.

Lemma Qfloor_sub_ZZ (a b : Z) :
  (Z.abs (a - b) <= 2 ^ 53)%Z ->
  Qfloor (sub (inject_Z a) (inject_Z b)) = (a - b)%Z.
Proof.
  intros H. unfold sub.
  rewrite (fl_comp _ (inject_Z (a - b)))
    by (unfold Z.sub; rewrite inject_Z_plus, inject_Z_opp; reflexivity).
  now apply Qfloor_fl_Z.
Qed.

(** What lies between two integers stays there when rounded. *)
Lemma fl_between_Z (lo hi : Z) (x : Q) :
  (Z.abs lo <= 2 ^ 53)%Z -> (Z.abs hi <= 2 ^ 53)%Z ->
  inject_Z lo <= x -> x <= inject_Z hi ->
  inject_Z lo <= fl x /\ fl x <= inject_Z hi.
Proof.
  intros Hlo Hhi H1 H2. split.
  - rewrite <- (fl_Z lo Hlo). now apply fl_mono.
  - rewrite <- (fl_Z hi Hhi). now apply fl_mono.
Qed.

Lemma Qfloor_fl_between_Z (lo hi : Z) (x : Q) :
  (Z.abs lo <= 2 ^ 53)%Z -> (Z.abs hi <= 2 ^ 53)%Z ->
  inject_Z lo <= x -> x <= inject_Z hi ->
  (lo <= Qfloor (fl x) <= hi)%Z.
Proof.
  intros Hlo Hhi H1 H2.
  destruct (fl_between_Z lo hi x Hlo Hhi H1 H2) as [A B]. split.
  - rewrite <- (Qfloor_Z lo). now apply Qfloor_resp_le.
  - rewrite <- (Qfloor_Z hi). now apply Qfloor_resp_le.
Qed.

(** A number from an integer [k] up to [k + 15/16] has the floor [k] after
    rounding as before. *)
Lemma Qfloor_fl_fraction (k : Z) (y : Q) :
  (0 <= k)%Z -> (16 * k + 15 < 2 ^ 53)%Z ->
  inject_Z k <= y -> y <= inject_Z k + (15 # 16) ->
  Qfloor (fl y) = k.
Proof.
  intros Hk0 Hk Hlo Hhi.
  assert (fl (inject_Z k) == inject_Z k) as Hk1 by (apply fl_Z; lia).
  assert (fl (inject_Z k + (15 # 16)) == inject_Z k + (15 # 16)) as Hk2.
  { apply (fl_exact _ (16 * k + 15) (-4)); [| lia | lia].
    rewrite inject_Z_plus, inject_Z_mult.
    change (pow2 (-4)) with (1 # 16). ring. }
  apply Qfloor_unique.
  - rewrite <- Hk1. now apply fl_mono.
  - apply Qle_lt_trans with (inject_Z k + (15 # 16)).
    + rewrite <- Hk2. now apply fl_mono.
    + rewrite inject_Z_succ. lra.
Qed.

(** *** The text round trip *)

Lemma parseIntOfToString_small (v : Z) :
  (Z.abs v < 10 ^ 21)%Z -> parseIntOfToString v = v.
Proof.
  intros H. unfold parseIntOfToString.
  destruct (Z.ltb_spec (Z.abs v) (10 ^ 21)); [reflexivity | lia].
Qed.

Lemma leadOf_nonneg (s k : Z) : (0 <= s)%Z -> (0 <= leadOf s k)%Z.
Proof.
  intros H. unfold leadOf. destruct (s =? 10 ^ k)%Z; [lia |].
  apply Z_div_nonneg_nonneg; [exact H | apply Z.pow_nonneg; lia].
Qed.

Lemma candidate_nonneg (v n k d : Z) :
  (0 <= v)%Z -> candidate v n k = Some d -> (0 <= d)%Z.
Proof.
  intros Hv. unfold candidate. cbv zeta.
  assert (0 <= v / 10 ^ (n - k))%Z as Hlo
    by (apply Z_div_nonneg_nonneg; [exact Hv | apply Z.pow_nonneg; lia]).
  destruct (roundTrips _ _ _), (roundTrips _ _ _);
    repeat match goal with
           | |- context [if ?c then _ else _] => destruct c
           end;
    intros [= <-]; apply leadOf_nonneg; lia.
Qed.

Lemma searchLead_nonneg (fuel : nat) (v n k : Z) :
  (0 <= v)%Z -> (0 <= searchLead fuel v n k)%Z.
Proof.
  intros Hv. revert k. induction fuel as [| fuel IH]; intros k; simpl.
  - apply Z_div_nonneg_nonneg; [exact Hv | apply Z.pow_nonneg; lia].
  - destruct (candidate v n k) as [d |] eqn:Hc; [| apply IH].
    eapply candidate_nonneg; eassumption.
Qed.

Lemma parseIntOfToString_nonneg (v : Z) :
  (0 <= v)%Z -> (0 <= parseIntOfToString v)%Z.
Proof.
  intros Hv. unfold parseIntOfToString.
  destruct (Z.abs v <? 10 ^ 21)%Z; [exact Hv |].
  apply Z.mul_nonneg_nonneg; [lia |].
  apply searchLead_nonneg. lia.
Qed.

(** *** The clamp of [adjustBet] absorbs the rounding of the sum *)

Lemma clamp_add (v d : Z) :
  Z.max 10 (Z.min 10000 (Qfloor (add (inject_Z v) (inject_Z d))))
  = Z.max 10 (Z.min 10000 (v + d)).
Proof.
  destruct (Z_le_gt_dec (Z.abs (v + d)) (2 ^ 53)) as [Hin | Hout].
  - now rewrite Qfloor_add_ZZ.
  - unfold add. literals.
    destruct (Z_le_gt_dec 0 (v + d)) as [Hpos | Hneg].
    + assert (9007199254740992 <= Qfloor (fl (inject_Z v + inject_Z d)))%Z.
      { rewrite <- (Qfloor_fl_Z 9007199254740992) by (literals; lia).
        apply Qfloor_resp_le, fl_mono.
        rewrite <- inject_Z_plus, <- Zle_Qle. lia. }
      lia.
    + assert (Qfloor (fl (inject_Z v + inject_Z d)) <= -9007199254740992)%Z.
      { rewrite <- (Qfloor_fl_Z (-9007199254740992)) by (literals; lia).
        apply Qfloor_resp_le, fl_mono.
        rewrite <- inject_Z_plus, <- Zle_Qle. lia. }
      lia.
Qed.

End JSFacts.

(** ** The ledger *)

Module ChipManagerFacts.

Import ChipManager JSFacts.
Local Open Scope Z_scope.

Ltac ledger_cases s :=
  destruct s as [fallback memory item mode events];
  destruct fallback, memory, item, mode; simpl.

Lemma setBalance_fst amount s :
  fst (setBalance amount s) = Z.max 0 (Qfloor amount).
Proof.
  unfold setBalance, bind. simpl.
  destruct (useMemoryFallback s); [reflexivity |].
  destruct (setItemThrows (storage s)); reflexivity.
Qed.

Lemma setBalance_dispatched amount s :
  dispatched (snd (setBalance amount s))
  = Z.max 0 (Qfloor amount) :: dispatched s.
Proof.
  unfold setBalance, bind. simpl.
  destruct (useMemoryFallback s); [reflexivity |].
  destruct (setItemThrows (storage s)); reflexivity.
Qed.

Lemma setBalance_storage amount s :
  storage (snd (setBalance amount s)) = storage s.
Proof.
  unfold setBalance, bind. simpl.
  destruct (useMemoryFallback s); [reflexivity |].
  destruct (setItemThrows (storage s)); reflexivity.
Qed.


(** The balance read after a write: the value itself from the memory cell,
    what [parseInt] makes of its text from the storage. *)
Lemma balance_setBalance amount s :
  balance (snd (setBalance amount s))
  = if useMemoryFallback (snd (setBalance amount s))
    then Z.max 0 (Qfloor amount)
    else JS.parseIntOfToString (Z.max 0 (Qfloor amount)).
Proof.
  unfold balance. ledger_cases s; reflexivity.
Qed.

Lemma balance_setBalance_small amount s :
  Z.max 0 (Qfloor amount) < 10 ^ 21 ->
  balance (snd (setBalance amount s)) = Z.max 0 (Qfloor amount).
Proof.
  intros H. rewrite balance_setBalance.
  destruct (useMemoryFallback _); [reflexivity |].
  apply parseIntOfToString_small. lia.
Qed.


Lemma balance_getBalance s : balance (snd (getBalance s)) = balance s.
Proof.
  unfold balance. ledger_cases s; reflexivity.
Qed.

Lemma getBalance_storage s : storage (snd (getBalance s)) = storage s.
Proof. ledger_cases s; reflexivity. Qed.

Lemma wf_setBalance amount s : wf s -> wf (snd (setBalance amount s)).
Proof.
  intros [Hm Hi]. unfold wf.
  destruct s as [fallback memory item mode events].
  destruct fallback, mode; simpl in *; split; intros b Hb;
    try (injection Hb as <-; lia); eauto.
Qed.

Lemma wf_getBalance s : wf s -> wf (snd (getBalance s)).
Proof.
  intros [Hm Hi]. unfold wf.
  destruct s as [fallback memory item mode events].
  destruct fallback, memory, item, mode; simpl in *; split; intros b Hb;
    try (injection Hb as <-; first [ now compute | eauto ]);
    try discriminate; eauto.
Qed.

Lemma balance_nonneg s : wf s -> 0 <= balance s.
Proof.
  intros [Hm Hi]. unfold balance.
  destruct s as [fallback memory item mode events].
  destruct fallback, memory, item, mode; simpl in *;
    first [ solve [apply parseIntOfToString_nonneg; eauto]
          | solve [eauto] | now compute ].
Qed.

Lemma wf_init m item :
  (forall v, item = Some v -> 0 <= v) -> wf (init m item).
Proof.
  intros H. unfold init, wf.
  destruct m; simpl; split; intros b Hb;
    try discriminate; try (injection Hb as <-; now compute); eauto.
Qed.

Lemma wf_ledger500 : wf ledger500.
Proof. apply wf_init. intros v [= <-]. lia. Qed.

(** The operations, spelled out over [balance]. *)
Lemma deduct_eq amount s :
  deduct amount s
  = if JS.ltb (inject_Z (balance s)) amount
    then (false, snd (getBalance s))
    else (true, snd (setBalance (JS.sub (inject_Z (balance s)) amount)
                                (snd (getBalance s)))).
Proof.
  unfold deduct, bind, balance.
  destruct (getBalance s) as [current s1]. simpl.
  destruct (JS.ltb (inject_Z current) amount); [reflexivity |].
  destruct (setBalance _ s1). reflexivity.
Qed.

Lemma award_eq amount s :
  award amount s
  = setBalance (JS.add (inject_Z (balance s)) amount) (snd (getBalance s)).
Proof.
  unfold award, bind, balance.
  destruct (getBalance s) as [current s1]. reflexivity.
Qed.

Lemma canAfford_eq amount s :
  canAfford amount s
  = (JS.geb (inject_Z (balance s)) amount, snd (getBalance s)).
Proof.
  unfold canAfford, bind, balance.
  destruct (getBalance s) as [current s1]. reflexivity.
Qed.

Lemma wf_deduct amount s : wf s -> wf (snd (deduct amount s)).
Proof.
  intros H. rewrite deduct_eq.
  destruct (JS.ltb _ _); simpl;
    auto using wf_getBalance, wf_setBalance.
Qed.

Lemma wf_award amount s : wf s -> wf (snd (award amount s)).
Proof.
  intros H. rewrite award_eq. auto using wf_getBalance, wf_setBalance.
Qed.

(** Within the integers binary64 holds exactly, [award] adds and [deduct]
    subtracts. *)
Lemma balance_award (n : Z) s :
  0 <= balance s + n <= 2 ^ 53 ->
  balance (snd (award (inject_Z n) s)) = balance s + n.
Proof.
  intros H. rewrite award_eq.
  assert (Qfloor (JS.add (inject_Z (balance s)) (inject_Z n))
          = balance s + n) as Hsum by (apply Qfloor_add_ZZ; lia).
  rewrite balance_setBalance_small; rewrite Hsum; literals; lia.
Qed.

Lemma balance_deduct (n : Z) s :
  0 <= n <= balance s -> balance s <= 2 ^ 53 ->
  deduct (inject_Z n) s
  = (true, snd (setBalance (JS.sub (inject_Z (balance s)) (inject_Z n))
                           (snd (getBalance s)))) /\
  balance (snd (deduct (inject_Z n) s)) = balance s - n.
Proof.
  intros Hn Hb. rewrite deduct_eq.
  assert (JS.ltb (inject_Z (balance s)) (inject_Z n) = false) as ->
    by (apply ltb_ge; rewrite <- Zle_Qle; lia).
  split; [reflexivity |]. cbn [snd].
  assert (Qfloor (JS.sub (inject_Z (balance s)) (inject_Z n))
          = balance s - n) as Hdiff by (apply Qfloor_sub_ZZ; lia).
  rewrite balance_setBalance_small; rewrite Hdiff; literals; lia.
Qed.



(** C8, as the claim has it, at a balance of [2^53]: [award(1)] leaves the
    balance at [2^53] (the sum [2^53 + 1] is no binary64 number and rounds
    back), [deduct(1)] then succeeds and takes the balance to [2^53 - 1],
    one chip below the start. *)
Lemma round_trip_loses_a_chip_at_2_53 :
  let s := init Available (Some (2 ^ 53)) in
  let s1 := snd (award (inject_Z 1) s) in
  wf s /\
  0 <= 1 <= balance s /\
  balance s1 = 2 ^ 53 /\
  fst (deduct (inject_Z 1) s1) = true /\
  balance (snd (deduct (inject_Z 1) s1)) = 2 ^ 53 - 1 /\
  balance (snd (deduct (inject_Z 1) s1)) <> balance s.
Proof.
  cbv zeta. split; [apply wf_init; intros v [= <-]; now compute |].
  split; [vm_compute; split; discriminate |].
  repeat split; try (vm_compute; reflexivity).
  vm_compute. discriminate.
Qed.

(** C8, amended.  For a non-negative integer [n <= balance] with
    [balance + n] no more than [2^53], [award(n)] followed by [deduct(n)]
    brings the balance back to what it was and [deduct] returns [true]; for
    an amount above the balance, [deduct] returns [false] and the balance
    stays (the ledger is as a plain [getBalance] leaves it). *)
Theorem award_deduct_round_trip (s : State) (n : Z) (amount : Q) :
  (0 <= n -> n <= balance s -> balance s + n <= 2 ^ 53 ->
   let s1 := snd (award (inject_Z n) s) in
   fst (deduct (inject_Z n) s1) = true /\
   balance (snd (deduct (inject_Z n) s1)) = balance s) /\
  ((inject_Z (balance s) < amount)%Q ->
   fst (deduct amount s) = false /\
   balance (snd (deduct amount s)) = balance s /\
   snd (deduct amount s) = snd (getBalance s)).
Proof.
  split.
  - intros Hn Hle Hmax. cbv zeta.
    assert (balance (snd (award (inject_Z n) s)) = balance s + n) as Hb
      by (apply balance_award; lia).
    destruct (balance_deduct n (snd (award (inject_Z n) s))) as [-> ->];
      [lia | lia |].
    split; [reflexivity | lia].
  - intros Hlt. rewrite deduct_eq.
    apply ltb_lt in Hlt. rewrite Hlt. simpl.
    auto using balance_getBalance.
Qed.

Lemma award_deduct_round_trip_witness :
  (let s1 := snd (award (inject_Z 200) ledger500) in
   fst (deduct (inject_Z 200) s1) = true /\
   balance (snd (deduct (inject_Z 200) s1)) = balance ledger500) /\
  (fst (deduct 1000 ledger500) = false /\
   balance (snd (deduct 1000 ledger500)) = balance ledger500 /\
   snd (deduct 1000 ledger500) = snd (getBalance ledger500)).
Proof.
  destruct (award_deduct_round_trip ledger500 200 1000) as [Hround Hreject].
  split.
  - apply Hround; vm_compute; discriminate.
  - apply Hreject. reflexivity.
Defined.

(** C10, as the claim has it, at [-1/2]: [deduct] accepts the amount, yet
    the balance of 500 is set to [floor(500.5) = 500] and does not grow. *)
Lemma deduct_minus_half_keeps_balance :
  wf ledger500 /\
  (- (1 # 2) < 0)%Q /\
  fst (deduct (- (1 # 2)) ledger500) = true /\
  ~ balance ledger500 < balance (snd (deduct (- (1 # 2)) ledger500)).
Proof.
  split; [apply wf_ledger500 |].
  split; [reflexivity |].
  split; [vm_compute; reflexivity |].
  vm_compute. intros H. discriminate H.
Qed.

(** C10, amended.  For a strictly negative amount [n], with [balance - n]
    no more than [2^53], [deduct(n)] returns [true] and sets the balance to
    [max(0, floor(balance - n))], the difference being rounded to binary64
    before the floor is taken.  The new balance is never below the old one
    and is above it as soon as [n <= -1], so for every negative integer;
    for [-1 < n < 0] it is the old balance or one chip more. *)
Theorem deduct_negative_amount (s : State) (n : Q) :
  wf s -> (n < 0)%Q ->
  (inject_Z (balance s) - n <= inject_Z (2 ^ 53))%Q ->
  let s' := snd (deduct n s) in
  fst (deduct n s) = true /\
  balance s' = Z.max 0 (Qfloor (JS.sub (inject_Z (balance s)) n)) /\
  balance s <= balance s' /\
  ((n <= - (1))%Q -> balance s < balance s') /\
  ((- (1) < n)%Q -> balance s' <= balance s + 1).
Proof.
  intros Hwf Hneg Hmax. cbv zeta.
  pose proof (balance_nonneg s Hwf) as Hb.
  assert (inject_Z 0 <= inject_Z (balance s))%Q as HbQ
    by now rewrite <- Zle_Qle.
  change (inject_Z 0) with 0%Q in HbQ.
  assert (balance s < 2 ^ 53) as Hlt.
  { rewrite Zlt_Qlt. lra. }
  assert (JS.ltb (inject_Z (balance s)) n = false) as Hguard
    by (apply ltb_ge; lra).
  rewrite deduct_eq, Hguard. cbn [fst snd].
  destruct (Qfloor_fl_between_Z (balance s) (2 ^ 53)
              (inject_Z (balance s) - n)%Q) as [Hlo Hhi];
    [lia | literals; lia | lra | exact Hmax |].
  fold (JS.sub (inject_Z (balance s)) n) in Hlo, Hhi.
  rewrite balance_setBalance_small by (literals; lia).
  split; [reflexivity |]. split; [reflexivity |]. split; [lia |].
  split.
  - intros Hle.
    destruct (Qfloor_fl_between_Z (balance s + 1) (2 ^ 53)
                (inject_Z (balance s) - n)%Q) as [Hlo' _];
      [lia | literals; lia | rewrite inject_Z_succ; lra | exact Hmax |].
    fold (JS.sub (inject_Z (balance s)) n) in Hlo'. lia.
  - intros Hgt.
    destruct (Qfloor_fl_between_Z (balance s) (balance s + 1)
                (inject_Z (balance s) - n)%Q) as [_ Hhi'];
      [lia | lia | lra | rewrite inject_Z_succ; lra |].
    fold (JS.sub (inject_Z (balance s)) n) in Hhi'. lia.
Qed.

Lemma deduct_negative_amount_witness :
  fst (deduct (- (3)) ledger500) = true /\
  balance (snd (deduct (- (3)) ledger500)) = 503 /\
  balance (snd (deduct (- (9007199254740991 # 9007199254740992))
                       ledger500)) = 501.
Proof.
  assert (- (3) < 0)%Q as Hneg by reflexivity.
  assert (inject_Z (balance ledger500) - - (3) <= inject_Z (2 ^ 53))%Q
    as Hmax by (vm_compute; discriminate).
  destruct (deduct_negative_amount ledger500 (- (3)) wf_ledger500 Hneg Hmax)
    as (Htrue & Hbal & _).
  split; [exact Htrue |].
  split; [rewrite Hbal; vm_compute; reflexivity | vm_compute; reflexivity].
Defined.

End ChipManagerFacts.

(** ** Board layout *)

Module LayoutFacts.

Import Plinko JSFacts.
Local Open Scope Q_scope.

Section AnyConfig.

Variable cfg : Config.

Lemma createBuckets_length :
  length (createBuckets cfg) = (rows cfg + 4)%nat.
Proof.
  unfold createBuckets, finalRowPegs.
  rewrite length_map, length_seq. lia.
Qed.

Lemma createBuckets_lookup (i : nat) :
  (i <= finalRowPegs cfg)%nat ->
  createBuckets cfg !! i = Some (bucketAt cfg i).
Proof.
  intros Hi. unfold createBuckets.
  rewrite list_lookup_fmap, lookup_seq_lt by lia. reflexivity.
Qed.

Lemma createBuckets_lookup_inv (i : nat) (b : Bucket) :
  createBuckets cfg !! i = Some b ->
  (i <= finalRowPegs cfg)%nat /\ b = bucketAt cfg i.
Proof.
  intros Hb.
  assert (i < length (createBuckets cfg))%nat as Hlt
    by (eapply lookup_lt_Some; eassumption).
  rewrite createBuckets_length in Hlt. unfold finalRowPegs.
  split; [lia |].
  rewrite createBuckets_lookup in Hb by (unfold finalRowPegs; lia).
  congruence.
Qed.

(** The two bounds the code pins to the edges of the board. *)
Lemma first_left_is_zero : left (bucketAt cfg 0) == 0.
Proof. reflexivity. Qed.

Lemma last_right_is_width :
  right (bucketAt cfg (finalRowPegs cfg)) == canvasWidth cfg.
Proof.
  simpl. unfold rightBound. rewrite Nat.eqb_refl. reflexivity.
Qed.

Lemma num_succ (i : nat) : JS.num (S i) == JS.num i + 1.
Proof.
  unfold JS.num. rewrite Nat2Z.inj_succ, <- Z.add_1_r, inject_Z_plus.
  reflexivity.
Qed.

(** Both bounds of a bucket strictly inside the row are the same point,
    half a gap before peg [i]. *)
Lemma interior_bucket_is_a_point (i : nat) :
  (0 < i < finalRowPegs cfg)%nat ->
  left (bucketAt cfg i) == right (bucketAt cfg i).
Proof.
  intros [Hlo Hhi]. simpl. unfold leftBound, rightBound.
  destruct (Nat.eqb_spec i 0) as [-> | _]; [lia |].
  destruct (Nat.eqb_spec i (finalRowPegs cfg)) as [-> | _]; [lia |].
  field.
Qed.

(** A bucket never ends where the next one starts: the next one starts a
    whole [pegGap] further right. *)
Lemma next_left_is_a_gap_away (i : nat) :
  (i < finalRowPegs cfg)%nat ->
  left (bucketAt cfg (S i)) == right (bucketAt cfg i) + pegGap cfg.
Proof.
  intros Hi. simpl. unfold leftBound, rightBound.
  destruct (Nat.eqb_spec i (finalRowPegs cfg)) as [-> | _]; [lia |].
  change (S i =? 0)%nat with false. cbv iota.
  rewrite num_succ. field.
Qed.

Lemma final_row_has_rows_plus_2_pegs (row : list (Q * Q)) :
  last (pegs cfg) = Some row -> length row = (rows cfg + 2)%nat.
Proof.
  unfold pegs. destruct (rows cfg) as [| n]; [discriminate |].
  rewrite seq_S, map_app. simpl. rewrite last_snoc.
  intros [= <-]. unfold pegRow, pegsInRow.
  rewrite length_map, length_seq. lia.
Qed.

End AnyConfig.

Lemma inBucket_spec (x : Q) (b : Bucket) :
  inBucket x b = true <-> left b <= x /\ x < right b.
Proof.
  unfold inBucket. rewrite andb_true_iff, geb_ge, ltb_lt. reflexivity.
Qed.

Lemma inBucket_empty (x : Q) (b : Bucket) :
  right b <= left b -> inBucket x b = false.
Proof.
  intros Hb. apply not_true_iff_false. rewrite inBucket_spec. lra.
Qed.

(** What the scan returns, started at index [k] with [d] in the variable. *)
Lemma scanBuckets_spec (x : Q) (bs : list Bucket) (k d : nat) :
  (exists i b, bs !! i = Some b /\
               inBucket x b = true /\
               (forall j b', (j < i)%nat -> bs !! j = Some b' ->
                             inBucket x b' = false) /\
               scanBuckets x bs k d = (k + i)%nat) \/
  ((forall b, b ∈ bs -> inBucket x b = false) /\
   scanBuckets x bs k d = d).
Proof.
  revert k. induction bs as [| b bs IH]; intros k; simpl.
  - right. split; [| reflexivity]. intros b Hb. inversion Hb.
  - destruct (inBucket x b) eqn:Hin.
    + left. exists 0%nat, b.
      split; [reflexivity |]. split; [assumption |].
      split; [intros j b' Hj; lia | lia].
    + destruct (IH (S k)) as [(i & b1 & Hi & Hb1 & Hfirst & Hres) | [Hnone Hres]].
      * left. exists (S i), b1.
        split; [assumption |]. split; [assumption |]. split.
        -- intros [| j] b' Hj Hb'; simpl in Hb'.
           ++ congruence.
           ++ eapply Hfirst; [| eassumption]. lia.
        -- rewrite Hres. lia.
      * right. split; [| assumption].
        intros b' Hb'. apply elem_of_cons in Hb' as [-> | Hb']; auto.
Qed.

Lemma scanBuckets_all_empty (x : Q) (bs : list Bucket) (k d : nat) :
  Forall (fun b => right b <= left b) bs -> scanBuckets x bs k d = d.
Proof.
  intros Hall. revert k. induction Hall as [| b bs Hb _ IH]; intros k; simpl.
  - reflexivity.
  - rewrite inBucket_empty by assumption. apply IH.
Qed.

Lemma findBucketIndex_all_empty (x : Q) (bs : list Bucket) :
  Forall (fun b => right b <= left b) bs -> findBucketIndex x bs = 0%nat.
Proof. apply scanBuckets_all_empty. Qed.

(** *** The shipped board *)

Ltac Qdecide := vm_compute; first [ reflexivity | intros H; discriminate H ].

Lemma shipped_buckets_all_empty :
  Forall (fun b => right b <= left b) (createBuckets CONFIG).
Proof.
  apply Forall_lookup_2. intros i b Hb.
  apply createBuckets_lookup_inv in Hb as [Hi ->].
  do 16 (destruct i as [| i]; [Qdecide |]).
  vm_compute in Hi. lia.
Qed.

(** With no bucket holding any point, the scan never breaks out later than
    at index 0: every landing resolves to the first bucket. *)
Lemma shipped_resolver_always_first (x : Q) :
  findBucketIndex x (createBuckets CONFIG) = 0%nat.
Proof.
  apply findBucketIndex_all_empty, shipped_buckets_all_empty.
Qed.

(** C1, on the shipped configuration.  The outer bounds are where the
    claim puts them ([buckets[0].left = 0], last [right = canvasWidth]),
    but no interval is non-empty and no interval ends where the next
    starts: bucket 0 is [[0, -12.5)], bucket 1 is [[22.5, 22.5)], and each
    bucket starts 35 (one [pegGap]) right of the end of the one before. *)
Theorem shipped_buckets_do_not_partition :
  let bs := createBuckets CONFIG in
  (exists b, bs !! 0%nat = Some b /\ left b == 0) /\
  (exists b, last bs = Some b /\ right b == canvasWidth CONFIG) /\
  (forall i b, bs !! i = Some b -> ~ left b < right b) /\
  (forall i b b', bs !! i = Some b -> bs !! S i = Some b' ->
                  left b' == right b + 35 /\ ~ right b == left b') /\
  (exists b0 b1, bs !! 0%nat = Some b0 /\ bs !! 1%nat = Some b1 /\
                 right b0 == - (25 # 2) /\
                 left b1 == 45 # 2 /\ right b1 == 45 # 2).
Proof.
  cbv zeta. split; [| split; [| split; [| split]]].
  - eexists. split; reflexivity.
  - eexists. split; [reflexivity | Qdecide].
  - intros i b Hb.
    pose proof shipped_buckets_all_empty as Hall.
    apply (Forall_lookup_1 _ _ _ _ Hall) in Hb. lra.
  - intros i b b' Hb Hb'.
    apply createBuckets_lookup_inv in Hb as [_ ->].
    apply createBuckets_lookup_inv in Hb' as [Hi ->].
    pose proof (next_left_is_a_gap_away CONFIG i Hi) as Hgap.
    change (pegGap CONFIG) with 35 in Hgap.
    split; [exact Hgap |]. intros Heq. rewrite Heq in Hgap. lra.
  - do 2 eexists. split; [reflexivity |]. split; [reflexivity |].
    repeat split; Qdecide.
Qed.

(** C2, on the shipped configuration.  The layout has [rows + 4 = 16]
    buckets, while the final peg row (row 11, [11 + 3] pegs) has 14 pegs
    and the multiplier table 13 entries. *)
Theorem shipped_bucket_count :
  length (createBuckets CONFIG) = 16%nat /\
  (exists row, last (pegs CONFIG) = Some row /\ length row = 14%nat) /\
  pegsInRow (rows CONFIG - 1) = 14%nat /\
  length (multipliers CONFIG) = 13%nat.
Proof.
  split; [reflexivity |]. split; [| split; reflexivity].
  eexists. split; reflexivity.
Qed.

(** C3, as the claim has it, right of every interval: at [x = 600] on the
    shipped board, and at [x = 25] on [twoBuckets], the resolver returns
    index 0, not the last index. *)
Lemma resolver_right_of_all_returns_first :
  ((forall b, b ∈ createBuckets CONFIG ->
              left b < 600 /\ right b < 600 /\ inBucket 600 b = false) /\
   findBucketIndex 600 (createBuckets CONFIG) = 0%nat /\
   (length (createBuckets CONFIG) - 1)%nat = 15%nat) /\
  ((forall b, b ∈ twoBuckets ->
              left b < 25 /\ right b < 25 /\ inBucket 25 b = false) /\
   findBucketIndex 25 twoBuckets = 0%nat /\
   (length twoBuckets - 1)%nat = 1%nat).
Proof.
  split; (split; [| split; reflexivity]).
  - intros b Hb. apply list_elem_of_lookup in Hb as [i Hb].
    apply createBuckets_lookup_inv in Hb as [Hi ->].
    do 16 (destruct i as [| i]; [repeat split; Qdecide |]).
    vm_compute in Hi. lia.
  - intros b Hb. apply list_elem_of_lookup in Hb as [i Hb].
    do 2 (destruct i as [| i]; [injection Hb as <-; repeat split; Qdecide |]).
    discriminate Hb.
Qed.

(** C3, amended.  The resolver returns the first index [i], scanning left
    to right, with [x] in [[left_i, right_i)]; when [x] is in no interval
    it returns index 0, on whichever side of the intervals [x] lies. *)
Theorem findBucketIndex_first_hit_else_zero (x : Q) (bs : list Bucket) :
  (exists i b, bs !! i = Some b /\
               (left b <= x /\ x < right b) /\
               (forall j b', (j < i)%nat -> bs !! j = Some b' ->
                             ~ (left b' <= x /\ x < right b')) /\
               findBucketIndex x bs = i) \/
  ((forall b, b ∈ bs -> ~ (left b <= x /\ x < right b)) /\
   findBucketIndex x bs = 0%nat).
Proof.
  unfold findBucketIndex.
  destruct (scanBuckets_spec x bs 0 0)
    as [(i & b & Hi & Hin & Hfirst & Hres) | [Hnone Hres]].
  - left. exists i, b.
    split; [assumption |]. split; [now apply inBucket_spec |].
    split; [| exact Hres].
    intros j b' Hj Hb'. rewrite <- inBucket_spec.
    rewrite (Hfirst j b' Hj Hb'). discriminate.
  - right. split; [| exact Hres].
    intros b Hb. rewrite <- inBucket_spec.
    rewrite (Hnone b Hb). discriminate.
Qed.

End LayoutFacts.

(** ** Round controller *)

Module GameFacts.

Import Plinko JSFacts ChipManagerFacts LayoutFacts.

(** *** The handlers, spelled out *)

Lemma dropBall_eq (random : Q) (st : State) :
  dropBall random st =
  if isDropping st then st
  else
    let bet := parsedOr100 (betInput st) in
    if (bet <? 10)%Z then alert MinimumBet st
    else if JS.ltb (inject_Z (ChipManager.balance (chips st))) (inject_Z bet)
    then alert NotEnoughChips
               (withChips (snd (ChipManager.getBalance (chips st))) st)
    else spawnBall bet random
           (withChips (snd (ChipManager.deduct
                              (inject_Z bet)
                              (snd (ChipManager.getBalance (chips st))))) st).
Proof.
  unfold dropBall. destruct (isDropping st); [reflexivity |]. cbv zeta.
  destruct (parsedOr100 (betInput st) <? 10)%Z; [reflexivity |].
  rewrite canAfford_eq, geb_negb_ltb, negb_involutive. reflexivity.
Qed.

Ltac drop_cases random st :=
  rewrite (dropBall_eq random st); cbv zeta;
  destruct (isDropping st) eqn:?;
  [| destruct (parsedOr100 (betInput st) <? 10)%Z eqn:?;
     [| destruct (JS.ltb (inject_Z (ChipManager.balance (chips st)))
                         (inject_Z (parsedOr100 (betInput st)))) eqn:? ]].

Ltac pair_cases st pair :=
  unfold onPair; destruct pair as [bodyA bodyB];
  destruct (isLabel LabelBottomSensor bodyA || isLabel LabelBottomSensor bodyB);
  [ destruct (ballOfPair bodyA bodyB) as [ball |];
    [ destruct (heap st !! ball) as [b |] eqn:?;
      [ destruct (landed b) eqn:? | ] | ] | ].

Ltac timer_cases k st :=
  unfold fireTimer; destruct (timers st !! k) as [[| ball] |] eqn:?.

(** What a collision leaves alone. *)
Lemma onPair_frame (st : State) (pair : Body * Body) :
  balls (onPair st pair) = balls st /\
  isDropping (onPair st pair) = isDropping st /\
  bucketPositions (onPair st pair) = bucketPositions st /\
  betInput (onPair st pair) = betInput st /\
  dropBtnDisabled (onPair st pair) = dropBtnDisabled st /\
  length (heap (onPair st pair)) = length (heap st).
Proof.
  pair_cases st pair; simpl; rewrite ?length_insert; auto 10.
Qed.

Lemma onCollisionStart_frame (pairs : list (Body * Body)) (st : State) :
  balls (onCollisionStart pairs st) = balls st /\
  isDropping (onCollisionStart pairs st) = isDropping st /\
  bucketPositions (onCollisionStart pairs st) = bucketPositions st /\
  betInput (onCollisionStart pairs st) = betInput st /\
  dropBtnDisabled (onCollisionStart pairs st) = dropBtnDisabled st /\
  length (heap (onCollisionStart pairs st)) = length (heap st).
Proof.
  unfold onCollisionStart. revert st.
  induction pairs as [| pair pairs IH]; intros st; simpl; [auto 10 |].
  destruct (IH (onPair st pair)) as (-> & -> & -> & -> & -> & ->).
  apply onPair_frame.
Qed.

(** *** The concurrency cap *)

Lemma capInv_removeBall (ball : nat) (st : State) :
  capInv st -> capInv (removeBall ball st).
Proof.
  intros [Hle Hfree]. unfold removeBall, capInv.
  pose proof (filter_length_le (fun b => negb (b =? ball)) (balls st)) as Hf.
  destruct (Nat.eqb_spec
              (length (List.filter (fun b => negb (b =? ball)) (balls st))) 0)
    as [Hz | Hnz]; simpl.
  - rewrite Hz. lia.
  - split; [lia |]. intros Hd. specialize (Hfree Hd). lia.
Qed.

Lemma capInv_step (st : State) (ev : Event) : capInv st -> capInv (step st ev).
Proof.
  intros Hcap. pose proof Hcap as [Hle Hfree].
  destruct ev as [random | | | | | | pairs | k |]; simpl; try exact Hcap.
  - drop_cases random st; try exact Hcap.
    unfold capInv, spawnBall. cbn [balls isDropping withChips].
    rewrite length_app. cbn [length].
    split; [specialize (Hfree eq_refl); lia | discriminate].
  - unfold moveBall. destruct (heap st !! ball); exact Hcap.
  - unfold capInv.
    destruct (onCollisionStart_frame pairs st) as (-> & -> & _).
    exact Hcap.
  - timer_cases k st.
    + unfold reenableDrop. simpl.
      destruct (Nat.ltb_spec (length (balls st)) 5); unfold capInv; simpl.
      * split; [lia | auto].
      * exact Hcap.
    + apply capInv_removeBall. exact Hcap.
    + exact Hcap.
Qed.

Lemma capInv_reachable (st : State) : reachable st -> capInv st.
Proof.
  induction 1 as [m item bet _ | st ev _ IH].
  - unfold capInv. simpl. split; [lia | intros _; lia].
  - now apply capInv_step.
Qed.

Lemma reachable_run (evs : list Event) (st : State) :
  reachable st -> reachable (run evs st).
Proof.
  unfold run. revert st. induction evs as [| ev evs IH]; intros st Hst; simpl.
  - exact Hst.
  - apply IH. now constructor.
Qed.

Lemma reachable_freshPage : reachable freshPage.
Proof. constructor. intros v [= <-]. lia. Qed.


Lemma dropBall_busy (random : Q) (st : State) :
  isDropping st = true -> dropBall random st = st.
Proof. intros Hd. unfold dropBall. now rewrite Hd. Qed.

(** A drop that passes the three checks puts one more ball in flight, and
    debits exactly the bet from a balance within [2^53]. *)
Lemma dropBall_accepts (random : Q) (st : State) :
  isDropping st = false ->
  (10 <= parsedOr100 (betInput st))%Z ->
  (parsedOr100 (betInput st) <= ChipManager.balance (chips st))%Z ->
  balls (dropBall random st) = balls st ++ [length (heap st)] /\
  ((ChipManager.balance (chips st) <= 2 ^ 53)%Z ->
   ChipManager.balance (chips (dropBall random st))
   = (ChipManager.balance (chips st) - parsedOr100 (betInput st))%Z).
Proof.
  intros Hd Hmin Hafford. rewrite dropBall_eq, Hd. cbv zeta.
  destruct (Z.ltb_spec (parsedOr100 (betInput st)) 10) as [| _]; [lia |].
  assert (JS.ltb (inject_Z (ChipManager.balance (chips st)))
                 (inject_Z (parsedOr100 (betInput st))) = false) as Hguard
    by (apply ltb_ge; now rewrite <- Zle_Qle).
  rewrite Hguard. split; [reflexivity |]. intros Hmax.
  unfold spawnBall. cbn [chips withChips].
  destruct (balance_deduct (parsedOr100 (betInput st))
              (snd (ChipManager.getBalance (chips st)))) as [_ ->];
    rewrite balance_getBalance; [lia | exact Hmax | reflexivity].
Qed.

Lemma onPair_timers (st : State) (pair : Body * Body) :
  ReenableDrop ∈ timers (onPair st pair) -> ReenableDrop ∈ timers st.
Proof.
  pair_cases st pair; simpl; auto.
  rewrite elem_of_app, list_elem_of_singleton.
  intros [H | H]; [exact H | discriminate H].
Qed.

Lemma onCollisionStart_timers (pairs : list (Body * Body)) (st : State) :
  ReenableDrop ∈ timers (onCollisionStart pairs st) ->
  ReenableDrop ∈ timers st.
Proof.
  unfold onCollisionStart. revert st.
  induction pairs as [| pair pairs IH]; intros st; simpl; [auto |].
  intros H. eapply onPair_timers, IH, H.
Qed.

Lemma stuck_step (st : State) (ev : Event) :
  stuck st -> stuck (step st ev) \/ balls (step st ev) = [].
Proof.
  intros Hstuck. pose proof Hstuck as [Hd Hno].
  destruct ev as [random | | | | | | pairs | k |]; simpl;
    try (left; exact Hstuck).
  - rewrite dropBall_busy by exact Hd. left. exact Hstuck.
  - unfold moveBall. destruct (heap st !! ball); left; exact Hstuck.
  - left. split.
    + destruct (onCollisionStart_frame pairs st) as (_ & -> & _). exact Hd.
    + intros H. apply Hno. eapply onCollisionStart_timers, H.
  - timer_cases k st.
    + exfalso. apply Hno. eapply list_elem_of_lookup_2. eassumption.
    + unfold removeBall.
      destruct (Nat.eqb_spec
                  (length (List.filter (fun b => negb (b =? ball))
                                       (balls (removeTimer k st)))) 0)
        as [Hz | Hnz].
      * right. simpl. now apply length_zero_iff_nil.
      * left. split; [exact Hd |]. simpl.
        intros H. apply Hno. eapply list_elem_of_delete_inv, H.
    + left. exact Hstuck.
Qed.

Lemma stuck_run (evs : list Event) (st : State) :
  stuck st ->
  stuck (run evs st) \/
  exists evs1 evs2, evs = evs1 ++ evs2 /\ balls (run evs1 st) = [].
Proof.
  revert st. induction evs as [| ev evs IH]; intros st Hstuck.
  - left. exact Hstuck.
  - destruct (stuck_step st ev Hstuck) as [Hnext | Hempty].
    + destruct (IH _ Hnext) as [Hend | (evs1 & evs2 & -> & Hempty)].
      * left. exact Hend.
      * right. exists (ev :: evs1), evs2. split; [reflexivity | exact Hempty].
    + right. exists [ev], evs. split; [reflexivity | exact Hempty].
Qed.

(** C4, as the claim has it: five balls in flight, ball 0 lands, settles and
    is retired, and with four balls left every further drop is still
    rejected. *)
Lemma sixth_drop_rejected_after_one_retired :
  let st5 := run fiveDrops freshPage in
  let st := run [sensorHit 0; TimerFired 0] st5 in
  reachable st /\
  balls st5 = [0; 1; 2; 3; 4] /\
  balls st = [1; 2; 3; 4] /\
  settledCount 0 (log st) = 1 /\
  timers st = [] /\
  forall random, dropBall random st = st.
Proof.
  cbv zeta. split; [do 2 apply reachable_run; apply reachable_freshPage |].
  do 4 (split; [reflexivity |]).
  intros random. apply dropBall_busy. reflexivity.
Qed.

(** C4, amended.  In every reachable state at most five balls are in
    flight, and while five are, a drop request changes nothing (no debit, no
    ball), whatever the drop button's [disabled] attribute says.  Once
    [isDropping] is set and no re-enabling timeout is pending, drops stay
    rejected until a retirement has emptied [balls]; the retirement that
    empties it clears the flag, and a drop that then passes the bet checks
    spawns a ball. *)
Theorem drop_rejected_at_cap (st : State) :
  reachable st ->
  length (balls st) <= 5 /\
  (5 <= length (balls st) ->
   forall b random,
     dropBall random (withDropBtnDisabled b st) = withDropBtnDisabled b st) /\
  (isDropping st = true -> ReenableDrop ∉ timers st ->
   forall evs,
     (forall random, dropBall random (run evs st) = run evs st) \/
     (exists evs1 evs2, evs = evs1 ++ evs2 /\ balls (run evs1 st) = [])) /\
  (forall k ball,
     timers st !! k = Some (RemoveBall ball) ->
     balls (fireTimer k st) = [] ->
     isDropping (fireTimer k st) = false /\
     forall random,
       (10 <= parsedOr100 (betInput st))%Z ->
       (parsedOr100 (betInput st) <= ChipManager.balance (chips st))%Z ->
       balls (dropBall random (fireTimer k st)) = [length (heap st)]).
Proof.
  intros Hreach. destruct (capInv_reachable st Hreach) as [Hle Hfree].
  split; [exact Hle |]. split; [| split].
  - intros Hfull b random. apply dropBall_busy. simpl.
    destruct (isDropping st); [reflexivity |].
    specialize (Hfree eq_refl). lia.
  - intros Hd Hno evs.
    destruct (stuck_run evs st (conj Hd Hno)) as [[Hd' _] | Hempty].
    + left. intros random. now apply dropBall_busy.
    + right. exact Hempty.
  - intros k ball Hk. unfold fireTimer. rewrite Hk. unfold removeBall.
    destruct (Nat.eqb_spec
                (length (List.filter (fun b => negb (b =? ball))
                                     (balls (removeTimer k st)))) 0)
      as [Hz | Hnz].
    + intros Hempty. split; [reflexivity |].
      intros random Hmin Hafford.
      match goal with |- balls (dropBall _ ?s) = _ =>
        destruct (dropBall_accepts random s eq_refl Hmin Hafford) as [-> _]
      end.
      simpl in *. now rewrite Hempty.
    + cbn in Hnz |- *. intros Hempty. rewrite Hempty in Hnz. now cbn in Hnz.
Qed.

Lemma drop_rejected_at_cap_witness :
  length (balls (run fiveDrops freshPage)) <= 5 /\
  forall b random,
    dropBall random (withDropBtnDisabled b (run fiveDrops freshPage))
    = withDropBtnDisabled b (run fiveDrops freshPage).
Proof.
  assert (reachable (run fiveDrops freshPage)) as Hreach
    by (apply reachable_run, reachable_freshPage).
  destruct (drop_rejected_at_cap _ Hreach) as (Hle & Hfull & _).
  split; [exact Hle |]. apply Hfull. vm_compute. lia.
Defined.

(** *** What reachable states keep true *)

Lemma onCollisionStart_preserves (P : State -> Prop) :
  (forall st pair, P st -> P (onPair st pair)) ->
  forall pairs st, P st -> P (onCollisionStart pairs st).
Proof.
  intros Hpair. unfold onCollisionStart.
  induction pairs as [| pair pairs IH]; intros st Hst; simpl; auto.
Qed.

(** The ledger holds a non-negative balance. *)
Lemma wf_step (st : State) (ev : Event) :
  ChipManager.wf (chips st) -> ChipManager.wf (chips (step st ev)).
Proof.
  intros Hwf. destruct ev as [random | | | | | ball x | pairs | k |]; simpl;
    try exact Hwf.
  - drop_cases random st; simpl;
      auto using wf_getBalance, wf_deduct.
  - unfold moveBall. destruct (heap st !! ball); exact Hwf.
  - revert Hwf. apply onCollisionStart_preserves with
      (P := fun s => ChipManager.wf (chips s)).
    clear. intros st pair Hwf.
    pair_cases st pair; simpl; auto using wf_award.
  - timer_cases k st; try exact Hwf.
    + unfold reenableDrop. simpl.
      destruct (length (balls st) <? 5); exact Hwf.
    + unfold removeBall.
      destruct (length _ =? 0); exact Hwf.
Qed.

Lemma wf_reachable (st : State) : reachable st -> ChipManager.wf (chips st).
Proof.
  induction 1 as [m item bet Hitem | st ev _ IH].
  - now apply wf_init.
  - now apply wf_step.
Qed.

Lemma betsInv_step (st : State) (ev : Event) :
  betsInv st -> betsInv (step st ev).
Proof.
  intros Hbets. destruct ev as [random | | | | | ball x | pairs | k |]; simpl;
    try exact Hbets.
  - drop_cases random st; try exact Hbets.
    unfold betsInv, spawnBall. cbn [heap withChips].
    apply Forall_app_2; [exact Hbets |].
    constructor; [| constructor]. simpl. lia.
  - unfold moveBall. destruct (heap st !! ball) as [b |] eqn:Hb;
      [| exact Hbets].
    unfold betsInv. simpl. apply Forall_insert; [exact Hbets |].
    exact (Forall_lookup_1 _ _ _ _ Hbets Hb).
  - revert Hbets. apply onCollisionStart_preserves. clear.
    intros st pair Hbets.
    pair_cases st pair; try exact Hbets.
    unfold betsInv. simpl. apply Forall_insert; [exact Hbets |].
    match goal with H : heap st !! _ = Some _ |- _ =>
      exact (Forall_lookup_1 _ _ _ _ Hbets H) end.
  - timer_cases k st; try exact Hbets.
    + unfold reenableDrop. simpl.
      destruct (length (balls st) <? 5); exact Hbets.
    + unfold removeBall.
      destruct (length _ =? 0); exact Hbets.
Qed.

Lemma betsInv_reachable (st : State) : reachable st -> betsInv st.
Proof.
  induction 1 as [m item bet _ | st ev _ IH].
  - constructor.
  - now apply betsInv_step.
Qed.

(** The board never changes after [initGame]. *)
Lemma bucketPositions_reachable (st : State) :
  reachable st -> bucketPositions st = createBuckets CONFIG.
Proof.
  induction 1 as [m item bet _ | st ev _ IH]; [reflexivity |].
  rewrite <- IH. clear.
  destruct ev as [random | | | | | ball x | pairs | k |]; simpl;
    try reflexivity.
  - drop_cases random st; reflexivity.
  - unfold moveBall. destruct (heap st !! ball); reflexivity.
  - apply onCollisionStart_frame.
  - timer_cases k st; try reflexivity.
    + unfold reenableDrop. simpl.
      destruct (length (balls st) <? 5); reflexivity.
    + unfold removeBall.
      destruct (length _ =? 0); reflexivity.
Qed.

(** *** Rejected drops *)

(** C5, as the claim has it, above the maximum: with 50000 chips the player
    types 20000 into the bet field; the drop is accepted, 20000 chips are
    debited and ball 0 is in flight. *)
Lemma drop_above_maximum_accepted :
  let st := run [EditBet (Some 20000%Z)]
                (initGame ChipManager.Available (Some 50000%Z) (Some 100%Z)) in
  reachable st /\
  parsedOr100 (betInput st) = 20000%Z /\
  (10000 < parsedOr100 (betInput st))%Z /\
  ChipManager.balance (chips st) = 50000%Z /\
  ChipManager.balance (chips (dropBall 0.5 st)) = 30000%Z /\
  balls (dropBall 0.5 st) = [0].
Proof.
  cbv zeta. split.
  - apply reachable_run. constructor. intros v [= <-]. lia.
  - repeat split; reflexivity.
Qed.

(** C5, amended.  A drop request whose wager is below the minimum stake of
    10, or exceeds the current balance, is rejected and mutates nothing but
    the alert shown: the balance is not debited and no ball is created or
    put in flight.  The wager is the parsed bet field, 100 when the field
    parses to 0 or to no number.  [dropBall] has no maximum; 10000 is the
    upper end of the clamp in [adjustBet]. *)
Theorem drop_rejected_without_mutation (st : State) (random : Q) :
  let bet := parsedOr100 (betInput st) in
  ((bet < 10)%Z \/ (ChipManager.balance (chips st) < bet)%Z) ->
  let st' := dropBall random st in
  ChipManager.balance (chips st') = ChipManager.balance (chips st) /\
  balls st' = balls st /\
  heap st' = heap st /\
  world st' = world st /\
  timers st' = timers st /\
  isDropping st' = isDropping st /\
  betInput st' = betInput st /\
  forall delta, exists v,
    betInput (adjustBet delta st) = Some v /\ (10 <= v <= 10000)%Z.
Proof.
  cbv zeta. intros Hbad.
  assert (forall delta, exists v,
            betInput (adjustBet delta st) = Some v /\ (10 <= v <= 10000)%Z)
    as Hclamp by (intros delta; eexists; split; [reflexivity | lia]).
  drop_cases random st; simpl; rewrite ?balance_getBalance; auto 10.
  exfalso. destruct Hbad as [Hlow | Hpoor]; [lia |].
  match goal with H : JS.ltb _ _ = false |- _ => apply ltb_ge in H;
    rewrite <- Zle_Qle in H; lia end.
Qed.

Lemma drop_rejected_without_mutation_witness :
  let st := initGame ChipManager.Available (Some 500%Z) (Some 1000%Z) in
  ChipManager.balance (chips (dropBall 0.5 st)) = 500%Z /\
  balls (dropBall 0.5 st) = [].
Proof.
  cbv zeta.
  assert ((1000 < 10)%Z \/ (500 < 1000)%Z) as Hbad by (right; lia).
  destruct (drop_rejected_without_mutation
              (initGame ChipManager.Available (Some 500%Z) (Some 1000%Z))
              0.5 Hbad) as (Hbal & Hballs & _).
  split; [exact Hbal | exact Hballs].
Defined.

(** *** Settlement *)

Lemma multiplierIndexOf_range (bucketIndex : nat) :
  (0 <= multiplierIndexOf bucketIndex < 13)%Z.
Proof.
  unfold multiplierIndexOf. change (length (multipliers CONFIG)) with 13. lia.
Qed.

Lemma multiplierAt_nonneg (multiplierIndex : Z) :
  (0 <= multiplierAt multiplierIndex)%Q.
Proof.
  unfold multiplierAt. destruct (Z.to_nat multiplierIndex) as [| n];
    [Qdecide |].
  do 12 (destruct n as [| n]; [Qdecide |]).
  destruct n; Qdecide.
Qed.

Lemma winAmountOf_nonneg (bet : Z) (multiplier : Q) :
  (0 <= bet)%Z -> (0 <= multiplier)%Q -> (0 <= winAmountOf bet multiplier)%Z.
Proof.
  intros Hbet Hm. apply Qfloor_nonneg, fl_nonneg.
  apply Qmult_le_0_compat; [| exact Hm].
  change 0%Q with (inject_Z 0). now rewrite <- Zle_Qle.
Qed.

(** The floor of a non-negative number is its truncation toward zero. *)
Lemma Qfloor_truncates (q : Q) :
  (0 <= q)%Q -> Qfloor q = (Qnum q ÷ Z.pos (Qden q))%Z.
Proof.
  intros Hq. destruct q as [n d]. unfold Qle in Hq. simpl in *.
  rewrite Z.quot_div_nonneg by lia. reflexivity.
Qed.

(** **** The payout, multiplier by multiplier

    Five of the seven multipliers are binary64 numbers and their products
    with a bet up to [2^48] are too: nothing is rounded.  [1.2] and [0.3]
    are not; the table holds the binary64 numbers just below them, and the
    rounding of the product makes up for it. *)

Lemma winAmountOf_exact (w num e : Z) (d : Q) :
  (JS.fl d == d)%Q ->
  (inject_Z w * d == inject_Z num * JS.pow2 e)%Q ->
  (Z.abs num < 2 ^ 53)%Z -> (-1074 <= e)%Z ->
  winAmountOf w (JS.fl d) = Qfloor (inject_Z w * d).
Proof.
  intros Hd Hgrid Hnum He. unfold winAmountOf, JS.mul.
  rewrite (fl_comp _ (inject_Z w * d)%Q) by (now rewrite Hd).
  apply Qfloor_comp. exact (fl_exact _ num e Hgrid Hnum He).
Qed.

Lemma fl_1_2 : JS.fl 1.2 = 5404319552844595 # 4503599627370496.
Proof. vm_compute. reflexivity. Qed.

Lemma fl_0_3 : JS.fl 0.3 = 5404319552844595 # 18014398509481984.
Proof. vm_compute. reflexivity. Qed.

(** The two cases of a product with a multiplier just below a decimal:
    the exact product a positive integer [k] (the rounding brings it back
    to [k]), or from [k] up to [k + 15/16]. *)
Lemma winAmountOf_inexact (w k : Z) (c : Q) :
  (0 <= k)%Z -> (16 * k + 15 < 2 ^ 53)%Z ->
  (((0 < k)%Z /\
    inject_Z w * c <= inject_Z k /\
    (inject_Z k - inject_Z w * c) * inject_Z (2 ^ 54) < inject_Z k) \/
   (inject_Z k <= inject_Z w * c /\
    inject_Z w * c <= inject_Z k + (15 # 16)))%Q ->
  Qfloor (JS.mul (inject_Z w) c) = k.
Proof.
  intros Hk0 Hk [(Hpos & Hle & Hnear) | [Hlo Hhi]]; unfold JS.mul.
  - rewrite (Qfloor_comp _ (inject_Z k)); [apply Qfloor_Z |].
    apply fl_below_integer; [literals; lia | exact Hle | exact Hnear].
  - now apply Qfloor_fl_fraction.
Qed.

Lemma winAmountOf_1_2 (w : Z) :
  (0 <= w <= 2 ^ 48)%Z ->
  winAmountOf w (JS.fl 1.2) = Qfloor (inject_Z w * 1.2).
Proof.
  intros Hw. unfold winAmountOf. rewrite fl_1_2. literals.
  pose proof (Z.div_mod (6 * w)%Z 5%Z ltac:(lia)) as Hdm.
  pose proof (Z.mod_pos_bound (6 * w)%Z 5%Z ltac:(lia)) as Hj.
  set (k := (6 * w / 5)%Z) in *. set (j := ((6 * w) mod 5)%Z) in *.
  assert (6 * inject_Z w == 5 * inject_Z k + inject_Z j)%Q as HQ.
  { change 6%Q with (inject_Z 6). change 5%Q with (inject_Z 5).
    rewrite <- !inject_Z_mult, <- inject_Z_plus. now rewrite Hdm. }
  assert (0 <= inject_Z w)%Q as Hw0
    by (change 0%Q with (inject_Z 0); rewrite <- Zle_Qle; lia).
  assert (inject_Z w <= 281474976710656)%Q as Hw1
    by (change 281474976710656%Q with (inject_Z 281474976710656);
        rewrite <- Zle_Qle; lia).
  assert (0 <= inject_Z j)%Q as Hj0
    by (change 0%Q with (inject_Z 0); rewrite <- Zle_Qle; lia).
  assert (inject_Z j <= 4)%Q as Hj1
    by (change 4%Q with (inject_Z 4); rewrite <- Zle_Qle; lia).
  assert (Qfloor (inject_Z w * 1.2) = k) as ->.
  { apply Qfloor_unique; rewrite ?inject_Z_succ; lra. }
  apply winAmountOf_inexact; [lia | lia |].
  change (inject_Z (2 ^ 54)) with 18014398509481984%Q.
  destruct (Z.eq_dec j 0%Z) as [Hz | Hnz].
  - rewrite Hz in HQ. change (inject_Z 0) with 0%Q in HQ.
    destruct (Z.eq_dec w 0%Z) as [Hw2 | Hw2].
    + right. rewrite Hw2 in HQ |- *. change (inject_Z 0) with 0%Q in *.
      split; lra.
    + left. assert (0 < inject_Z w)%Q
        by (change 0%Q with (inject_Z 0); rewrite <- Zlt_Qlt; lia).
      split; [lia | split; lra].
  - right.
    assert (1 <= inject_Z j)%Q
      by (change 1%Q with (inject_Z 1); rewrite <- Zle_Qle; lia).
    split; lra.
Qed.

Lemma winAmountOf_0_3 (w : Z) :
  (0 <= w <= 2 ^ 48)%Z ->
  winAmountOf w (JS.fl 0.3) = Qfloor (inject_Z w * 0.3).
Proof.
  intros Hw. unfold winAmountOf. rewrite fl_0_3. literals.
  pose proof (Z.div_mod (3 * w)%Z 10%Z ltac:(lia)) as Hdm.
  pose proof (Z.mod_pos_bound (3 * w)%Z 10%Z ltac:(lia)) as Hj.
  set (k := (3 * w / 10)%Z) in *. set (j := ((3 * w) mod 10)%Z) in *.
  assert (3 * inject_Z w == 10 * inject_Z k + inject_Z j)%Q as HQ.
  { change 3%Q with (inject_Z 3). change 10%Q with (inject_Z 10).
    rewrite <- !inject_Z_mult, <- inject_Z_plus. now rewrite Hdm. }
  assert (0 <= inject_Z w)%Q as Hw0
    by (change 0%Q with (inject_Z 0); rewrite <- Zle_Qle; lia).
  assert (inject_Z w <= 281474976710656)%Q as Hw1
    by (change 281474976710656%Q with (inject_Z 281474976710656);
        rewrite <- Zle_Qle; lia).
  assert (0 <= inject_Z j)%Q as Hj0
    by (change 0%Q with (inject_Z 0); rewrite <- Zle_Qle; lia).
  assert (inject_Z j <= 9)%Q as Hj1
    by (change 9%Q with (inject_Z 9); rewrite <- Zle_Qle; lia).
  assert (Qfloor (inject_Z w * 0.3) = k) as ->.
  { apply Qfloor_unique; rewrite ?inject_Z_succ; lra. }
  apply winAmountOf_inexact; [lia | lia |].
  change (inject_Z (2 ^ 54)) with 18014398509481984%Q.
  destruct (Z.eq_dec j 0%Z) as [Hz | Hnz].
  - rewrite Hz in HQ. change (inject_Z 0) with 0%Q in HQ.
    destruct (Z.eq_dec w 0%Z) as [Hw2 | Hw2].
    + right. rewrite Hw2 in HQ |- *. change (inject_Z 0) with 0%Q in *.
      split; lra.
    + left. assert (0 < inject_Z w)%Q
        by (change 0%Q with (inject_Z 0); rewrite <- Zlt_Qlt; lia).
      split; [lia | split; lra].
  - right.
    assert (1 <= inject_Z j)%Q
      by (change 1%Q with (inject_Z 1); rewrite <- Zle_Qle; lia).
    split; lra.
Qed.

(** For every multiplier of the table and every bet up to [2^48] the
    payout is the floor of the bet times the multiplier as written. *)
Lemma winAmountOf_table (w : Z) (i : nat) :
  (0 <= w <= 2 ^ 48)%Z -> i < 13 ->
  winAmountOf w (multiplierAt (Z.of_nat i))
  = Qfloor (inject_Z w * nth i multiplierLiterals 0%Q).
Proof.
  intros Hw Hi.
  assert (forall d num e,
            (JS.fl d == d)%Q ->
            (inject_Z w * d == inject_Z num * JS.pow2 e)%Q ->
            (Z.abs num <= 10 * w)%Z -> (-1074 <= e)%Z ->
            winAmountOf w (JS.fl d) = Qfloor (inject_Z w * d)) as Hexact.
  { intros d num e Hd Hgrid Hnum He.
    apply (winAmountOf_exact w num e d Hd Hgrid); [literals; lia | exact He]. }
  assert (winAmountOf w (JS.fl 10) = Qfloor (inject_Z w * 10)) as H10.
  { apply (Hexact 10%Q (10 * w)%Z 0%Z); [reflexivity | | lia | lia].
    rewrite inject_Z_mult. change (JS.pow2 0) with 1%Q.
    change (inject_Z 10) with 10%Q. ring. }
  assert (winAmountOf w (JS.fl 3) = Qfloor (inject_Z w * 3)) as H3.
  { apply (Hexact 3%Q (3 * w)%Z 0%Z); [reflexivity | | lia | lia].
    rewrite inject_Z_mult. change (JS.pow2 0) with 1%Q.
    change (inject_Z 3) with 3%Q. ring. }
  assert (winAmountOf w (JS.fl 1.5) = Qfloor (inject_Z w * 1.5)) as H15.
  { apply (Hexact 1.5%Q (3 * w)%Z (-1)%Z); [reflexivity | | lia | lia].
    rewrite inject_Z_mult. change (JS.pow2 (-1)) with (1 # 2)%Q.
    change (inject_Z 3) with 3%Q. field. }
  assert (winAmountOf w (JS.fl 1) = Qfloor (inject_Z w * 1)) as H1.
  { apply (Hexact 1%Q w 0%Z); [reflexivity | | lia | lia].
    change (JS.pow2 0) with 1%Q. ring. }
  assert (winAmountOf w (JS.fl 0.5) = Qfloor (inject_Z w * 0.5)) as H05.
  { apply (Hexact 0.5%Q w (-1)%Z); [reflexivity | | lia | lia].
    change (JS.pow2 (-1)) with (1 # 2)%Q. field. }
  pose proof (winAmountOf_1_2 w Hw) as H12.
  pose proof (winAmountOf_0_3 w Hw) as H03.
  do 13 (destruct i as [| i]; [assumption |]). lia.
Qed.

Lemma multiplierLiterals_range (i : nat) :
  i < 13 ->
  (0 <= nth i multiplierLiterals 0 <= 10)%Q /\
  JS.geb (multiplierAt (Z.of_nat i)) 3
  = JS.geb (nth i multiplierLiterals 0%Q) 3.
Proof.
  intros Hi.
  do 13 (destruct i as [| i];
         [split; [split; vm_compute; intros H; discriminate H
                 | vm_compute; reflexivity] |]).
  lia.
Qed.

(** The payout of a bet up to [2^48] is at most ten times the bet. *)
Lemma floor_product_range (w : Z) (m : Q) :
  (0 <= w <= 2 ^ 48)%Z -> (0 <= m <= 10)%Q ->
  (0 <= Qfloor (inject_Z w * m) <= 2814749767106560)%Z.
Proof.
  intros Hw Hm.
  assert (0 <= inject_Z w)%Q as Hw0
    by (change 0%Q with (inject_Z 0); rewrite <- Zle_Qle; lia).
  assert (inject_Z w <= 281474976710656)%Q as Hw1
    by (change 281474976710656%Q with (inject_Z (2 ^ 48));
        rewrite <- Zle_Qle; lia).
  assert (0 <= inject_Z w * m)%Q as Hprod
    by (apply Qmult_le_0_compat; lra).
  assert (inject_Z w * m <= 2814749767106560)%Q as Hprod'.
  { assert (0 <= (281474976710656 - inject_Z w) * m)%Q
      by (apply Qmult_le_0_compat; lra).
    lra. }
  split; [now apply Qfloor_nonneg |].
  rewrite <- (Qfloor_Z 2814749767106560). now apply Qfloor_resp_le.
Qed.

Lemma multiplierIndexOf_nat (bucketIndex : nat) :
  exists i, i < 13 /\ multiplierIndexOf bucketIndex = Z.of_nat i.
Proof.
  pose proof (multiplierIndexOf_range bucketIndex) as H.
  exists (Z.to_nat (multiplierIndexOf bucketIndex)). lia.
Qed.

(** What [handleBallLanding] logs, and what it credits to a balance that
    stays within [2^53]. *)
Lemma handleBallLanding_log (st : State) (ball : nat) (b : Ball) :
  let index := multiplierIndexOf
                 (findBucketIndex (positionX b) (bucketPositions st)) in
  log (handleBallLanding ball b st)
  = Settled ball index (multiplierAt index)
            (winAmountOf (betAmount b) (multiplierAt index)) (betAmount b)
    :: log st.
Proof. reflexivity. Qed.

Lemma handleBallLanding_credit (st : State) (ball : nat) (b : Ball) :
  ChipManager.wf (chips st) -> (0 <= betAmount b)%Z ->
  let win := winAmountOf (betAmount b)
               (multiplierAt
                  (multiplierIndexOf
                     (findBucketIndex (positionX b) (bucketPositions st)))) in
  (ChipManager.balance (chips st) + win <= 2 ^ 53)%Z ->
  ChipManager.balance (chips (handleBallLanding ball b st))
  = (ChipManager.balance (chips st) + win)%Z.
Proof.
  intros Hwf Hbet win Hmax.
  unfold handleBallLanding. cbn [chips].
  apply balance_award.
  assert (0 <= win)%Z
    by (apply winAmountOf_nonneg; [lia | apply multiplierAt_nonneg]).
  pose proof (balance_nonneg _ Hwf). lia.
Qed.

Lemma handleBallLanding_balance (st : State) (ball : nat) (b : Ball) :
  reachable st ->
  heap st !! ball = Some b ->
  let win := winAmountOf (betAmount b)
               (multiplierAt
                  (multiplierIndexOf
                     (findBucketIndex (positionX b) (bucketPositions st)))) in
  (ChipManager.balance (chips st) + win <= 2 ^ 53)%Z ->
  ChipManager.balance (chips (handleBallLanding ball b st))
  = (ChipManager.balance (chips st) + win)%Z.
Proof.
  intros Hreach Hb.
  pose proof (Forall_lookup_1 _ _ _ _ (betsInv_reachable st Hreach) Hb)
    as Hbet. simpl in Hbet.
  apply handleBallLanding_credit; [now apply wf_reachable | lia].
Qed.

(** On the shipped board every landing is paid at index 0, multiplier 10:
    the scan finds no bucket.  Ten times the bet is what is paid as long as
    that product is within [2^53]. *)
Lemma winAmountOf_tenfold (bet : Z) :
  (Z.abs (10 * bet) <= 2 ^ 53)%Z -> winAmountOf bet 10 = (10 * bet)%Z.
Proof.
  intros H. unfold winAmountOf, JS.mul.
  rewrite (fl_comp _ (inject_Z (10 * bet)))
    by (rewrite inject_Z_mult; change (inject_Z 10) with 10%Q; ring).
  now apply Qfloor_fl_Z.
Qed.

Lemma shipped_landing_index (st : State) (ball : nat) (b : Ball) :
  reachable st ->
  head (log (handleBallLanding ball b st))
  = Some (Settled ball 0 10 (winAmountOf (betAmount b) 10) (betAmount b)).
Proof.
  intros Hreach. rewrite handleBallLanding_log. cbv zeta. cbn [head].
  rewrite (bucketPositions_reachable st Hreach), shipped_resolver_always_first.
  reflexivity.
Qed.

Lemma shipped_landing_pays_tenfold (st : State) (ball : nat) (b : Ball) :
  reachable st ->
  (Z.abs (10 * betAmount b) <= 2 ^ 53)%Z ->
  head (log (handleBallLanding ball b st))
  = Some (Settled ball 0 10 (10 * betAmount b) (betAmount b)).
Proof.
  intros Hreach Hmax.
  now rewrite shipped_landing_index, winAmountOf_tenfold.
Qed.

(** C6, as the claim has it, for a wager of 1801439850948199 on the shipped
    board (multiplier 10): the product 18014398509481990 is no binary64
    number, the program's product is 18014398509481992, and that is what
    is credited: two chips more than [floor(w * m)]. *)
Lemma huge_wager_is_credited_above_the_floor :
  let w := 1801439850948199%Z in
  let st := run [DropBall 0.5]
                (initGame ChipManager.Available (Some w) (Some w)) in
  let st' := step st (sensorHit 0) in
  reachable st /\
  heap st !! 0 = Some (mkBall w false 250) /\
  ChipManager.balance (chips st) = 0%Z /\
  head (log st') = Some (Settled 0 0 10 18014398509481992 w) /\
  ChipManager.balance (chips st') = 18014398509481992%Z /\
  Qfloor (inject_Z w * 10) = 18014398509481990%Z /\
  (Qfloor (inject_Z w * 10)
   < ChipManager.balance (chips st') - ChipManager.balance (chips st))%Z.
Proof.
  cbv zeta. split.
  - apply reachable_run. constructor. intros v [= <-]. lia.
  - repeat split; vm_compute; reflexivity.
Qed.

(** C6, amended.  On any board, settling a ball with a wager [w] up to
    [2^48] in the bucket of a multiplier written [m] in the table credits
    the balance (up to [2^52] before) with exactly [floor(w * m)]: an
    integer, never above [w * m], less than one below it, and its
    truncation toward zero.  That amount is what the player is shown. *)
Theorem settlement_credits_floor (st : State) (ball : nat) (b : Ball) :
  ChipManager.wf (chips st) ->
  (0 <= betAmount b <= 2 ^ 48)%Z ->
  (ChipManager.balance (chips st) <= 2 ^ 52)%Z ->
  let w := betAmount b in
  let index :=
    multiplierIndexOf (findBucketIndex (positionX b) (bucketPositions st)) in
  let m := nth (Z.to_nat index) multiplierLiterals 0%Q in
  let st' := handleBallLanding ball b st in
  let credited :=
    (ChipManager.balance (chips st') - ChipManager.balance (chips st))%Z in
  credited = Qfloor (inject_Z w * m) /\
  (inject_Z credited <= inject_Z w * m)%Q /\
  (inject_Z w * m < inject_Z (credited + 1))%Q /\
  credited = (Qnum (inject_Z w * m) ÷ Z.pos (Qden (inject_Z w * m)))%Z /\
  head (log st') = Some (Settled ball index (multiplierAt index) credited w).
Proof.
  intros Hwf Hbet Hmax. cbv zeta.
  destruct (multiplierIndexOf_nat
              (findBucketIndex (positionX b) (bucketPositions st)))
    as (i & Hi & Hindex).
  pose proof (winAmountOf_table (betAmount b) i Hbet Hi) as Hwin.
  rewrite <- Hindex in Hwin.
  set (index := multiplierIndexOf _) in *.
  replace (Z.to_nat index) with i by lia.
  set (m := nth i multiplierLiterals 0%Q) in *.
  destruct (multiplierLiterals_range i Hi) as [Hm _]. fold m in Hm.
  pose proof (floor_product_range (betAmount b) m Hbet Hm) as Hfloor.
  assert (0 <= inject_Z (betAmount b) * m)%Q as Hprod.
  { apply Qmult_le_0_compat; [| lra].
    change 0%Q with (inject_Z 0). rewrite <- Zle_Qle. lia. }
  assert (ChipManager.balance (chips (handleBallLanding ball b st))
          = (ChipManager.balance (chips st)
             + Qfloor (inject_Z (betAmount b) * m))%Z) as Hbal.
  { rewrite <- Hwin. apply handleBallLanding_credit; [exact Hwf | lia |].
    fold index. rewrite Hwin. literals. lia. }
  rewrite Hbal.
  replace (ChipManager.balance (chips st)
           + Qfloor (inject_Z (betAmount b) * m)
           - ChipManager.balance (chips st))%Z
    with (Qfloor (inject_Z (betAmount b) * m)) by lia.
  split; [reflexivity |].
  split; [apply Qfloor_le |].
  split; [apply Qlt_floor |].
  split; [now apply Qfloor_truncates |].
  rewrite handleBallLanding_log. cbv zeta. fold index.
  now rewrite Hwin.
Qed.

Lemma settlement_credits_floor_witness :
  let st := pageWithBall 500 15 65 in
  let st100 := pageWithBall 500 100 65 in
  ChipManager.balance (chips (handleBallLanding 0 (mkBall 15 false 65) st))
  = 504%Z /\
  ChipManager.balance
    (chips (handleBallLanding 0 (mkBall 100 false 65) st100)) = 530%Z /\
  multiplierIndexOf (findBucketIndex 65 (bucketPositions st)) = 6%Z /\
  nth 6 multiplierLiterals 0%Q = 0.3%Q /\
  Qfloor (15 * 0.3) = 4%Z /\ Qceiling (15 * 0.3) = 5%Z.
Proof.
  cbv zeta.
  assert (forall bet, ChipManager.wf (chips (pageWithBall 500 bet 65)))
    as Hwf by (intros bet; apply wf_init; intros v [= <-]; lia).
  destruct (settlement_credits_floor
              (pageWithBall 500 15 65) 0 (mkBall 15 false 65) (Hwf 15%Z))
    as (Hcredited & _);
    [vm_compute; split; discriminate | vm_compute; discriminate |].
  destruct (settlement_credits_floor
              (pageWithBall 500 100 65) 0 (mkBall 100 false 65) (Hwf 100%Z))
    as (Hcredited100 & _);
    [vm_compute; split; discriminate | vm_compute; discriminate |].
  apply Z.sub_move_r in Hcredited, Hcredited100.
  split; [rewrite Hcredited; vm_compute; reflexivity |].
  split; [rewrite Hcredited100; vm_compute; reflexivity |].
  repeat split; vm_compute; reflexivity.
Defined.

(** *** Landing once *)

Lemma settledCount_cons (ball : nat) (e : LogEntry) (l : list LogEntry) :
  settledCount ball (e :: l)
  = (if isSettled ball e then 1 else 0) + settledCount ball l.
Proof.
  unfold settledCount. simpl. destruct (isSettled ball e); reflexivity.
Qed.

Lemma settledInv_onPair (st : State) (pair : Body * Body) :
  settledInv st -> settledInv (onPair st pair).
Proof.
  intros Hinv. pair_cases st pair; try exact Hinv.
  intros other. specialize (Hinv other). simpl.
  assert (ball < length (heap st)) as Hlt
    by (eapply lookup_lt_Some; eassumption).
  rewrite settledCount_cons. simpl.
  destruct (Nat.eqb_spec ball other) as [<- | Hne].
  - rewrite list_lookup_insert_eq by exact Hlt. simpl.
    replace (heap st !! ball) with (Some b) in Hinv.
    replace (landed b) with false in Hinv. lia.
  - rewrite list_lookup_insert_ne by exact Hne. exact Hinv.
Qed.

Lemma settledInv_step (st : State) (ev : Event) :
  settledInv st -> settledInv (step st ev).
Proof.
  intros Hinv. destruct ev as [random | | | | | ball x | pairs | k |]; simpl;
    try exact Hinv.
  - drop_cases random st; try exact Hinv.
    intros ball. specialize (Hinv ball).
    unfold spawnBall. cbn [heap log withChips]. rewrite Hinv.
    destruct (heap st !! ball) as [b |] eqn:Hb.
    + now rewrite (lookup_app_l_Some _ _ _ _ Hb).
    + apply lookup_ge_None in Hb.
      destruct (Nat.eq_dec ball (length (heap st))) as [-> | Hne].
      * now rewrite list_lookup_middle.
      * rewrite lookup_ge_None_2; [reflexivity |].
        rewrite length_app. simpl. lia.
  - unfold moveBall. destruct (heap st !! ball) as [b |] eqn:Hb;
      [| exact Hinv].
    intros other. specialize (Hinv other). simpl.
    destruct (Nat.eq_dec ball other) as [<- | Hne].
    + rewrite list_lookup_insert_eq
        by (eapply lookup_lt_Some; eassumption).
      simpl. now rewrite Hb in Hinv.
    + now rewrite list_lookup_insert_ne.
  - revert Hinv. apply onCollisionStart_preserves. clear.
    intros st pair. apply settledInv_onPair.
  - timer_cases k st; try exact Hinv.
    + unfold reenableDrop. simpl.
      destruct (length (balls st) <? 5); exact Hinv.
    + unfold removeBall.
      destruct (length _ =? 0); exact Hinv.
Qed.

Lemma settledInv_reachable (st : State) : reachable st -> settledInv st.
Proof.
  induction 1 as [m item bet _ | st ev _ IH].
  - intros ball. reflexivity.
  - now apply settledInv_step.
Qed.

Lemma landedAt_onPair (id : nat) (st : State) (pair : Body * Body) :
  landedAt id st -> landedAt id (onPair st pair).
Proof.
  intros Hl. pose proof Hl as (b0 & Hb0 & Hflag).
  pair_cases st pair; try exact Hl.
  unfold landedAt. simpl.
  destruct (Nat.eq_dec ball id) as [-> | Hne].
  - eexists. split;
      [apply list_lookup_insert_eq; eapply lookup_lt_Some; eassumption
      | reflexivity].
  - exists b0. split; [| exact Hflag]. now rewrite list_lookup_insert_ne.
Qed.

(** Nothing takes the flag down again. *)
Lemma landedAt_step (id : nat) (st : State) (ev : Event) :
  landedAt id st -> landedAt id (step st ev).
Proof.
  intros Hl. pose proof Hl as (b0 & Hb0 & Hflag).
  destruct ev as [random | | | | | other x | pairs | k |]; simpl;
    try exact Hl.
  - drop_cases random st; try exact Hl.
    exists b0. split; [| exact Hflag].
    unfold spawnBall. cbn [heap withChips]. now apply lookup_app_l_Some.
  - unfold moveBall. destruct (heap st !! other) as [b |] eqn:Hb;
      [| exact Hl].
    unfold landedAt. simpl.
    destruct (Nat.eq_dec other id) as [-> | Hne].
    + eexists. split.
      * apply list_lookup_insert_eq. eapply lookup_lt_Some; eassumption.
      * simpl. congruence.
    + exists b0. split; [| exact Hflag]. now rewrite list_lookup_insert_ne.
  - revert Hl. apply onCollisionStart_preserves. clear.
    intros st pair. apply landedAt_onPair.
  - timer_cases k st; try exact Hl.
    + unfold reenableDrop. simpl.
      destruct (length (balls st) <? 5); exact Hl.
    + unfold removeBall.
      destruct (length _ =? 0); exact Hl.
Qed.

Lemma landedAt_run (ball : nat) (evs : list Event) (st : State) :
  landedAt ball st -> landedAt ball (run evs st).
Proof.
  unfold run. revert st. induction evs as [| ev evs IH]; intros st Hl; simpl.
  - exact Hl.
  - apply IH, landedAt_step, Hl.
Qed.

(** What one report of the sensor does. *)
Lemma sensorHit_eq (ball : nat) (st : State) :
  step st (sensorHit ball)
  = match heap st !! ball with
    | Some b => if landed b then st
                else handleBallLanding ball b (setLanded ball b st)
    | None => st
    end.
Proof. reflexivity. Qed.








End GameFacts.

(** ** The machine's binary64 *)

Module Binary64Facts.

Import Binary64.

(** On the shipped constants the program's arithmetic is exact: all sixteen
    buckets have the bounds the rational model gives them. *)
Example binary64_bounds_agree :
  forallb agreesAt (seq 0 16) = true.
Proof. vm_compute. reflexivity. Qed.

(** So the inner buckets are points there too. *)
Example binary64_inner_buckets_are_points :
  forallb (fun i => PrimFloat.eqb (leftBound64 i) (rightBound64 i))
          (seq 1 14) = true.
Proof. vm_compute. reflexivity. Qed.

(** [Math.floor(100 * 0.3)] is 30 on the machine. *)
Example binary64_payout_100_at_three_tenths :
  (PrimFloat.leb 30 (100 * threeTenths)
   && PrimFloat.ltb (100 * threeTenths) 31)%bool = true.
Proof. vm_compute. reflexivity. Qed.

(** [JS.add], [JS.sub], [JS.mul] and [JS.div] give what the machine gives
    on every sample, and [JS.fl] reads the literals as the machine does. *)
Example binary64_arithmetic_agrees :
  forallb sameArithmetic samples = true /\ literalsAgree = true.
Proof. split; vm_compute; reflexivity. Qed.

End Binary64Facts.

(** ** More on the ledger *)

Module LedgerExtras.

Import ChipManager ChipManagerPlain JSFacts ChipManagerFacts.
Local Open Scope Z_scope.

(** X1.  Reading the balance twice is reading it once: the second
    [getBalance] returns the same value and changes nothing.  The first one
    dispatches a notification (carrying 10000) exactly when it finds the
    storage readable and the key absent, and none otherwise. *)
Theorem getBalance_initialises_once (s : State) :
  getBalance (snd (getBalance s)) = (balance s, snd (getBalance s)) /\
  dispatched (snd (getBalance s))
  = match useMemoryFallback s, getItemThrows (storage s), storedItem s with
    | false, false, None => INITIAL_BALANCE :: dispatched s
    | _, _, _ => dispatched s
    end /\
  (dispatched (snd (getBalance s)) <> dispatched s ->
   balance s = INITIAL_BALANCE).
Proof.
  unfold balance.
  destruct s as [fallback memory item mode events].
  destruct fallback, memory, item, mode; simpl;
    (split; [reflexivity | split; [reflexivity |]]);
    intros H; first [reflexivity | now contradiction H].
Qed.

(** X2.  [canAfford] answers what [deduct] would return, and itself leaves
    the balance alone: it does to the ledger what a [getBalance] does. *)
Theorem canAfford_predicts_deduct (s : State) (amount : Q) :
  fst (canAfford amount s) = fst (deduct amount s) /\
  balance (snd (canAfford amount s)) = balance s /\
  snd (canAfford amount s) = snd (getBalance s).
Proof.
  rewrite canAfford_eq, deduct_eq, geb_negb_ltb. simpl.
  split; [| split; [apply balance_getBalance | reflexivity]].
  destruct (JS.ltb _ _); reflexivity.
Qed.

Lemma Qceiling_le_Z (a : Q) (b : Z) : (a <= inject_Z b)%Q -> Qceiling a <= b.
Proof.
  intros H. rewrite <- (Qceiling_Z b). now apply Qceiling_resp_le.
Qed.

Lemma Qceiling_nonneg (a : Q) : (0 <= a)%Q -> 0 <= Qceiling a.
Proof.
  intros H. change 0 with (Qceiling 0). now apply Qceiling_resp_le.
Qed.

(** X3.  A fractional amount moves whole chips.  On a balance that stays
    within [2^53], awarding a non-negative amount adds its floor or its
    ceiling, and deducting one the balance covers removes its ceiling or its
    floor: the sum (the difference) is rounded to binary64 before the floor
    is taken.  When the sum is a binary64 number as it stands, the floor of
    the amount is added; when the difference is, the ceiling of the amount is
    removed. *)
Theorem fractions_move_whole_chips (s : State) (a : Q) :
  wf s -> (0 <= a)%Q ->
  (inject_Z (balance s) + a <= inject_Z (2 ^ 53))%Q ->
  let credited := balance (snd (award a s)) - balance s in
  let debited := balance s - balance (snd (deduct a s)) in
  Qfloor a <= credited <= Qceiling a /\
  ((JS.add (inject_Z (balance s)) a == inject_Z (balance s) + a)%Q ->
   credited = Qfloor a) /\
  ((a <= inject_Z (balance s))%Q ->
   fst (deduct a s) = true /\
   Qfloor a <= debited <= Qceiling a /\
   ((JS.sub (inject_Z (balance s)) a == inject_Z (balance s) - a)%Q ->
    debited = Qceiling a)).
Proof.
  intros Hwf Ha Hmax. cbv zeta.
  pose proof (balance_nonneg s Hwf) as Hb.
  pose proof (Qfloor_nonneg a Ha) as Hfl.
  pose proof (Qfloor_le a) as Hfa. pose proof (Qle_ceiling a) as Hca.
  pose proof (Qle_floor_ceiling a) as Hfc. rewrite <- Zle_Qle in Hfc.
  assert (inject_Z 0 <= inject_Z (balance s))%Q as HbQ
    by now rewrite <- Zle_Qle.
  change (inject_Z 0) with 0%Q in HbQ.
  assert (balance s + Qceiling a <= 2 ^ 53) as Hceil.
  { assert (Qceiling a <= 2 ^ 53 - balance s); [| lia].
    apply Qceiling_le_Z. unfold Z.sub.
    rewrite inject_Z_plus, inject_Z_opp. lra. }
  split; [| split].
  - rewrite award_eq.
    destruct (Qfloor_fl_between_Z (balance s + Qfloor a)
                (balance s + Qceiling a) (inject_Z (balance s) + a)%Q)
      as [Hlo Hhi]; [lia | lia | rewrite inject_Z_plus; lra
                    | rewrite inject_Z_plus; lra |].
    fold (JS.add (inject_Z (balance s)) a) in Hlo, Hhi.
    rewrite balance_setBalance_small by (literals; lia). lia.
  - intros Hexact. rewrite award_eq.
    assert (Qfloor (JS.add (inject_Z (balance s)) a)
            = balance s + Qfloor a) as Hsum
      by (rewrite (Qfloor_comp _ _ Hexact); apply Qfloor_add_Z).
    rewrite balance_setBalance_small; rewrite Hsum; literals; lia.
  - intros Hle.
    assert (JS.ltb (inject_Z (balance s)) a = false) as Hguard
      by now apply ltb_ge.
    rewrite deduct_eq, Hguard. cbn [fst snd].
    pose proof (Qceiling_le_Z a (balance s) Hle) as Hcb.
    split; [reflexivity |]. split.
    + destruct (Qfloor_fl_between_Z (balance s - Qceiling a)
                  (balance s - Qfloor a) (inject_Z (balance s) - a)%Q)
        as [Hlo Hhi];
        [ lia | lia
        | unfold Z.sub; rewrite inject_Z_plus, inject_Z_opp; lra
        | unfold Z.sub; rewrite inject_Z_plus, inject_Z_opp; lra |].
      fold (JS.sub (inject_Z (balance s)) a) in Hlo, Hhi.
      rewrite balance_setBalance_small by (literals; lia). lia.
    + intros Hexact.
      assert (Qfloor (JS.sub (inject_Z (balance s)) a)
              = balance s - Qceiling a) as Hdiff.
      { rewrite (Qfloor_comp _ _ Hexact). unfold Qceiling.
        replace (balance s - - Qfloor (- a)) with (balance s + Qfloor (- a))
          by lia.
        rewrite <- Qfloor_add_Z. apply Qfloor_comp. ring. }
      rewrite balance_setBalance_small; rewrite Hdiff; literals; lia.
Qed.

Lemma fractions_move_whole_chips_witness :
  (balance (snd (award (1 # 2) ledger500)) = 500 /\
   fst (deduct (1 # 2) ledger500) = true /\
   balance (snd (deduct (1 # 2) ledger500)) = 499) /\
  (balance (snd (award (9007199254740991 # 9007199254740992) ledger500))
   = 501 /\
   balance (snd (deduct (1 # 1180591620717411303424) ledger500)) = 500).
Proof.
  assert (0 <= 1 # 2)%Q as Ha by (intros H; discriminate H).
  assert (inject_Z (balance ledger500) + (1 # 2) <= inject_Z (2 ^ 53))%Q
    as Hmax by (vm_compute; discriminate).
  destruct (fractions_move_whole_chips ledger500 (1 # 2) wf_ledger500 Ha Hmax)
    as (_ & Haward & Hdeduct).
  split; [| split; vm_compute; reflexivity].
  split; [specialize (Haward ltac:(vm_compute; reflexivity));
          change (balance ledger500) with 500 in Haward;
          change (Qfloor (1 # 2)) with 0 in Haward; lia |].
  destruct Hdeduct as (Htrue & _ & Hbal); [intros H; discriminate H |].
  split; [exact Htrue |].
  specialize (Hbal ltac:(vm_compute; reflexivity)).
  change (balance ledger500) with 500 in Hbal.
  change (Qceiling (1 # 2)) with 1 in Hbal. lia.
Defined.

(** A ledger that came up with its storage blocked. *)
Lemma wf_blocked : wf (init Blocked (Some 500)).
Proof. apply wf_init. intros v [= <-]. lia. Qed.

(** X4.  The memory fallback is never left: once it is on, every operation
    keeps it on and leaves the stored item as it is. *)
Theorem fallback_is_sticky (s : State) (a : Q) :
  useMemoryFallback s = true ->
  let kept (s' : State) :=
    useMemoryFallback s' = true /\ storedItem s' = storedItem s in
  kept (snd (getBalance s)) /\
  kept (snd (setBalance a s)) /\
  kept (snd (deduct a s)) /\
  kept (snd (award a s)) /\
  kept (snd (reset s)) /\
  kept (snd (canAfford a s)).
Proof.
  intros Hon. cbv zeta.
  assert (forall t, useMemoryFallback t = true ->
            useMemoryFallback (snd (getBalance t)) = true /\
            storedItem (snd (getBalance t)) = storedItem t) as Hget.
  { intros [fallback memory item mode events] Ht. simpl in Ht. subst.
    destruct memory; split; reflexivity. }
  assert (forall x t, useMemoryFallback t = true ->
            useMemoryFallback (snd (setBalance x t)) = true /\
            storedItem (snd (setBalance x t)) = storedItem t) as Hset.
  { intros x [fallback memory item mode events] Ht. simpl in Ht. subst.
    split; reflexivity. }
  destruct (Hget s Hon) as [Hg1 Hg2].
  split; [auto |]. split; [auto |].
  split; [| split; [| split]].
  - rewrite deduct_eq. destruct (JS.ltb _ _); cbn [snd]; [auto |].
    destruct (Hset (JS.sub (inject_Z (balance s)) a) _ Hg1) as [-> ->]. auto.
  - rewrite award_eq.
    destruct (Hset (JS.add (inject_Z (balance s)) a) _ Hg1) as [-> ->]. auto.
  - unfold reset. auto.
  - rewrite canAfford_eq. cbn [snd]. auto.
Qed.

Lemma fallback_is_sticky_witness :
  useMemoryFallback (snd (award 7 (init Blocked (Some 500)))) = true /\
  storedItem (snd (award 7 (init Blocked (Some 500)))) = Some 500.
Proof.
  destruct (fallback_is_sticky (init Blocked (Some 500)) 7 eq_refl)
    as (_ & _ & _ & Haward & _).
  exact Haward.
Defined.

(** X5.  Storage failures are absorbed.  When [setItem] throws,
    [setBalance] still returns the clamped value, keeps it as the balance in
    memory and turns the fallback on, the stored item staying as it was.
    When [getItem] throws and nothing is in memory yet, [getBalance] answers
    10000 whatever the storage holds. *)
Theorem storage_failure_is_absorbed (s : State) (a : Q) :
  useMemoryFallback s = false ->
  (setItemThrows (storage s) = true ->
   let s' := snd (setBalance a s) in
   fst (setBalance a s) = Z.max 0 (Qfloor a) /\
   balance s' = Z.max 0 (Qfloor a) /\
   useMemoryFallback s' = true /\
   storedItem s' = storedItem s) /\
  (getItemThrows (storage s) = true -> memoryBalance s = None ->
   fst (getBalance s) = INITIAL_BALANCE /\
   useMemoryFallback (snd (getBalance s)) = true /\
   storedItem (snd (getBalance s)) = storedItem s).
Proof.
  intros Hoff. destruct s as [fallback memory item mode events].
  simpl in Hoff. subst. split.
  - intros Hthrows. simpl in Hthrows. cbv zeta.
    split; [apply setBalance_fst |].
    unfold balance, setBalance, bind. simpl. rewrite Hthrows.
    repeat split.
  - intros Hthrows Hnone. simpl in *. subst.
    unfold getBalance. simpl. rewrite Hthrows. repeat split.
Qed.

Lemma storage_failure_is_absorbed_witness :
  let s := mkState false None (Some 500) Blocked [] in
  fst (setBalance 42 s) = 42 /\
  fst (getBalance s) = 10000.
Proof.
  cbv zeta.
  destruct (storage_failure_is_absorbed
              (mkState false None (Some 500) Blocked []) 42 eq_refl)
    as [Hset Hget].
  split.
  - destruct (Hset eq_refl) as [Hv _]. exact Hv.
  - destruct (Hget eq_refl eq_refl) as [Hv _]. exact Hv.
Defined.

(** X6.  Beyond what its [getBalance] dispatches, [award] dispatches exactly
    one notification, carrying the balance it returns; so does a [deduct]
    that succeeds, carrying the balance it has written; a [deduct] that
    fails and [canAfford] dispatch none.  Below [10^21] the value notified
    is the balance read afterwards. *)
Theorem one_notification_per_mutation (s : State) (a : Q) :
  let returned := fst (award a s) in
  let remaining := Z.max 0 (Qfloor (JS.sub (inject_Z (balance s)) a)) in
  dispatched (snd (award a s))
  = returned :: dispatched (snd (getBalance s)) /\
  (returned < 10 ^ 21 -> balance (snd (award a s)) = returned) /\
  dispatched (snd (deduct a s))
  = (if fst (deduct a s) then [remaining] else [])
    ++ dispatched (snd (getBalance s)) /\
  (fst (deduct a s) = true -> remaining < 10 ^ 21 ->
   balance (snd (deduct a s)) = remaining) /\
  dispatched (snd (canAfford a s)) = dispatched (snd (getBalance s)).
Proof.
  cbv zeta. rewrite award_eq, deduct_eq, canAfford_eq.
  split; [| split; [| split; [| split]]].
  - now rewrite setBalance_dispatched, setBalance_fst.
  - rewrite setBalance_fst. apply balance_setBalance_small.
  - destruct (JS.ltb _ _); cbn [fst snd]; [reflexivity |].
    now rewrite setBalance_dispatched.
  - destruct (JS.ltb _ _); cbn [fst snd]; [discriminate |].
    intros _. apply balance_setBalance_small.
  - reflexivity.
Qed.

(** *** The variant without the fallback *)

Ltac plain_cases p :=
  destruct p as [item mode events]; destruct item, mode;
  unfold plainDeduct, plainAward, plainCanAfford, plainReset,
    plainGetBalance, plainSetBalance, plainGetItem, plainSetItem,
    plainDispatch, pbind, pret;
  cbn [plainItem plainStorage plainDispatched getItemThrows setItemThrows].

Lemma getBalance_available (mem it : option Z) (ev : list Z) :
  getBalance (mkState false mem it Available ev)
  = match it with
    | Some v => (JS.parseIntOfToString v, mkState false mem it Available ev)
    | None => (INITIAL_BALANCE,
               mkState false mem (Some INITIAL_BALANCE) Available
                       (INITIAL_BALANCE :: ev))
    end.
Proof. destruct it; reflexivity. Qed.

Lemma setBalance_available (x : Q) (mem it : option Z) (ev : list Z) :
  setBalance x (mkState false mem it Available ev)
  = (Z.max 0 (Qfloor x),
     mkState false mem (Some (Z.max 0 (Qfloor x))) Available
             (Z.max 0 (Qfloor x) :: ev)).
Proof. reflexivity. Qed.

Lemma plainGetBalance_available (it : option Z) (ev : list Z) :
  plainGetBalance (mkPlain it Available ev)
  = match it with
    | Some v => Returns (JS.parseIntOfToString v) (mkPlain it Available ev)
    | None => Returns INITIAL_BALANCE
                      (mkPlain (Some INITIAL_BALANCE) Available
                               (INITIAL_BALANCE :: ev))
    end.
Proof. destruct it; reflexivity. Qed.

Lemma plainSetBalance_available (x : Q) (it : option Z) (ev : list Z) :
  plainSetBalance x (mkPlain it Available ev)
  = Returns (Z.max 0 (Qfloor x))
            (mkPlain (Some (Z.max 0 (Qfloor x))) Available
                     (Z.max 0 (Qfloor x) :: ev)).
Proof. reflexivity. Qed.

(** X7.  While the storage works and the fallback is off, the two versions
    of the module are the same ledger: each operation returns the same
    value, leaves the same item in storage and dispatches the same
    notifications, and the fallback stays off. *)
Theorem fallback_version_refines_plain (s : State) (a : Q) :
  useMemoryFallback s = false -> storage s = Available ->
  plainGetBalance (plainOf s) = asOutcome (getBalance s) /\
  plainSetBalance a (plainOf s) = asOutcome (setBalance a s) /\
  plainDeduct a (plainOf s) = asOutcome (deduct a s) /\
  plainAward a (plainOf s) = asOutcome (award a s) /\
  plainReset (plainOf s) = asOutcome (reset s) /\
  plainCanAfford a (plainOf s) = asOutcome (canAfford a s) /\
  useMemoryFallback (snd (deduct a s)) = false /\
  useMemoryFallback (snd (award a s)) = false.
Proof.
  intros Hoff Hmode. destruct s as [fallback memory item mode events].
  simpl in Hoff, Hmode. subst.
  unfold plainOf, plainDeduct, plainAward, plainCanAfford, plainReset,
    deduct, award, canAfford, reset, pbind, bind.
  cbn [storedItem storage dispatched].
  rewrite !plainGetBalance_available, !getBalance_available,
    !plainSetBalance_available, !setBalance_available.
  destruct item as [v |];
    repeat match goal with
           | |- context [JS.ltb ?x a] => destruct (JS.ltb x a)
           end;
    rewrite ?plainSetBalance_available, ?setBalance_available;
    repeat split.
Qed.

Lemma fallback_version_refines_plain_witness :
  plainDeduct 120 (plainOf ledger500) = asOutcome (deduct 120 ledger500) /\
  plainAward 30 (plainOf ledger500) = asOutcome (award 30 ledger500).
Proof.
  destruct (fallback_version_refines_plain ledger500 120 eq_refl eq_refl)
    as (_ & _ & Hdeduct & _).
  destruct (fallback_version_refines_plain ledger500 30 eq_refl eq_refl)
    as (_ & _ & _ & Haward & _).
  split; [exact Hdeduct | exact Haward].
Defined.

(** X8.  In the variant a storage call that throws ends the operation with
    nothing done: whenever one of the six operations throws, the stored item
    and the notifications are what they were before the call. *)
Theorem plain_throw_leaves_state (p s' : PlainState) (a : Q) :
  (plainGetBalance p = Throws s' -> s' = p) /\
  (plainSetBalance a p = Throws s' -> s' = p) /\
  (plainDeduct a p = Throws s' -> s' = p) /\
  (plainAward a p = Throws s' -> s' = p) /\
  (plainReset p = Throws s' -> s' = p) /\
  (plainCanAfford a p = Throws s' -> s' = p) /\
  (setItemThrows (plainStorage p) = true ->
   plainSetBalance a p = Throws p /\ plainReset p = Throws p).
Proof.
  plain_cases p; repeat split; intros; repeat split;
    repeat match goal with
           | H : context [JS.ltb ?x ?y] |- _ => destruct (JS.ltb x y)
           end;
    cbn [plainItem plainStorage plainDispatched getItemThrows setItemThrows]
      in *;
    congruence.
Qed.

End LedgerExtras.

(** ** More on the board and the controls *)

Module PlinkoExtras.

Import Plinko PlinkoUI PlinkoBooks JSFacts ChipManagerFacts LayoutFacts
  GameFacts.

(** *** Pegs *)

Section PegRows.

Variable cfg : Config.




End PegRows.


(** *** The result shown *)

Lemma Qfloor_ge_iff (x : Q) (k : Z) :
  (k <= Qfloor x)%Z <-> (inject_Z k <= x)%Q.
Proof.
  split; intros H.
  - apply Qle_trans with (inject_Z (Qfloor x)); [| apply Qfloor_le].
    now rewrite <- Zle_Qle.
  - pose proof (Qlt_floor x) as Hlt.
    assert (inject_Z k < inject_Z (Qfloor x + 1))%Q as H1
      by (eapply Qle_lt_trans; eassumption).
    rewrite <- Zlt_Qlt in H1. lia.
Qed.

(** What [updateResult] shows for a payout that is the floor of the bet
    times [d]. *)
Lemma updateResult_classes (bet win : Z) (d m : Q) :
  (0 < bet)%Z -> (0 <= d)%Q ->
  win = Qfloor (inject_Z bet * d) ->
  (Z.abs (win - bet) <= 2 ^ 53)%Z ->
  JS.geb m 3 = JS.geb d 3 ->
  let v := updateResult m win bet in
  ((d < 1)%Q -> resultClass v = ResultLose /\ (shownProfit v < 0)%Z) /\
  ((d == 1)%Q -> resultClass v = ResultNeutral /\ shownProfit v = 0%Z) /\
  (resultClass v = ResultWin <-> (1 <= inject_Z bet * (d - 1))%Q) /\
  (resultClass v = ResultWin ->
   plusSign v = true /\ shownProfit v = (win - bet)%Z) /\
  (celebrate v = true -> resultClass v = ResultWin).
Proof.
  intros Hbet Hd Hwin_eq Hsafe Hgeb. cbv zeta.
  assert (0 < inject_Z bet)%Q as Hq
    by (change 0%Q with (inject_Z 0); now rewrite <- Zlt_Qlt).
  assert ((bet + 1 <= win)%Z
          <-> (1 <= inject_Z bet * (d - 1))%Q) as Hwin.
  { rewrite Hwin_eq, Qfloor_ge_iff, inject_Z_plus.
    change (inject_Z 1) with 1%Q. split; intros H; lra. }
  assert ((win <= bet - 1)%Z
          <-> (inject_Z bet * d < inject_Z bet)%Q) as Hlose.
  { rewrite Hwin_eq. split; intros H.
    - pose proof (Qlt_floor (inject_Z bet * d)) as Hlt.
      eapply Qlt_le_trans; [exact Hlt |]. rewrite <- Zle_Qle. lia.
    - pose proof (Qfloor_le (inject_Z bet * d)) as Hfl.
      assert (inject_Z (Qfloor (inject_Z bet * d)) < inject_Z bet)%Q as H1
        by (eapply Qle_lt_trans; eassumption).
      rewrite <- Zlt_Qlt in H1. lia. }
  assert ((d < 1)%Q -> (inject_Z bet * d < inject_Z bet)%Q) as Hbelow.
  { intros Hlt.
    assert (0 < inject_Z bet * (1 - d))%Q
      by (apply Qmult_lt_0_compat; lra).
    lra. }
  assert ((3 <= d)%Q -> (1 <= inject_Z bet * (d - 1))%Q) as Habove.
  { intros Hge.
    assert (inject_Z 1 <= inject_Z bet)%Q as Hone
      by (rewrite <- Zle_Qle; lia).
    change (inject_Z 1) with 1%Q in Hone.
    assert (0 <= (inject_Z bet - 1) * (d - 1))%Q
      by (apply Qmult_le_0_compat; lra).
    lra. }
  unfold updateResult. cbv zeta.
  rewrite (Qfloor_sub_ZZ win bet Hsafe), Hgeb.
  destruct (Z.ltb_spec 0 (win - bet)) as [Hpos | Hnpos];
    [| destruct (Z.ltb_spec (win - bet) 0) as [Hneg | Hnneg]];
    cbn [resultClass shownProfit plusSign celebrate].
  - assert (1 <= inject_Z bet * (d - 1))%Q as H1 by (apply Hwin; lia).
    split; [intros Hlt; exfalso; apply Hbelow in Hlt; lra |].
    split; [intros Heq; exfalso; rewrite Heq in H1; lra |].
    split; [tauto |]. split; [auto |]. auto.
  - assert (inject_Z bet * d < inject_Z bet)%Q as H1 by (apply Hlose; lia).
    split; [intros _; split; [reflexivity | lia] |].
    split; [intros Heq; exfalso; rewrite Heq in H1; lra |].
    split; [split; [discriminate | intros H; exfalso; lra] |].
    split; [discriminate |].
    intros Hc. exfalso. apply (proj1 (geb_ge d 3)) in Hc.
    apply Habove in Hc. lra.
  - assert (win = bet) as Heq by lia.
    assert (~ (1 <= inject_Z bet * (d - 1))%Q) as Hn1
      by (intros H; apply Hwin in H; lia).
    assert (~ (inject_Z bet * d < inject_Z bet)%Q) as Hn2
      by (intros H; apply Hlose in H; lia).
    split; [intros Hlt; exfalso; apply Hn2, Hbelow, Hlt |].
    split; [intros _; split; reflexivity |].
    split; [split; [discriminate | intros H; contradiction] |].
    split; [discriminate |].
    intros Hc. exfalso. apply (proj1 (geb_ge d 3)) in Hc.
    apply Hn1, Habove, Hc.
Qed.

(** Off the table the rounding of the product can decide the class: at the
    binary64 number nearest to [4/3] a bet of 3 is paid 4 and shown as a
    win, though three times the multiplier less 1 is below one chip. *)
Lemma rounded_product_shown_as_win :
  let m := JS.fl (4 # 3) in
  winAmountOf 3 m = 4%Z /\
  resultClass (updateResult m (winAmountOf 3 m) 3) = ResultWin /\
  (3 * (m - 1) < 1)%Q.
Proof. cbv zeta. repeat split; vm_compute; reflexivity. Qed.

(** X10.  For a bet from 1 to [2^48] and a multiplier of the table, written
    [d] there, the result is shown as a loss whenever [d] is below 1, as
    neither win nor loss at 1, and as a win exactly when the bet times
    [d - 1] reaches one chip, the profit shown being [floor(bet * d)] less
    the bet; the celebration (multiplier 3 and more) is only ever started on
    a win. *)
Theorem result_class_follows_multiplier (bet : Z) (index : nat) :
  (0 < bet <= 2 ^ 48)%Z -> index < 13 ->
  let d := nth index multiplierLiterals 0%Q in
  let m := multiplierAt (Z.of_nat index) in
  let v := updateResult m (winAmountOf bet m) bet in
  ((d < 1)%Q -> resultClass v = ResultLose /\ (shownProfit v < 0)%Z) /\
  ((d == 1)%Q -> resultClass v = ResultNeutral /\ shownProfit v = 0%Z) /\
  (resultClass v = ResultWin <-> (1 <= inject_Z bet * (d - 1))%Q) /\
  (resultClass v = ResultWin ->
   plusSign v = true /\
   shownProfit v = (Qfloor (inject_Z bet * d) - bet)%Z) /\
  (celebrate v = true -> resultClass v = ResultWin).
Proof.
  intros Hbet Hindex. cbv zeta.
  destruct (multiplierLiterals_range index Hindex) as [Hd Hgeb].
  assert (0 <= bet <= 2 ^ 48)%Z as Hbet' by lia.
  pose proof (winAmountOf_table bet index Hbet' Hindex) as Hwin.
  pose proof (floor_product_range bet _ Hbet' Hd) as Hrange.
  rewrite Hwin.
  apply updateResult_classes;
    [lia | lra | reflexivity | literals; lia | exact Hgeb].
Qed.

Lemma result_class_follows_multiplier_witness :
  nth 6 multiplierLiterals 0%Q = 0.3%Q /\
  resultClass (updateResult (multiplierAt 6)
                            (winAmountOf 100 (multiplierAt 6)) 100)
  = ResultLose /\
  (shownProfit (updateResult (multiplierAt 6)
                             (winAmountOf 100 (multiplierAt 6)) 100)
   < 0)%Z.
Proof.
  assert (0 < 100 <= 2 ^ 48)%Z as Hbet by (vm_compute; split; reflexivity || discriminate).
  assert (6 < 13) as Hindex by lia.
  destruct (result_class_follows_multiplier 100 6 Hbet Hindex) as [Hlose _].
  split; [reflexivity |]. apply Hlose. reflexivity.
Defined.

(** *** The multiplier shown for a landing *)

(** X11.  Whatever bucket index the scan yields, the multiplier index stays
    inside the table: it is the bucket index up to 12 and 12 from there on;
    the displayed bucket with that index shows the multiplier that is paid,
    and [highlightBucket] highlights that displayed bucket and no other. *)
Theorem landing_highlights_its_multiplier (bucketIndex : nat) :
  let index := multiplierIndexOf bucketIndex in
  (0 <= index <= 12)%Z /\
  (bucketIndex <= 12 -> index = Z.of_nat bucketIndex) /\
  (12 <= bucketIndex -> index = 12%Z) /\
  createMultiplierDisplay !! Z.to_nat index
  = Some (multiplierAt index, Z.to_nat index) /\
  (forall i, i < length createMultiplierDisplay ->
             highlightBucket index createMultiplierDisplay !! i
             = Some (Z.of_nat i =? index)%Z) /\
  length (List.filter (fun b : bool => b)
                      (highlightBucket index createMultiplierDisplay)) = 1.
Proof.
  cbv zeta. pose proof (multiplierIndexOf_range bucketIndex) as Hrange.
  assert (multiplierIndexOf bucketIndex
          = Z.min (Z.of_nat bucketIndex) 12) as Hmin by reflexivity.
  split; [lia |]. split; [lia |]. split; [lia |].
  assert (exists k, k < 13 /\ multiplierIndexOf bucketIndex = Z.of_nat k)
    as (k & Hk & ->).
  { exists (Z.to_nat (multiplierIndexOf bucketIndex)). lia. }
  rewrite Nat2Z.id.
  do 13 (destruct k as [| k];
         [split; [reflexivity |]; split; [| reflexivity];
          intros i Hi; change (length createMultiplierDisplay) with 13 in Hi;
          do 13 (destruct i as [| i]; [reflexivity |]); lia |]).
  lia.
Qed.

(** *** The resolver on a board that is a partition *)

Lemma partition_covers (x : Q) (bs : list Bucket) (first lastb : Bucket) :
  (forall i b b', bs !! i = Some b -> bs !! S i = Some b' ->
                  (right b == left b')%Q) ->
  head bs = Some first -> last bs = Some lastb ->
  (left first <= x)%Q -> (x < right lastb)%Q ->
  exists b, b ∈ bs /\ inBucket x b = true.
Proof.
  revert first. induction bs as [| b bs IH]; intros first Hadj Hhead Hlast Hlo Hhi.
  - discriminate Hhead.
  - injection Hhead as <-.
    destruct (inBucket x b) eqn:Hin.
    + exists b. split; [apply list_elem_of_here | exact Hin].
    + assert (right b <= x)%Q as Hge.
      { apply not_true_iff_false in Hin. rewrite inBucket_spec in Hin.
        destruct (Qlt_le_dec x (right b)) as [Hlt | Hle]; [| exact Hle].
        exfalso. apply Hin. split; assumption. }
      destruct bs as [| b' bs'].
      * simpl in Hlast. injection Hlast as <-. lra.
      * destruct (IH b') as (b1 & Hb1 & Hin1).
        -- intros i c c' Hc Hc'. exact (Hadj (S i) c c' Hc Hc').
        -- reflexivity.
        -- exact Hlast.
        -- rewrite <- (Hadj 0 b b' eq_refl eq_refl). exact Hge.
        -- exact Hhi.
        -- exists b1. split; [now apply list_elem_of_further | exact Hin1].
Qed.

(** X12.  On a list of buckets in which each one ends where the next one
    starts, every [x] from the first left bound up to (not including) the
    last right bound resolves to a bucket that contains it, and to the
    first such. *)
Theorem resolver_finds_bucket_on_partition
        (x : Q) (bs : list Bucket) (first lastb : Bucket) :
  (forall i b b', bs !! i = Some b -> bs !! S i = Some b' ->
                  (right b == left b')%Q) ->
  head bs = Some first -> last bs = Some lastb ->
  (left first <= x)%Q -> (x < right lastb)%Q ->
  exists b,
    bs !! findBucketIndex x bs = Some b /\
    (left b <= x)%Q /\ (x < right b)%Q /\
    (forall j b', j < findBucketIndex x bs -> bs !! j = Some b' ->
                  inBucket x b' = false).
Proof.
  intros Hadj Hhead Hlast Hlo Hhi.
  destruct (partition_covers x bs first lastb Hadj Hhead Hlast Hlo Hhi)
    as (b0 & Hb0 & Hin0).
  unfold findBucketIndex.
  destruct (scanBuckets_spec x bs 0 0)
    as [(i & b & Hi & Hin & Hfirst & Hres) | [Hnone _]].
  - rewrite Hres. simpl. exists b.
    apply inBucket_spec in Hin as [Hl Hr]. auto.
  - rewrite (Hnone b0 Hb0) in Hin0. discriminate Hin0.
Qed.

Lemma resolver_finds_bucket_on_partition_witness :
  exists b, twoBuckets !! findBucketIndex 12 twoBuckets = Some b /\
            (left b <= 12)%Q /\ (12 < right b)%Q.
Proof.
  destruct (resolver_finds_bucket_on_partition
              12 twoBuckets (mkBucket 0 10 5) (mkBucket 10 20 15))
    as (b & Hb & Hl & Hr & _).
  - intros i b b' Hb Hb'.
    destruct i as [| [| i]]; simpl in Hb, Hb'; try discriminate.
    injection Hb as <-. injection Hb' as <-. reflexivity.
  - reflexivity.
  - reflexivity.
  - intros H. discriminate H.
  - reflexivity.
  - exists b. auto.
Defined.

(** *** Drops *)

(** Rounding keeps a number between two binary64 numbers. *)
Lemma fl_between (lo hi x : Q) :
  (JS.fl lo == lo)%Q -> (JS.fl hi == hi)%Q ->
  (lo <= x)%Q -> (x <= hi)%Q ->
  (lo <= JS.fl x)%Q /\ (JS.fl x <= hi)%Q.
Proof.
  intros Hlo Hhi H1 H2. split.
  - rewrite <- Hlo. now apply fl_mono.
  - rewrite <- Hhi. now apply fl_mono.
Qed.

(** Where [dropBall] puts the ball: from 235 to 265, both included. *)
Lemma dropX_range (bet : Z) (random : Q) (st : State) :
  (0 <= random)%Q -> (random < 1)%Q ->
  exists b,
    heap (spawnBall bet random st) = heap st ++ [b] /\
    betAmount b = bet /\ landed b = false /\
    (235 <= positionX b)%Q /\ (positionX b <= 265)%Q.
Proof.
  intros Hlo Hhi. eexists. split; [reflexivity |].
  cbn [betAmount landed positionX].
  split; [reflexivity |]. split; [reflexivity |].
  change (JS.div (canvasWidth CONFIG) 2) with 250%Q.
  change (ballDropVariance CONFIG) with 15%Q.
  unfold JS.add, JS.mul, JS.sub.
  destruct (fl_between (- (1 # 2)) (1 # 2) (random - 0.5))
    as [A1 A2]; [reflexivity | reflexivity | lra | lra |].
  destruct (fl_between (- (15 # 2)) (15 # 2) (JS.fl (random - 0.5) * 15))
    as [B1 B2]; [reflexivity | reflexivity | lra | lra |].
  destruct (fl_between (- (15)) 15
              (JS.fl (JS.fl (random - 0.5) * 15) * 2))
    as [C1 C2]; [reflexivity | reflexivity | lra | lra |].
  apply (fl_between 235 265); [reflexivity | reflexivity | lra | lra].
Qed.

(** X13.  An accepted drop creates one ball object, not landed, carrying
    the bet, at a horizontal position within [ballDropVariance] of the
    middle of the canvas ([235 <= x <= 265] for [Math.random()] in
    [[0, 1)]: the upper end is reached, by rounding); the ball is the last
    of the in-flight list and, from a balance within [2^53], exactly the bet
    is debited. *)
Theorem accepted_drop_spawns_one_ball (st : State) (random : Q) :
  isDropping st = false ->
  (10 <= parsedOr100 (betInput st))%Z ->
  (parsedOr100 (betInput st) <= ChipManager.balance (chips st))%Z ->
  (0 <= random)%Q -> (random < 1)%Q ->
  let st' := dropBall random st in
  exists b,
    heap st' = heap st ++ [b] /\
    betAmount b = parsedOr100 (betInput st) /\
    landed b = false /\
    (235 <= positionX b)%Q /\ (positionX b <= 265)%Q /\
    balls st' = balls st ++ [length (heap st)] /\
    timers st' = timers st ++ [ReenableDrop] /\
    isDropping st' = true /\
    ((ChipManager.balance (chips st) <= 2 ^ 53)%Z ->
     ChipManager.balance (chips st')
     = (ChipManager.balance (chips st) - parsedOr100 (betInput st))%Z).
Proof.
  intros Hd Hmin Hafford Hlo Hhi. cbv zeta.
  destruct (dropBall_accepts random st Hd Hmin Hafford) as [_ Hbal].
  revert Hbal.
  rewrite dropBall_eq, Hd. cbv zeta.
  destruct (Z.ltb_spec (parsedOr100 (betInput st)) 10) as [| _]; [lia |].
  assert (JS.ltb (inject_Z (ChipManager.balance (chips st)))
                 (inject_Z (parsedOr100 (betInput st))) = false) as ->
    by (apply ltb_ge; now rewrite <- Zle_Qle).
  intros Hbal.
  match goal with |- context [spawnBall ?bet random ?s] =>
    destruct (dropX_range bet random s Hlo Hhi)
      as (b & Hheap & Hbet & Hflag & Hx1 & Hx2)
  end.
  exists b. split; [exact Hheap |].
  split; [exact Hbet |]. split; [exact Hflag |].
  split; [exact Hx1 |]. split; [exact Hx2 |].
  split; [reflexivity |]. split; [reflexivity |].
  split; [reflexivity | exact Hbal].
Qed.

Lemma accepted_drop_spawns_one_ball_witness :
  let random := (9007199254740991 # 9007199254740992)%Q in
  exists b,
    heap (dropBall random freshPage) = [b] /\
    betAmount b = 100%Z /\
    (positionX b == 265)%Q /\
    ChipManager.balance (chips (dropBall random freshPage)) = 9900%Z.
Proof.
  cbv zeta.
  destruct (accepted_drop_spawns_one_ball
              freshPage (9007199254740991 # 9007199254740992))
    as (b & Hheap & Hbet & _ & _ & _ & _ & _ & _ & Hbal);
    try reflexivity; try (vm_compute; intros H; discriminate H).
  exists b. split; [exact Hheap |]. split; [exact Hbet |].
  split.
  - assert (heap (dropBall (9007199254740991 # 9007199254740992) freshPage)
            = [mkBall 100 false 265]) as Hfull by (vm_compute; reflexivity).
    rewrite Hfull in Hheap. injection Hheap as <-. reflexivity.
  - rewrite Hbal; vm_compute; [reflexivity | discriminate].
Defined.

(** X14.  A bet field that parses to 0 or to no number at all is played as
    a bet of 100: if drops are allowed and the balance covers 100, the drop
    is accepted, the ball carries 100 and 100 is debited (from a balance
    within [2^53], where the difference is exact). *)
Theorem empty_bet_is_played_as_100 (st : State) (random : Q) :
  isDropping st = false ->
  (betInput st = None \/ betInput st = Some 0%Z) ->
  (100 <= ChipManager.balance (chips st))%Z ->
  let st' := dropBall random st in
  ((ChipManager.balance (chips st) <= 2 ^ 53)%Z ->
   ChipManager.balance (chips st')
   = (ChipManager.balance (chips st) - 100)%Z) /\
  balls st' = balls st ++ [length (heap st)] /\
  exists b, heap st' !! length (heap st) = Some b /\ betAmount b = 100%Z.
Proof.
  intros Hd Hbet Hafford. cbv zeta.
  assert (parsedOr100 (betInput st) = 100%Z) as Hparsed
    by (destruct Hbet as [-> | ->]; reflexivity).
  destruct (dropBall_accepts random st Hd) as [Hballs Hbal];
    [rewrite Hparsed; lia | rewrite Hparsed; exact Hafford |].
  rewrite Hparsed in Hbal. rewrite Hballs.
  split; [exact Hbal |]. split; [reflexivity |].
  rewrite dropBall_eq, Hd, Hparsed. cbv zeta.
  change (100 <? 10)%Z with false. cbv iota.
  assert (JS.ltb (inject_Z (ChipManager.balance (chips st)))
                 (inject_Z 100) = false) as ->
    by (apply ltb_ge; now rewrite <- Zle_Qle).
  eexists. split.
  - unfold spawnBall. cbn [heap withChips]. now apply list_lookup_middle.
  - reflexivity.
Qed.

Lemma empty_bet_is_played_as_100_witness :
  let st := initGame ChipManager.Available (Some 500%Z) (Some 0%Z) in
  ChipManager.balance (chips (dropBall 0.5 st)) = 400%Z /\
  balls (dropBall 0.5 st) = [0].
Proof.
  cbv zeta.
  destruct (empty_bet_is_played_as_100
              (initGame ChipManager.Available (Some 500%Z) (Some 0%Z)) 0.5)
    as (Hbal & Hballs & _);
    [reflexivity | right; reflexivity | vm_compute; intros H; discriminate H |].
  split; [| exact Hballs].
  rewrite Hbal; vm_compute; [reflexivity | discriminate].
Defined.

(** X15.  [adjustBet] always leaves a bet from 10 to 10000 in the field, so
    the drop that follows is never refused for the minimum stake; it
    saturates at both ends, and inside the range a step and its opposite
    cancel. *)
Theorem adjustBet_clamps_and_undoes (st : State) (delta : Z) :
  let v := parsedOr100 (betInput st) in
  (10 <= parsedOr100 (betInput (adjustBet delta st)) <= 10000)%Z /\
  (forall random,
     dropBall random (adjustBet delta st)
     <> alert MinimumBet (adjustBet delta st)) /\
  ((10000 <= v + delta)%Z ->
   betInput (adjustBet delta st) = Some 10000%Z) /\
  ((v + delta <= 10)%Z -> betInput (adjustBet delta st) = Some 10%Z) /\
  ((10 <= v <= 10000)%Z -> (10 <= v + delta <= 10000)%Z ->
   betInput (adjustBet (- delta) (adjustBet delta st)) = Some v).
Proof.
  cbv zeta. set (v := parsedOr100 (betInput st)).
  assert (forall x, (10 <= x <= 10000)%Z -> parsedOr100 (Some x) = x) as Hp.
  { intros x Hx. simpl. destruct (Z.eqb_spec x 0); [lia | reflexivity]. }
  assert (betInput (adjustBet delta st)
          = Some (Z.max 10 (Z.min 10000 (v + delta)))) as Hadj
    by (unfold adjustBet; cbn [betInput withBetInput];
        now rewrite clamp_add).
  assert (parsedOr100 (betInput (adjustBet delta st))
          = Z.max 10 (Z.min 10000 (v + delta))) as Hparsed
    by (rewrite Hadj; apply Hp; lia).
  split; [rewrite Hparsed; lia |].
  split.
  { intros random. rewrite dropBall_eq. cbv zeta. rewrite Hparsed.
    destruct (isDropping (adjustBet delta st)) eqn:Hd.
    - intros Heq. apply (f_equal log) in Heq. simpl in Heq.
      apply (f_equal (@length _)) in Heq. simpl in Heq. lia.
    - destruct (Z.ltb_spec (Z.max 10 (Z.min 10000 (v + delta))) 10);
        [lia |].
      destruct (JS.ltb _ _).
      + intros Heq. apply (f_equal log) in Heq. simpl in Heq.
        injection Heq as Heq. discriminate Heq.
      + intros Heq. apply (f_equal isDropping) in Heq.
        simpl in Heq, Hd. congruence. }
  split; [intros H; rewrite Hadj; f_equal; lia |].
  split; [intros H; rewrite Hadj; f_equal; lia |].
  intros Hv Hsum. unfold adjustBet at 1. cbv zeta. rewrite Hparsed.
  cbn [betInput withBetInput]. rewrite clamp_add. f_equal. lia.
Qed.

(** *** Ball objects *)

Lemma heap_lookup_onPair (st : State) (pair : Body * Body)
      (id : nat) (b0 : Ball) :
  heap st !! id = Some b0 ->
  exists b', heap (onPair st pair) !! id = Some b' /\
             betAmount b' = betAmount b0 /\
             positionX b' = positionX b0.
Proof.
  intros Hb. pair_cases st pair; eauto.
  simpl. destruct (Nat.eq_dec ball id) as [-> | Hne].
  - rewrite list_lookup_insert_eq by (eapply lookup_lt_Some; eassumption).
    eexists. split; [reflexivity |]. simpl. split; congruence.
  - rewrite list_lookup_insert_ne by exact Hne. eauto.
Qed.

Lemma heap_lookup_step (st : State) (ev : Event) (id : nat) (b : Ball) :
  heap st !! id = Some b ->
  exists b', heap (step st ev) !! id = Some b' /\
             betAmount b' = betAmount b.
Proof.
  intros Hb. destruct ev as [random | | | | | other x | pairs | k |]; simpl;
    eauto.
  - drop_cases random st; eauto.
    exists b. split; [| reflexivity].
    unfold spawnBall. cbn [heap withChips]. now apply lookup_app_l_Some.
  - unfold moveBall. destruct (heap st !! other) as [b0 |] eqn:Hb0; eauto.
    simpl. destruct (Nat.eq_dec other id) as [-> | Hne].
    + rewrite list_lookup_insert_eq by (eapply lookup_lt_Some; eassumption).
      eexists. split; [reflexivity |]. simpl. congruence.
    + rewrite list_lookup_insert_ne by exact Hne. eauto.
  - apply (onCollisionStart_preserves
             (fun s => exists b', heap s !! id = Some b'
                                  /\ betAmount b' = betAmount b));
      [| exists b; split; [exact Hb | reflexivity]].
    clear. intros st pair (b1 & Hb1 & Hbet).
    destruct (heap_lookup_onPair st pair id b1 Hb1) as (b2 & Hb2 & Hbet2 & _).
    exists b2. split; [exact Hb2 | congruence].
  - timer_cases k st; eauto.
    + unfold reenableDrop. simpl.
      destruct (length (balls st) <? 5); eauto.
    + unfold removeBall. destruct (length _ =? 0); eauto.
Qed.

(** X16.  A ball object is never dropped from the heap and its wager never
    changes: whatever events follow, the ball is still there with the bet it
    was created with, and a set landed flag is still set. *)
Theorem wager_is_immutable (st : State) (evs : list Event)
        (id : nat) (b : Ball) :
  heap st !! id = Some b ->
  exists b', heap (run evs st) !! id = Some b' /\
             betAmount b' = betAmount b /\
             (landed b = true -> landed b' = true).
Proof.
  intros Hb.
  assert (exists b', heap (run evs st) !! id = Some b'
                     /\ betAmount b' = betAmount b) as (b' & Hb' & Hbet).
  { unfold run. revert st b Hb.
    induction evs as [| ev evs IH]; intros st b Hb; simpl; [eauto |].
    destruct (heap_lookup_step st ev id b Hb) as (b1 & Hb1 & Hbet1).
    destruct (IH _ b1 Hb1) as (b2 & Hb2 & Hbet2).
    exists b2. split; [exact Hb2 | congruence]. }
  exists b'. split; [exact Hb' |]. split; [exact Hbet |].
  intros Hflag.
  destruct (landedAt_run id evs st) as (b2 & Hb2 & Hflag2);
    [now exists b |].
  congruence.
Qed.

Lemma wager_is_immutable_witness :
  exists b',
    heap (run [Moved 0 300; sensorHit 0; TimerFired 0]
              (run [DropBall 0.5] freshPage)) !! 0 = Some b' /\
    betAmount b' = 100%Z.
Proof.
  destruct (wager_is_immutable
              (run [DropBall 0.5] freshPage)
              [Moved 0 300; sensorHit 0; TimerFired 0] 0 _ eq_refl)
    as (b' & Hb' & Hbet & _).
  exists b'. split; [exact Hb' | exact Hbet].
Defined.

End PlinkoExtras.

(** ** Bookkeeping of a run *)

Module PlinkoBooksFacts.

Import Plinko PlinkoBooks JSFacts ChipManagerFacts LayoutFacts GameFacts.

(** *** Lists *)

Lemma filter_all {A} (f : A -> bool) (l : list A) :
  forallb f l = true -> List.filter f l = l.
Proof.
  induction l as [| a l IH]; simpl; [reflexivity |].
  intros H. apply andb_true_iff in H as [-> Hl]. now rewrite IH.
Qed.

Lemma filter_map_comm {A B} (f : B -> bool) (g : A -> B) (l : list A) :
  List.filter f (map g l) = map g (List.filter (fun a => f (g a)) l).
Proof.
  induction l as [| a l IH]; simpl; [reflexivity |].
  destruct (f (g a)); simpl; now rewrite IH.
Qed.

Lemma elem_of_delete_other {A} (x y : A) (k : nat) (l : list A) :
  x ∈ l -> l !! k = Some y -> x <> y -> x ∈ delete k l.
Proof.
  revert k. induction l as [| a l IH]; intros k Hx Hk Hne.
  - inversion Hx.
  - destruct k as [| k]; simpl in *.
    + injection Hk as ->. apply elem_of_cons in Hx as [-> | Hx];
        [contradiction | exact Hx].
    + apply elem_of_cons in Hx as [-> | Hx].
      * apply list_elem_of_here.
      * apply list_elem_of_further. now apply IH.
Qed.

Lemma filter_delete_length {A} (f : A -> bool) (k : nat) (l : list A) :
  length (List.filter f (delete k l)) <= length (List.filter f l).
Proof.
  revert k. induction l as [| a l IH]; intros k; [destruct k; simpl; lia |].
  destruct k as [| k]; simpl.
  - destruct (f a); simpl; lia.
  - specialize (IH k). destruct (f a); simpl; lia.
Qed.

Lemma elem_of_filter_neq (ball other : nat) (l : list nat) :
  other ∈ List.filter (fun b => negb (b =? ball)) l ->
  other ∈ l /\ other <> ball.
Proof.
  rewrite list_elem_of_In, filter_In, <- list_elem_of_In.
  intros [Hin Hne]. split; [exact Hin |].
  apply negb_true_iff, Nat.eqb_neq in Hne. exact Hne.
Qed.

(** *** Collisions leave the world and the flags alone *)

Lemma onCollisionStart_world (pairs : list (Body * Body)) (st : State) :
  world (onCollisionStart pairs st) = world st.
Proof.
  apply (onCollisionStart_preserves (fun s => world s = world st));
    [| reflexivity].
  clear. intros s pair Hs. rewrite <- Hs.
  pair_cases s pair; reflexivity.
Qed.

Lemma onPair_step (st : State) (pair : Body * Body) :
  onPair st pair = step st (CollisionStart [pair]).
Proof. reflexivity. Qed.

(** *** The in-flight list and the world *)

Lemma static_bodies_stay (ball : nat) :
  List.filter (bodyIsNot ball) staticBodies = staticBodies.
Proof. apply filter_all. vm_compute. reflexivity. Qed.

Lemma booksInv_step (st : State) (ev : Event) :
  booksInv st -> booksInv (step st ev).
Proof.
  intros Hinv. pose proof Hinv as (Hnd & Hworld & Hheap).
  destruct ev as [random | | | | | other x | pairs | k |]; simpl;
    try exact Hinv.
  - drop_cases random st; try exact Hinv.
    unfold booksInv, spawnBall. cbn [balls world heap withChips].
    split; [| split].
    + apply NoDup_app. split; [exact Hnd |]. split; [| apply NoDup_singleton].
      intros ball Hball Hnew. apply list_elem_of_singleton in Hnew. subst.
      pose proof (proj1 (Forall_forall _ _) Hheap _ Hball) as Hlt.
      simpl in Hlt. lia.
    + rewrite Hworld, map_app, app_assoc. reflexivity.
    + rewrite length_app. simpl. apply Forall_app. split.
      * eapply Forall_impl; [exact Hheap |]. simpl. intros; lia.
      * constructor; [lia | constructor].
  - unfold moveBall. destruct (heap st !! other); [| exact Hinv].
    unfold booksInv. simpl. now rewrite length_insert.
  - unfold booksInv.
    destruct (onCollisionStart_frame pairs st)
      as (-> & _ & _ & _ & _ & ->).
    now rewrite onCollisionStart_world.
  - timer_cases k st; try exact Hinv.
    + unfold reenableDrop. simpl.
      destruct (length (balls st) <? 5); exact Hinv.
    + assert (booksInv
                (mkGame (chips st) (heap st)
                        (List.filter (fun b => negb (b =? ball)) (balls st))
                        (isDropping st) (bucketPositions st)
                        (List.filter (bodyIsNot ball) (world st))
                        (delete k (timers st)) (betInput st)
                        (dropBtnDisabled st) (log st))) as Hrem.
      { unfold booksInv. simpl. split; [| split].
        - apply NoDup_ListNoDup, List.NoDup_filter, NoDup_ListNoDup, Hnd.
        - rewrite Hworld, List.filter_app, static_bodies_stay,
            filter_map_comm. reflexivity.
        - apply Forall_forall. intros other Hother.
          apply elem_of_filter_neq in Hother as [Hother _].
          exact (proj1 (Forall_forall _ _) Hheap _ Hother). }
      unfold removeBall. simpl. destruct (length _ =? 0); exact Hrem.
Qed.

Lemma booksInv_reachable (st : State) : reachable st -> booksInv st.
Proof.
  induction 1 as [m item bet _ | st ev _ IH].
  - unfold booksInv, initGame. cbn [balls world heap map].
    split; [constructor |].
    split; [symmetry; apply app_nil_r | constructor].
  - now apply booksInv_step.
Qed.

(** X17.  In every reachable state the in-flight list has no ball twice,
    every ball in it is a ball object, and the physics world consists of
    the pegs, walls and sensor that [initGame] created followed by exactly
    the balls in flight, in the same order: nothing else is ever added or
    removed. *)
Theorem world_holds_the_balls_in_flight (st : State) :
  reachable st ->
  NoDup (balls st) /\
  world st = staticBodies ++ map BallBody (balls st) /\
  length (world st) = 105 + length (balls st) /\
  (forall ball, BallBody ball ∈ world st <-> ball ∈ balls st) /\
  (forall ball, ball ∈ balls st -> is_Some (heap st !! ball)).
Proof.
  intros Hreach.
  destruct (booksInv_reachable st Hreach) as (Hnd & Hworld & Hheap).
  split; [exact Hnd |]. split; [exact Hworld |].
  split; [| split].
  - rewrite Hworld, length_app, length_map. reflexivity.
  - intros ball. rewrite Hworld, elem_of_app. split.
    + intros [Hstatic | Hball].
      * exfalso. apply list_elem_of_In in Hstatic.
        pose proof (static_bodies_stay ball) as Hkeep.
        rewrite <- Hkeep in Hstatic. apply filter_In in Hstatic as [_ Hnot].
        simpl in Hnot. now rewrite Nat.eqb_refl in Hnot.
      * apply list_elem_of_fmap in Hball as (b & [= ->] & Hb). exact Hb.
    + intros Hball. right. apply list_elem_of_fmap. eauto.
  - intros ball Hball. apply lookup_lt_is_Some.
    exact (proj1 (Forall_forall _ _) Hheap _ Hball).
Qed.

Lemma world_holds_the_balls_in_flight_witness :
  world (run fiveDrops freshPage)
  = staticBodies ++ map BallBody [0; 1; 2; 3; 4].
Proof.
  assert (reachable (run fiveDrops freshPage)) as Hreach
    by (apply reachable_run, reachable_freshPage).
  destruct (world_holds_the_balls_in_flight _ Hreach) as (_ & Hworld & _).
  exact Hworld.
Defined.

(** *** Pending removals *)

Lemma pendingRemovals_app (ball : nat) (ts1 ts2 : list Timer) :
  pendingRemovals ball (ts1 ++ ts2)
  = pendingRemovals ball ts1 + pendingRemovals ball ts2.
Proof.
  unfold pendingRemovals. now rewrite List.filter_app, length_app.
Qed.

Lemma removalInv_onPair (st : State) (pair : Body * Body) :
  removalInv st -> removalInv (onPair st pair).
Proof.
  intros Hinv. pose proof Hinv as [Hsched Hcount].
  pair_cases st pair; try exact Hinv.
  assert (ball < length (heap st)) as Hlt
    by (eapply lookup_lt_Some; eassumption).
  split.
  - intros other bo Hother Hbo Hflag. simpl in *.
    rewrite elem_of_app, list_elem_of_singleton.
    destruct (Nat.eq_dec ball other) as [<- | Hne]; [now right |].
    left. rewrite list_lookup_insert_ne in Hbo by exact Hne. eauto.
  - intros other. specialize (Hcount other). simpl.
    rewrite pendingRemovals_app, settledCount_cons.
    assert (pendingRemovals other [RemoveBall ball]
            = if ball =? other then 1 else 0) as ->
      by (unfold pendingRemovals; simpl; destruct (ball =? other);
          reflexivity).
    cbn [isSettled]. destruct (ball =? other); lia.
Qed.

Lemma removalInv_step (st : State) (ev : Event) :
  removalInv st -> removalInv (step st ev).
Proof.
  intros Hinv. pose proof Hinv as [Hsched Hcount].
  destruct ev as [random | | | | | other x | pairs | k |]; simpl;
    try exact Hinv.
  - drop_cases random st; try exact Hinv.
    unfold removalInv, spawnBall. cbn [balls heap timers log withChips].
    split.
    + intros ball bo Hball Hbo Hflag.
      rewrite elem_of_app. left.
      destruct (Nat.lt_ge_cases ball (length (heap st))) as [Hlt | Hge].
      * rewrite lookup_app_l in Hbo by exact Hlt.
        apply elem_of_app in Hball as [Hball | Hnew]; [eauto |].
        apply list_elem_of_singleton in Hnew. lia.
      * exfalso.
        assert (ball = length (heap st)) as ->.
        { apply lookup_lt_Some in Hbo. rewrite length_app in Hbo.
          simpl in Hbo. lia. }
        rewrite list_lookup_middle in Hbo by reflexivity.
        injection Hbo as <-. discriminate Hflag.
    + intros ball. rewrite pendingRemovals_app. specialize (Hcount ball).
      change (pendingRemovals ball [ReenableDrop]) with 0. lia.
  - unfold moveBall. destruct (heap st !! other) as [b0 |] eqn:Hb0;
      [| exact Hinv].
    split; [| exact Hcount].
    intros ball bo Hball Hbo Hflag. simpl in *.
    destruct (Nat.eq_dec other ball) as [-> | Hne].
    + rewrite list_lookup_insert_eq in Hbo
        by (eapply lookup_lt_Some; eassumption).
      injection Hbo as <-. simpl in Hflag. eauto.
    + rewrite list_lookup_insert_ne in Hbo by exact Hne. eauto.
  - revert Hinv. apply onCollisionStart_preserves. clear.
    intros st pair. apply removalInv_onPair.
  - timer_cases k st; try exact Hinv.
    + assert (removalInv (removeTimer k st)) as Hrem.
      { split.
        - intros ball bo Hball Hbo Hflag. simpl in *.
          eapply elem_of_delete_other; [eauto | eassumption | discriminate].
        - intros ball. specialize (Hcount ball).
          change (pendingRemovals ball (delete k (timers st))
                  <= settledCount ball (log st)).
          pose proof (filter_delete_length (isRemoval ball) k (timers st)).
          unfold pendingRemovals in *. lia. }
      unfold reenableDrop.
      destruct (length (balls (removeTimer k st)) <? 5); exact Hrem.
    + assert (removalInv
                (mkGame (chips st) (heap st)
                        (List.filter (fun b => negb (b =? ball)) (balls st))
                        (isDropping st) (bucketPositions st)
                        (List.filter (bodyIsNot ball) (world st))
                        (delete k (timers st)) (betInput st)
                        (dropBtnDisabled st) (log st))) as Hrem.
      { split.
        - intros other bo Hother Hbo Hflag. simpl in *.
          apply elem_of_filter_neq in Hother as [Hother Hne].
          eapply elem_of_delete_other; [eauto | eassumption | congruence].
        - intros other. specialize (Hcount other).
          change (pendingRemovals other (delete k (timers st))
                  <= settledCount other (log st)).
          pose proof (filter_delete_length (isRemoval other) k (timers st)).
          unfold pendingRemovals in *. lia. }
      unfold removeBall. simpl. destruct (length _ =? 0); exact Hrem.
Qed.

Lemma removalInv_reachable (st : State) : reachable st -> removalInv st.
Proof.
  induction 1 as [m item bet _ | st ev _ IH].
  - split; [intros ball b Hball; inversion Hball |].
    intros ball. unfold pendingRemovals, settledCount. simpl. lia.
  - now apply removalInv_step.
Qed.

Lemma settledCount_le_1 (st : State) (ball : nat) :
  reachable st -> settledCount ball (log st) <= 1.
Proof.
  intros Hreach. rewrite (settledInv_reachable st Hreach ball).
  destruct (heap st !! ball) as [b |]; [destruct (landed b) |]; lia.
Qed.

(** X18.  In every reachable state a ball has at most one removal pending,
    and none before it has landed; a ball that is in flight and has landed
    has its removal pending. *)
Theorem removal_is_scheduled_once (st : State) (ball : nat) :
  reachable st ->
  pendingRemovals ball (timers st) <= 1 /\
  (settledCount ball (log st) = 0 -> RemoveBall ball ∉ timers st) /\
  (forall b, ball ∈ balls st -> heap st !! ball = Some b ->
             landed b = true ->
             RemoveBall ball ∈ timers st /\
             pendingRemovals ball (timers st) = 1).
Proof.
  intros Hreach.
  destruct (removalInv_reachable st Hreach) as [Hsched Hcount].
  pose proof (settledCount_le_1 st ball Hreach) as Hone.
  specialize (Hcount ball).
  assert (RemoveBall ball ∈ timers st ->
          1 <= pendingRemovals ball (timers st)) as Hpos.
  { intros Hin. unfold pendingRemovals.
    assert (In (RemoveBall ball)
               (List.filter (isRemoval ball) (timers st))) as Hf.
    { apply filter_In. split; [now apply list_elem_of_In |].
      simpl. apply Nat.eqb_refl. }
    destruct (List.filter (isRemoval ball) (timers st));
      [inversion Hf | simpl; lia]. }
  split; [lia |]. split.
  - intros Hzero Hin. apply Hpos in Hin. lia.
  - intros b Hball Hb Hflag.
    pose proof (Hsched ball b Hball Hb Hflag) as Hin.
    split; [exact Hin |]. apply Hpos in Hin. lia.
Qed.

Lemma removal_is_scheduled_once_witness :
  pendingRemovals 0 (timers (run (fiveDrops ++ [sensorHit 0; sensorHit 0])
                                 freshPage)) <= 1.
Proof.
  assert (reachable (run (fiveDrops ++ [sensorHit 0; sensorHit 0]) freshPage))
    as Hreach by (apply reachable_run, reachable_freshPage).
  destruct (removal_is_scheduled_once _ 0 Hreach) as [Hle _].
  exact Hle.
Defined.

(** *** The drop control comes back *)













(** *** Where the chips are *)

Lemma sumBets_app (l : list Ball) (b : Ball) :
  fold_right (fun b acc => (betAmount b + acc)%Z) 0%Z (l ++ [b])
  = (fold_right (fun b acc => (betAmount b + acc)%Z) 0%Z l + betAmount b)%Z.
Proof. induction l as [| a l IH]; simpl; lia. Qed.

Lemma sumBets_insert (l : list Ball) (i : nat) (b b' : Ball) :
  l !! i = Some b -> betAmount b' = betAmount b ->
  fold_right (fun b acc => (betAmount b + acc)%Z) 0%Z (<[i := b']> l)
  = fold_right (fun b acc => (betAmount b + acc)%Z) 0%Z l.
Proof.
  revert i. induction l as [| a l IH]; intros i Hi Hbet; [discriminate Hi |].
  destruct i as [| i]; simpl in *.
  - injection Hi as ->. lia.
  - rewrite (IH i Hi Hbet). reflexivity.
Qed.

Lemma sumBets_nonneg (l : list Ball) :
  Forall (fun b => (10 <= betAmount b)%Z) l ->
  (0 <= fold_right (fun b acc => (betAmount b + acc)%Z) 0%Z l)%Z.
Proof.
  induction 1 as [| b l Hb _ IH]; simpl; lia.
Qed.

(** One collision pair: winnings only grow, the bets placed stay, and the
    books balance when the balance stays within [2^53]. *)
Lemma books_onPair (st : State) (pair : Body * Body) :
  reachable st ->
  (paid st <= paid (onPair st pair))%Z /\
  wagered (onPair st pair) = wagered st /\
  ((ChipManager.balance (chips st) + (paid (onPair st pair) - paid st)
    <= 2 ^ 53)%Z ->
   netWorth (onPair st pair) = netWorth st).
Proof.
  intros Hreach. pair_cases st pair;
    try (split; [reflexivity | split; [reflexivity | reflexivity]]).
  match goal with H : heap st !! ball = Some b |- _ => rename H into Hb end.
  pose proof (Forall_lookup_1 _ _ _ _ (betsInv_reachable st Hreach) Hb)
    as Hbet. simpl in Hbet.
  set (win := winAmountOf (betAmount b)
                (multiplierAt
                   (multiplierIndexOf
                      (findBucketIndex (positionX b) (bucketPositions st))))).
  assert (0 <= win)%Z as Hwin
    by (apply winAmountOf_nonneg; [lia | apply multiplierAt_nonneg]).
  assert (paid (handleBallLanding ball b (setLanded ball b st))
          = (win + paid st)%Z) as Hpaid by reflexivity.
  assert (wagered (handleBallLanding ball b (setLanded ball b st))
          = wagered st) as Hwagered.
  { unfold wagered. cbn [heap handleBallLanding setLanded].
    exact (sumBets_insert (heap st) ball b
             (mkBall (betAmount b) true (positionX b)) Hb eq_refl). }
  split; [lia |]. split; [exact Hwagered |].
  intros Hmax. unfold netWorth. rewrite Hwagered, Hpaid.
  change (chips (handleBallLanding ball b (setLanded ball b st)))
    with (chips (handleBallLanding ball b st)).
  rewrite (handleBallLanding_balance st ball b Hreach Hb); fold win; lia.
Qed.

(** The same over a sequence of steps of any kind: if each step lets the
    winnings only grow and the bets placed only grow, and keeps the books
    when it keeps the balance within [2^53], so does the sequence. *)
Lemma books_fold {A} (f : State -> A -> State) (ok : A -> bool) :
  (forall st a, reachable st -> reachable (f st a)) ->
  (forall st a, reachable st ->
     (paid st <= paid (f st a))%Z /\ (wagered st <= wagered (f st a))%Z) ->
  (forall st a, reachable st -> ok a = true ->
     (ChipManager.balance (chips st) + (paid (f st a) - paid st)
      <= 2 ^ 53)%Z ->
     netWorth (f st a) = netWorth st) ->
  forall l st, reachable st ->
    (paid st <= paid (fold_left f l st))%Z /\
    (wagered st <= wagered (fold_left f l st))%Z /\
    (forallb ok l = true ->
     (ChipManager.balance (chips st) + (paid (fold_left f l st) - paid st)
      <= 2 ^ 53)%Z ->
     netWorth (fold_left f l st) = netWorth st).
Proof.
  intros Hreach Hmono Hkeep.
  induction l as [| a l IH]; intros st Hst; simpl.
  - split; [lia |]. split; [lia | reflexivity].
  - destruct (Hmono st a Hst) as [Hp Hw].
    destruct (IH (f st a) (Hreach st a Hst)) as (Hp' & Hw' & Hnet).
    split; [lia |]. split; [lia |].
    intros Hok Hmax. apply andb_true_iff in Hok as [Ha Hl].
    assert (netWorth (f st a) = netWorth st) as Hstep
      by (apply Hkeep; [exact Hst | exact Ha | lia]).
    rewrite Hnet; [exact Hstep | exact Hl |].
    unfold netWorth in Hstep. lia.
Qed.

Lemma reachable_onPair (st : State) (pair : Body * Body) :
  reachable st -> reachable (onPair st pair).
Proof. intros H. rewrite onPair_step. now constructor. Qed.

Lemma books_onCollisionStart (pairs : list (Body * Body)) (st : State) :
  reachable st ->
  (paid st <= paid (onCollisionStart pairs st))%Z /\
  (wagered st <= wagered (onCollisionStart pairs st))%Z /\
  ((ChipManager.balance (chips st)
    + (paid (onCollisionStart pairs st) - paid st) <= 2 ^ 53)%Z ->
   netWorth (onCollisionStart pairs st) = netWorth st).
Proof.
  intros Hreach.
  destruct (books_fold onPair (fun _ => true) reachable_onPair) with
    (l := pairs) (st := st) as (Hp & Hw & Hnet).
  - intros s pair Hs. destruct (books_onPair s pair Hs) as (A & B & _).
    split; [exact A | lia].
  - intros s pair Hs _. apply books_onPair, Hs.
  - exact Hreach.
  - split; [exact Hp |]. split; [exact Hw |].
    apply Hnet. clear. induction pairs; simpl; auto.
Qed.

Lemma books_step (st : State) (ev : Event) :
  reachable st ->
  (paid st <= paid (step st ev))%Z /\
  (wagered st <= wagered (step st ev))%Z /\
  (isStorageChange ev = false ->
   (ChipManager.balance (chips st) + (paid (step st ev) - paid st)
    <= 2 ^ 53)%Z ->
   netWorth (step st ev) = netWorth st).
Proof.
  intros Hreach.
  pose proof (sumBets_nonneg _ (betsInv_reachable st Hreach)) as Hbets.
  destruct ev as [random | | | | | other x | pairs | k |]; simpl;
    try (split; [reflexivity | split; [reflexivity | intros; reflexivity]]).
  - pose proof (dropBall_accepts random st) as Haccept.
    pose proof (dropBall_eq random st) as Heq. cbv zeta in Heq.
    destruct (isDropping st) eqn:Hd;
      [rewrite Heq; split; [reflexivity | split; [reflexivity | intros; reflexivity]] |].
    destruct (Z.ltb_spec (parsedOr100 (betInput st)) 10) as [Hlow | Hmin];
      [rewrite Heq; split; [reflexivity | split; [reflexivity |]];
       intros; reflexivity |].
    destruct (JS.ltb (inject_Z (ChipManager.balance (chips st)))
                     (inject_Z (parsedOr100 (betInput st)))) eqn:Hpoor.
    + rewrite Heq. split; [reflexivity |]. split; [reflexivity |].
      intros _ _. unfold netWorth, wagered, paid. simpl.
      now rewrite balance_getBalance.
    + apply ltb_ge in Hpoor. rewrite <- Zle_Qle in Hpoor.
      destruct (Haccept eq_refl Hmin Hpoor) as [_ Hbal].
      assert (paid (dropBall random st) = paid st) as Hpaid
        by (rewrite Heq; reflexivity).
      assert (wagered (dropBall random st)
              = (wagered st + parsedOr100 (betInput st))%Z) as Hwagered.
      { rewrite Heq. unfold wagered, spawnBall. cbn [heap withChips].
        now rewrite sumBets_app. }
      split; [lia |]. split; [lia |].
      intros _ Hmax. unfold netWorth.
      rewrite Hbal, Hpaid, Hwagered by lia. lia.
  - unfold moveBall. destruct (heap st !! other) as [b0 |] eqn:Hb0;
      [| split; [reflexivity | split; [reflexivity | intros; reflexivity]]].
    assert (wagered
              (mkGame (chips st)
                      (<[other := mkBall (betAmount b0) (landed b0) x]>
                         (heap st))
                      (balls st) (isDropping st) (bucketPositions st)
                      (world st) (timers st) (betInput st)
                      (dropBtnDisabled st) (log st))
            = wagered st) as Hwagered
      by (unfold wagered; simpl;
          exact (sumBets_insert (heap st) other b0
                   (mkBall (betAmount b0) (landed b0) x) Hb0 eq_refl)).
    split; [reflexivity |]. split; [lia |].
    intros _ _. unfold netWorth. now rewrite Hwagered.
  - destruct (books_onCollisionStart pairs st Hreach) as (A & B & C).
    split; [exact A |]. split; [exact B |]. intros _. exact C.
  - timer_cases k st; try (split; [reflexivity | split; [reflexivity | intros; reflexivity]]).
    + unfold reenableDrop. simpl.
      destruct (length (balls st) <? 5);
        (split; [reflexivity | split; [reflexivity | intros; reflexivity]]).
    + unfold removeBall. simpl.
      destruct (length _ =? 0);
        (split; [reflexivity | split; [reflexivity | intros; reflexivity]]).
  - split; [reflexivity |]. split; [reflexivity |]. intros H. discriminate H.
Qed.

(** X20.  Chips are neither made nor lost by the game: over any run of
    events in which the browser's storage does not change its behaviour, and
    in which the balance at the start plus the winnings of the run stay
    within [2^53] (where the ledger's sums are exact), the balance changes
    by exactly the winnings awarded minus the bets placed: the balance plus
    all bets ever placed minus all winnings ever awarded stays what it
    was. *)
Theorem chips_are_conserved (st : State) (evs : list Event) :
  reachable st ->
  forallb (fun ev => negb (isStorageChange ev)) evs = true ->
  let st' := run evs st in
  (ChipManager.balance (chips st) + (paid st' - paid st) <= 2 ^ 53)%Z ->
  (ChipManager.balance (chips st') + wagered st' - paid st'
   = ChipManager.balance (chips st) + wagered st - paid st)%Z.
Proof.
  intros Hreach Hevs. cbv zeta. intros Hmax.
  fold (netWorth st) (netWorth (run evs st)).
  destruct (books_fold step (fun ev => negb (isStorageChange ev))) with
    (l := evs) (st := st) as (_ & _ & Hnet).
  - intros s ev Hs. now constructor.
  - intros s ev Hs. destruct (books_step s ev Hs) as (A & B & _). auto.
  - intros s ev Hs Hok. apply books_step; [exact Hs |].
    now apply negb_true_iff.
  - exact Hreach.
  - now apply Hnet.
Qed.

Lemma chips_are_conserved_witness :
  let st' := run (fiveDrops ++ [sensorHit 0; TimerFired 0]) freshPage in
  (ChipManager.balance (chips st') + wagered st' - paid st' = 10000)%Z /\
  ChipManager.balance (chips st') = 10500%Z /\
  wagered st' = 500%Z /\ paid st' = 1000%Z.
Proof.
  cbv zeta. split; [| repeat split; vm_compute; reflexivity].
  rewrite (chips_are_conserved
             freshPage (fiveDrops ++ [sensorHit 0; TimerFired 0])
             reachable_freshPage eq_refl);
    vm_compute; [reflexivity | discriminate].
Defined.

(** *** The button and the flag *)

Lemma buttonSync_step (st : State) (ev : Event) :
  isButtonChange ev = false ->
  dropBtnDisabled st = isDropping st ->
  dropBtnDisabled (step st ev) = isDropping (step st ev).
Proof.
  intros Hev Hsync.
  destruct ev as [random | | | | | other x | pairs | k |]; simpl;
    try exact Hsync; try discriminate Hev.
  - drop_cases random st; simpl; auto; congruence.
  - unfold moveBall. destruct (heap st !! other); exact Hsync.
  - destruct (onCollisionStart_frame pairs st)
      as (_ & -> & _ & _ & -> & _).
    exact Hsync.
  - timer_cases k st; try exact Hsync.
    + unfold reenableDrop. simpl.
      destruct (length (balls st) <? 5); [reflexivity | exact Hsync].
    + unfold removeBall. simpl.
      destruct (length _ =? 0); [reflexivity | exact Hsync].
Qed.

(** X21.  The program disables and enables the drop button together with
    [isDropping]: as long as nothing else touches the button, its
    [disabled] attribute is the flag. *)
Theorem button_follows_flag (st : State) (evs : list Event) :
  dropBtnDisabled st = isDropping st ->
  forallb (fun ev => negb (isButtonChange ev)) evs = true ->
  dropBtnDisabled (run evs st) = isDropping (run evs st).
Proof.
  unfold run. revert st.
  induction evs as [| ev evs IH]; intros st Hsync Hevs; simpl;
    [exact Hsync |].
  simpl in Hevs. apply andb_true_iff in Hevs as [Hev Hevs].
  apply IH; [| exact Hevs].
  apply buttonSync_step; [now apply negb_true_iff | exact Hsync].
Qed.

Lemma button_follows_flag_witness :
  dropBtnDisabled (run fiveDrops freshPage)
  = isDropping (run fiveDrops freshPage).
Proof.
  exact (button_follows_flag freshPage fiveDrops eq_refl eq_refl).
Defined.

(** *** What a landing pays on the shipped board *)

(** X22.  On the shipped board the scan of [handleBallLanding] finds no
    bucket for any position, so in every reachable state the first report of
    the sensor for a ball that has not landed is settled at multiplier
    index 0, multiplier 10, wherever the ball is.  The payout is ten times
    the bet when that product is within [2^53], and it is added to the
    balance when the sum is. *)
Theorem every_landing_pays_tenfold (st : State) (ball : nat) (b : Ball) :
  reachable st ->
  heap st !! ball = Some b -> landed b = false ->
  let st' := step st (sensorHit ball) in
  let win := winAmountOf (betAmount b) 10 in
  head (log st') = Some (Settled ball 0 10 win (betAmount b)) /\
  ((10 * betAmount b <= 2 ^ 53)%Z -> win = (10 * betAmount b)%Z) /\
  ((ChipManager.balance (chips st) + 10 * betAmount b <= 2 ^ 53)%Z ->
   ChipManager.balance (chips st')
   = (ChipManager.balance (chips st) + 10 * betAmount b)%Z).
Proof.
  intros Hreach Hb Hflag. cbv zeta.
  pose proof (shipped_landing_index st ball b Hreach) as Hlog.
  pose proof (Forall_lookup_1 _ _ _ _ (betsInv_reachable st Hreach) Hb)
    as Hbet. simpl in Hbet.
  pose proof (balance_nonneg _ (wf_reachable st Hreach)) as Hbal0.
  rewrite sensorHit_eq, Hb, Hflag.
  split; [exact Hlog |].
  split; [intros Hmax; apply winAmountOf_tenfold; lia |].
  intros Hmax.
  assert (winAmountOf (betAmount b) 10 = (10 * betAmount b)%Z) as Hwin
    by (apply winAmountOf_tenfold; lia).
  pose proof (handleBallLanding_balance st ball b Hreach Hb) as Hbal.
  cbv zeta in Hbal.
  rewrite (bucketPositions_reachable st Hreach),
    shipped_resolver_always_first in Hbal.
  change (multiplierAt (multiplierIndexOf 0)) with 10%Q in Hbal.
  rewrite Hwin in Hbal.
  change (chips (handleBallLanding ball b (setLanded ball b st)))
    with (chips (handleBallLanding ball b st)).
  now apply Hbal.
Qed.

Lemma every_landing_pays_tenfold_witness :
  let st := run [DropBall 0.5; Moved 0 300] freshPage in
  ChipManager.balance (chips (step st (sensorHit 0))) = 10900%Z.
Proof.
  cbv zeta.
  assert (reachable (run [DropBall 0.5; Moved 0 300] freshPage)) as Hreach
    by (apply reachable_run, reachable_freshPage).
  destruct (every_landing_pays_tenfold _ 0 _ Hreach eq_refl eq_refl)
    as (_ & _ & Hbal).
  rewrite Hbal; vm_compute; [reflexivity | discriminate].
Defined.

End PlinkoBooksFacts.

(** ** The Discord SDK wrapper *)

Module DiscordFacts.

Import String DiscordSDKWrapper.
Local Open Scope string_scope.

(** X23.  Whenever [init] resolves, [ready()] is true afterwards, whatever
    went wrong on the way.  Its result says [inDiscord: true] exactly when
    the environment was detected, the [DiscordSDK] class was there, its
    constructor did not throw and [ready()] resolved; then an instance is
    held and the ids reported are that instance's. *)
Theorem init_always_ends_ready
        (env : Env) (clientId : String.string) (st st' : State)
        (result : InitResult) :
  init env clientId st = (st', Some result) ->
  ready st' = true /\
  inDiscord st' = detectDiscordEnvironment (location env) /\
  (isDiscordMode result = true <->
   detectDiscordEnvironment (location env) = true /\
   exists cls, DiscordSDK env = Some cls /\
               constructorThrows cls = false /\
               readyOutcome cls = Resolves) /\
  (isDiscordMode result = true ->
   exists cls,
     DiscordSDK env = Some cls /\
     getSDK st' = Some (mkSdk clientId cls) /\
     result = DiscordMode (channelId cls) (guildId cls) (instanceId cls)).
Proof.
  unfold init, ready, inDiscord, getSDK. cbv zeta.
  destruct (detectDiscordEnvironment (location env)) eqn:Hdet; simpl.
  - destruct (DiscordSDK env) as [cls |] eqn:Hcls.
    + destruct (constructorThrows cls) eqn:Hctor.
      * intros [= <- <-]. simpl.
        repeat split; try discriminate.
        intros (_ & c & [= <-] & Hc & _). congruence.
      * destruct (readyOutcome cls) eqn:Hready; intros [= <- <-]; simpl.
        -- repeat split; eauto 6.
        -- repeat split; try discriminate.
           intros (_ & c & [= <-] & _ & Hr). congruence.
    + intros [= <- <-]. simpl. repeat split; try discriminate.
      intros (_ & c & Hc & _). discriminate Hc.
  - intros [= <- <-]. simpl. repeat split; try discriminate.
    intros (Hd & _). discriminate Hd.
Qed.

(** A page inside Discord whose SDK comes up. *)
Lemma init_always_ends_ready_witness :
  let env := mkEnv (mkLocation ["frame_id"%string] "localhost")
                   (Some (mkSdkClass false Resolves "c" "g" "i")) in
  ready (fst (init env "app" initial)) = true /\
  inDiscord (fst (init env "app" initial)) = true.
Proof.
  cbv zeta.
  destruct (init_always_ends_ready
              (mkEnv (mkLocation ["frame_id"%string] "localhost")
                     (Some (mkSdkClass false Resolves "c" "g" "i")))
              "app" initial _ _ eq_refl) as (Hready & Hin & _).
  split; [exact Hready | exact Hin].
Defined.

(** X24.  [inDiscord()] and the [log] prefix follow the detection alone,
    not the outcome of [init]: inside Discord they say Discord even when
    [init] resolved to browser mode.  And the instance is kept as soon as
    the constructor has returned: if [ready()] then rejects, or never
    settles, [subscribe] still hands its calls to that instance instead of
    warning. *)
Theorem wrapper_flags_ignore_sdk_failure
        (env : Env) (clientId : String.string) (st : State) :
  detectDiscordEnvironment (location env) = true ->
  let st' := fst (init env clientId st) in
  inDiscord st' = true /\
  (forall message, log message st' = ("[Discord] " ++ message)%string) /\
  (forall cls,
     DiscordSDK env = Some cls -> constructorThrows cls = false ->
     subscribe st' = HandedTo (mkSdk clientId cls) /\
     (readyOutcome cls = Rejects ->
      snd (init env clientId st) = Some (BrowserMode true)) /\
     (readyOutcome cls = NeverSettles ->
      snd (init env clientId st) = None /\ ready st' = ready st)) /\
  ((DiscordSDK env = None \/
    exists cls, DiscordSDK env = Some cls /\ constructorThrows cls = true) ->
   getSDK st' = getSDK st /\
   exists error, snd (init env clientId st) = Some (BrowserMode error)).
Proof.
  intros Hdet. cbv zeta. unfold init. cbv zeta. rewrite Hdet. simpl.
  split; [| split; [| split]].
  - destruct (DiscordSDK env) as [cls |]; [| reflexivity].
    destruct (constructorThrows cls); [reflexivity |].
    destruct (readyOutcome cls); reflexivity.
  - intros message.
    destruct (DiscordSDK env) as [cls |]; [| reflexivity].
    destruct (constructorThrows cls); [reflexivity |].
    destruct (readyOutcome cls); reflexivity.
  - intros cls -> ->.
    destruct (readyOutcome cls); simpl; repeat split; try discriminate.
  - intros [-> | (cls & -> & ->)]; simpl; eauto.
Qed.

Lemma wrapper_flags_ignore_sdk_failure_witness :
  let env := mkEnv (mkLocation [] "1234.discordsays.com")
                   (Some (mkSdkClass false Rejects "c" "g" "i")) in
  inDiscord (fst (init env "app" initial)) = true /\
  snd (init env "app" initial) = Some (BrowserMode true) /\
  subscribe (fst (init env "app" initial))
  = HandedTo (mkSdk "app" (mkSdkClass false Rejects "c" "g" "i")).
Proof.
  cbv zeta.
  destruct (wrapper_flags_ignore_sdk_failure
              (mkEnv (mkLocation [] "1234.discordsays.com")
                     (Some (mkSdkClass false Rejects "c" "g" "i")))
              "app" initial eq_refl) as (Hin & _ & Hcls & _).
  destruct (Hcls _ eq_refl eq_refl) as (Hsub & Hrej & _).
  split; [exact Hin |]. split; [exact (Hrej eq_refl) | exact Hsub].
Defined.

End DiscordFacts.
